(** * KSDynamicLinker: the registry of loaded binary images

    A shallow embedding of [Sources/KSCrashRecordingCore/KSDynamicLinker.c]
    (with the descriptor type of [include/KSDynamicLinker.h]) and the
    properties of it that the design document states.

    Conventions of the embedding.
    - The target is LP64 and little-endian: [uintptr_t], [intptr_t],
      [vm_address_t], [unsigned long] and pointers are 64 bits wide.
    - Integers are [Z]; every place where the C code wraps around is
      written out with [wrap64] (unsigned) or [sint32]/[sint64] (signed
      reinterpretation).
    - Foreign memory (image headers, command tables, crash-info sections)
      is a function from addresses to bytes.
    - Pointers to descriptors are typed ([image_ptr]): the null pointer,
      the address of the static sentinel [g_head_dummy], or a block
      returned by [calloc]. *)

From stdpp Require Import gmap strings list.
From Stdlib Require Import ZArith Lia.
From Stdlib.Strings Require Import Byte Ascii.

Local Open Scope Z_scope.

(** ** Machine arithmetic *)

Definition wrap64 (x : Z) : Z := x mod 2 ^ 64.

(** Reinterpretation of a 32-bit pattern as [int]. *)
Definition sint32 (x : Z) : Z := if x <? 2 ^ 31 then x else x - 2 ^ 32.

(** Reinterpretation of a 64-bit pattern as [intptr_t]. *)
Definition sint64 (x : Z) : Z := if x <? 2 ^ 63 then x else x - 2 ^ 64.

(** ** Raw memory *)

Definition memory : Type := Z -> byte.

Definition load8 (m : memory) (a : Z) : Z := Z.of_N (Byte.to_N (m a)).

Definition load32 (m : memory) (a : Z) : Z :=
  load8 m a + 2 ^ 8 * load8 m (a + 1) + 2 ^ 16 * load8 m (a + 2)
  + 2 ^ 24 * load8 m (a + 3).

Definition load64 (m : memory) (a : Z) : Z :=
  load32 m a + 2 ^ 32 * load32 m (a + 4).

(** ** C strings *)

Definition char_code (c : ascii) : Z := Z.of_N (N_of_ascii c).

(** [strcmp(p, lit) == 0] for a pointer [p] into raw memory and a string
    literal [lit]: the bytes at [p] spell [lit] and are followed by NUL.
    The comparison stops at the first difference. *)
Fixpoint strcmp_mem_eq (m : memory) (p : Z) (lit : string) : bool :=
  match lit with
  | EmptyString => load8 m p =? 0
  | String c rest => (load8 m p =? char_code c) && strcmp_mem_eq m (p + 1) rest
  end.

(** [strcmp(a, b) == 0] on two well-formed C strings. *)
Definition strcmp_eq (a b : string) : bool := String.eqb a b.

(** [strstr(haystack, needle)]: the offset of the first occurrence of
    [needle] in [haystack], [None] for a null result.  An empty needle is
    found at offset 0. *)
Fixpoint strstr (haystack needle : string) : option nat :=
  if String.prefix needle haystack then Some O
  else match haystack with
       | EmptyString => None
       | String _ rest => option_map S (strstr rest needle)
       end.

(** ** Mach-O constants and layout

    [<mach-o/loader.h>] is a platform header; the values and field
    offsets below are the ones it fixes. *)

Definition MH_MAGIC : Z := 0xfeedface.
Definition MH_CIGAM : Z := 0xcefaedfe.
Definition MH_MAGIC_64 : Z := 0xfeedfacf.
Definition MH_CIGAM_64 : Z := 0xcffaedfe.
Definition MH_EXECUTE : Z := 0x2.

Definition LC_SEGMENT : Z := 0x1.
Definition LC_ID_DYLIB : Z := 0xd.
Definition LC_SEGMENT_64 : Z := 0x19.
Definition LC_UUID : Z := 0x1b.

Definition SEG_TEXT : string := "__TEXT".
Definition SEG_DATA : string := "__DATA".
Definition KSDL_SECT_CRASH_INFO : string := "__crash_info".

Definition sizeof_mach_header : Z := 28.
Definition sizeof_mach_header_64 : Z := 32.

(** [struct mach_header]: magic, cputype, cpusubtype, filetype, ncmds. *)
Definition off_magic : Z := 0.
Definition off_cputype : Z := 4.
Definition off_cpusubtype : Z := 8.
Definition off_filetype : Z := 12.
Definition off_ncmds : Z := 16.

(** [struct load_command]: cmd, cmdsize. *)
Definition off_cmd : Z := 0.
Definition off_cmdsize : Z := 4.

(** [struct segment_command] and [struct segment_command_64]. *)
Definition off_segname : Z := 8.
Definition off_seg_vmaddr : Z := 24.
Definition off_seg_vmsize : Z := 28.
Definition off_seg64_vmaddr : Z := 24.
Definition off_seg64_vmsize : Z := 32.

(** [struct uuid_command] and [struct dylib_command]. *)
Definition off_uuid : Z := 8.
Definition off_dylib_current_version : Z := 16.

(** [crash_info_t] under [#pragma pack(8)]. *)
Definition off_ci_version : Z := 0.
Definition off_ci_message : Z := 8.
Definition off_ci_signature : Z := 16.
Definition off_ci_backtrace : Z := 24.
Definition off_ci_message2 : Z := 32.
Definition off_ci_reserved : Z := 40.

Definition KSDL_MaxCrashInfoStringLength : Z := 4096.

(** ** The descriptor *)

Inductive image_ptr : Type :=
| NullImage
| HeadDummy
| Alloc (a : Z).

#[global] Instance image_ptr_eq_dec : EqDecision image_ptr.
Proof. solve_decision. Defined.

(** [KSBinaryImage].  A [const char *name] is either null or a C string;
    the crash-info strings and the uuid stay raw addresses, as they point
    into memory the image itself supplies. *)
Record KSBinaryImage : Type := mkImage {
  header : Z;
  vmAddress : Z;
  size : Z;
  name : option string;
  uuid : Z;
  slide : Z;
  unloaded : bool;
  inCrashReport : bool;
  cpuType : Z;
  cpuSubType : Z;
  majorVersion : Z;
  minorVersion : Z;
  revisionVersion : Z;
  crashInfoMessage : Z;
  crashInfoMessage2 : Z;
  crashInfoBacktrace : Z;
  crashInfoSignature : Z;
  next : image_ptr
}.

(** The all-zero descriptor: what [calloc] and [= { 0 }] produce. *)
Definition zero_image : KSBinaryImage :=
  mkImage 0 0 0 None 0 0 false false 0 0 0 0 0 0 0 0 0 NullImage.

Definition set_next (n : image_ptr) (b : KSBinaryImage) : KSBinaryImage :=
  mkImage (header b) (vmAddress b) (size b) (name b) (uuid b) (slide b)
    (unloaded b) (inCrashReport b) (cpuType b) (cpuSubType b)
    (majorVersion b) (minorVersion b) (revisionVersion b)
    (crashInfoMessage b) (crashInfoMessage2 b) (crashInfoBacktrace b)
    (crashInfoSignature b) n.

Definition set_unloaded (u : bool) (b : KSBinaryImage) : KSBinaryImage :=
  mkImage (header b) (vmAddress b) (size b) (name b) (uuid b) (slide b)
    u (inCrashReport b) (cpuType b) (cpuSubType b)
    (majorVersion b) (minorVersion b) (revisionVersion b)
    (crashInfoMessage b) (crashInfoMessage2 b) (crashInfoBacktrace b)
    (crashInfoSignature b) (next b).

Definition set_crashInfoMessage (p : Z) (b : KSBinaryImage) : KSBinaryImage :=
  mkImage (header b) (vmAddress b) (size b) (name b) (uuid b) (slide b)
    (unloaded b) (inCrashReport b) (cpuType b) (cpuSubType b)
    (majorVersion b) (minorVersion b) (revisionVersion b)
    p (crashInfoMessage2 b) (crashInfoBacktrace b)
    (crashInfoSignature b) (next b).

Definition set_crashInfoMessage2 (p : Z) (b : KSBinaryImage) : KSBinaryImage :=
  mkImage (header b) (vmAddress b) (size b) (name b) (uuid b) (slide b)
    (unloaded b) (inCrashReport b) (cpuType b) (cpuSubType b)
    (majorVersion b) (minorVersion b) (revisionVersion b)
    (crashInfoMessage b) p (crashInfoBacktrace b)
    (crashInfoSignature b) (next b).

Definition set_crashInfoBacktrace (p : Z) (b : KSBinaryImage) : KSBinaryImage :=
  mkImage (header b) (vmAddress b) (size b) (name b) (uuid b) (slide b)
    (unloaded b) (inCrashReport b) (cpuType b) (cpuSubType b)
    (majorVersion b) (minorVersion b) (revisionVersion b)
    (crashInfoMessage b) (crashInfoMessage2 b) p
    (crashInfoSignature b) (next b).

Definition set_crashInfoSignature (p : Z) (b : KSBinaryImage) : KSBinaryImage :=
  mkImage (header b) (vmAddress b) (size b) (name b) (uuid b) (slide b)
    (unloaded b) (inCrashReport b) (cpuType b) (cpuSubType b)
    (majorVersion b) (minorVersion b) (revisionVersion b)
    (crashInfoMessage b) (crashInfoMessage2 b) (crashInfoBacktrace b)
    p (next b).

(** ** The environment

    What the code consumes from outside: the memory it inspects, the
    name resolution of [dladdr], the section lookup of [getsectiondata],
    the loader bookkeeping that [task_info] reports, and the addresses the
    linker assigns. *)

(** [struct dyld_all_image_infos], the fields the code reads;
    [infoArray] is its first element (load address and file path). *)
Record dyld_all_image_infos : Type := {
  dyldImageLoadAddress : Z;
  dyldPath : option string;
  infoArray : option (Z * string)
}.

Record env : Type := {
  mem : memory;
  (** which addresses can be read without faulting *)
  readable : Z -> bool;
  (** [Dl_info.dli_fname] after [dladdr(header, ..)]; [None] when null *)
  dladdr_fname : Z -> option string;
  (** [getsectiondata(header, segname, sectname, &size)]: the returned
      pointer (0 when null) and the size it stores *)
  getsectiondata : Z -> string -> string -> Z * Z;
  (** [task_info(.., TASK_DYLD_INFO, ..)]: the bookkeeping region, [None]
      when the call fails or reports a null address *)
  task_dyld_info : option dyld_all_image_infos;
  TARGET_OS_SIMULATOR : bool;
  (** [&__dso_handle] *)
  dso_handle : Z
}.

(** ** The process-wide state

    The descriptors [calloc] handed out, the static sentinel and the
    globals of the translation unit.  [dyld_calls] records the calls made
    to find and to subscribe to the loader ([task_info] for its
    bookkeeping region, and the two registrations), oldest first. *)

Inductive dyld_call : Type :=
| TaskInfoDyld
| RegisterFuncForAddImage
| RegisterFuncForRemoveImage.

Record state : Type := mkState {
  images : gmap Z KSBinaryImage;
  g_head_dummy : KSBinaryImage;
  g_images_tail : image_ptr;
  g_self_image : image_ptr;
  is_image_list_initialized : bool;
  g_all_image_infos : option dyld_all_image_infos;
  dyld_calls : list dyld_call
}.

(** The state at program start: static storage is zero-initialised and
    [g_images_tail = &g_head_dummy]. *)
Definition initial_state : state :=
  mkState ∅ zero_image HeadDummy NullImage false None [].

Definition deref (st : state) (p : image_ptr) : option KSBinaryImage :=
  match p with
  | NullImage => None
  | HeadDummy => Some (g_head_dummy st)
  | Alloc a => images st !! a
  end.

(** Update of the object [p] points to.  Writing through a null or
    dangling pointer has no defined behaviour in C; here it changes
    nothing, and the invariant of the registry shows it never happens. *)
Definition update (st : state) (p : image_ptr)
    (f : KSBinaryImage -> KSBinaryImage) : state :=
  match p with
  | NullImage => st
  | HeadDummy =>
      mkState (images st) (f (g_head_dummy st)) (g_images_tail st)
        (g_self_image st) (is_image_list_initialized st)
        (g_all_image_infos st) (dyld_calls st)
  | Alloc a =>
      mkState (alter f a (images st)) (g_head_dummy st) (g_images_tail st)
        (g_self_image st) (is_image_list_initialized st)
        (g_all_image_infos st) (dyld_calls st)
  end.

Definition with_images (h : gmap Z KSBinaryImage) (st : state) : state :=
  mkState h (g_head_dummy st) (g_images_tail st) (g_self_image st)
    (is_image_list_initialized st) (g_all_image_infos st) (dyld_calls st).

Definition with_tail (t : image_ptr) (st : state) : state :=
  mkState (images st) (g_head_dummy st) t (g_self_image st)
    (is_image_list_initialized st) (g_all_image_infos st) (dyld_calls st).

Definition with_self_image (p : image_ptr) (st : state) : state :=
  mkState (images st) (g_head_dummy st) (g_images_tail st) p
    (is_image_list_initialized st) (g_all_image_infos st) (dyld_calls st).

Definition with_initialized (b : bool) (st : state) : state :=
  mkState (images st) (g_head_dummy st) (g_images_tail st) (g_self_image st)
    b (g_all_image_infos st) (dyld_calls st).

Definition with_all_image_infos (g : option dyld_all_image_infos)
    (st : state) : state :=
  mkState (images st) (g_head_dummy st) (g_images_tail st) (g_self_image st)
    (is_image_list_initialized st) g (dyld_calls st).

Definition record_dyld_call (c : dyld_call) (st : state) : state :=
  mkState (images st) (g_head_dummy st) (g_images_tail st) (g_self_image st)
    (is_image_list_initialized st) (g_all_image_infos st)
    (dyld_calls st ++ [c]).

(** Errors the parser reports through [KSLOG_ERROR]. *)
Inductive log_error : Type :=
| ErrNoName (header : Z)
| ErrHeaderMismatch (imageName : string).

(** ** The bounded validation helper *)

(** [readable_run readable n a]: the number of consecutive readable
    bytes from [a] on, at most [n]. *)
Fixpoint readable_run (readable : Z -> bool) (n : nat) (a : Z) : Z :=
  match n with
  | O => 0
  | S k => if readable a then 1 + readable_run readable k (a + 1) else 0
  end.

(** Modelled from the spec: [ksmem_maxReadableBytes] is defined in
    KSMemory.c, outside this translation unit; the design document gives
    it as "how many bytes starting at address X are safely readable", up
    to the limit passed. *)
Definition ksmem_maxReadableBytes (E : env) (p : Z) (limit : Z) : Z :=
  readable_run (readable E) (Z.to_nat limit) p.

(** Modelled from the spec: [ksmem_isMemoryReadable] is defined in
    KSMemory.c, outside this translation unit; the design document gives
    it as "isReadable(pointer, length) -> bool": all [length] bytes from
    [pointer] are readable. *)
Definition ksmem_isMemoryReadable (E : env) (p : Z) (len : Z) : bool :=
  ksmem_maxReadableBytes E p len =? Z.max 0 len.

(** ** The descriptor parser *)

Section Parser.

Variable E : env.

(** The static [g_all_image_infos], as the parser finds it. *)
Variable g : option dyld_all_image_infos.

Definition get_path (header : Z) : option string :=
  match dladdr_fname E header with
  | Some fname => Some fname
  | None =>
      match g with
      | Some infos =>
          if header =? dyldImageLoadAddress infos then dyldPath infos
          else if TARGET_OS_SIMULATOR E then
            match infoArray infos with
            | Some (loadAddress, filePath) =>
                if header =? loadAddress then Some filePath else None
            | None => None
            end
          else None
      | None => None
      end
  end.

Definition ksdl_first_cmd_after_header (header : Z) : Z :=
  if header =? 0 then 0
  else
    let magic := load32 (mem E) (header + off_magic) in
    if (magic =? MH_MAGIC) || (magic =? MH_CIGAM)
    then wrap64 (header + sizeof_mach_header)
    else if (magic =? MH_MAGIC_64) || (magic =? MH_CIGAM_64)
    then wrap64 (header + sizeof_mach_header_64)
    else 0.

(** The locals of the command walk. *)
Record walk : Type := mkWalk {
  cmdPtr : Z;
  imageSize : Z;
  imageVmAddr : Z;
  version : Z;
  uuid_ptr : Z
}.

(** One iteration of the loop over the load commands. *)
Definition walk_step (w : walk) : walk :=
  let p := cmdPtr w in
  let cmd := load32 (mem E) (p + off_cmd) in
  let p' := wrap64 (p + load32 (mem E) (p + off_cmdsize)) in
  if cmd =? LC_SEGMENT then
    if strcmp_mem_eq (mem E) (p + off_segname) SEG_TEXT
    then mkWalk p' (load32 (mem E) (p + off_seg_vmsize))
           (load32 (mem E) (p + off_seg_vmaddr)) (version w) (uuid_ptr w)
    else mkWalk p' (imageSize w) (imageVmAddr w) (version w) (uuid_ptr w)
  else if cmd =? LC_SEGMENT_64 then
    if strcmp_mem_eq (mem E) (p + off_segname) SEG_TEXT
    then mkWalk p' (load64 (mem E) (p + off_seg64_vmsize))
           (load64 (mem E) (p + off_seg64_vmaddr)) (version w) (uuid_ptr w)
    else mkWalk p' (imageSize w) (imageVmAddr w) (version w) (uuid_ptr w)
  else if cmd =? LC_UUID then
    mkWalk p' (imageSize w) (imageVmAddr w) (version w) (p + off_uuid)
  else if cmd =? LC_ID_DYLIB then
    mkWalk p' (imageSize w) (imageVmAddr w)
      (load32 (mem E) (p + off_dylib_current_version)) (uuid_ptr w)
  else mkWalk p' (imageSize w) (imageVmAddr w) (version w) (uuid_ptr w).

(** [for (iCmd = 0; iCmd < header->ncmds; iCmd++)], by the number of
    iterations left. *)
Fixpoint walk_cmds (n : nat) (w : walk) : walk :=
  match n with
  | O => w
  | S k => walk_cmds k (walk_step w)
  end.

Definition header_ncmds (header : Z) : nat :=
  Z.to_nat (load32 (mem E) (header + off_ncmds)).

(** [for (int i = 0; i < maxReadableBytes; ++i) if (str[i] == 0) return
    true;], by the number of iterations left. *)
Fixpoint nul_within (n : nat) (p : Z) : bool :=
  match n with
  | O => false
  | S k => if load8 (mem E) p =? 0 then true else nul_within k (p + 1)
  end.

Definition isValidCrashInfoMessage (str : Z) : bool :=
  if str =? 0 then false
  else
    let maxReadableBytes :=
      ksmem_maxReadableBytes E str (KSDL_MaxCrashInfoStringLength + 1) in
    if maxReadableBytes =? 0 then false
    else nul_within (Z.to_nat maxReadableBytes) str.

Definition getCrashInfo (buffer : KSBinaryImage) : KSBinaryImage :=
  let '(crashInfo, sz) :=
    getsectiondata E (header buffer) SEG_DATA KSDL_SECT_CRASH_INFO in
  if crashInfo =? 0 then buffer
  else
    let minimalSize := off_ci_reserved in
    if sz <? minimalSize then buffer
    else if negb (ksmem_isMemoryReadable E crashInfo minimalSize) then buffer
    else
      let ci_version := load32 (mem E) (crashInfo + off_ci_version) in
      let message := load64 (mem E) (crashInfo + off_ci_message) in
      let signature := load64 (mem E) (crashInfo + off_ci_signature) in
      let backtrace := load64 (mem E) (crashInfo + off_ci_backtrace) in
      let message2 := load64 (mem E) (crashInfo + off_ci_message2) in
      if negb (ci_version =? 4) && negb (ci_version =? 5) then buffer
      else if (message =? 0) && (message2 =? 0) then buffer
      else
        let b1 := if isValidCrashInfoMessage message
                  then set_crashInfoMessage message buffer else buffer in
        let b2 := if isValidCrashInfoMessage message2
                  then set_crashInfoMessage2 message2 b1 else b1 in
        let b3 := if isValidCrashInfoMessage backtrace
                  then set_crashInfoBacktrace backtrace b2 else b2 in
        if isValidCrashInfoMessage signature
        then set_crashInfoSignature signature b3 else b3.

(** The result of [ksdl_getBinaryImageForHeader]: the returned flag, the
    caller's buffer as the call leaves it, and the errors logged. *)
Definition ksdl_getBinaryImageForHeader (header : Z) (slide : Z)
    (buffer : KSBinaryImage) : bool * KSBinaryImage * list log_error :=
  let cmdPtr0 := ksdl_first_cmd_after_header header in
  if cmdPtr0 =? 0 then (false, buffer, [])
  else
    match get_path header with
    | None => (false, buffer, [ErrNoName header])
    | Some imageName =>
        let w := walk_cmds (header_ncmds header) (mkWalk cmdPtr0 0 0 0 0) in
        let errs :=
          if wrap64 (wrap64 (imageVmAddr w) + wrap64 slide) =? header
          then [] else [ErrHeaderMismatch imageName] in
        let filled :=
          mkImage header (imageVmAddr w) (imageSize w) (Some imageName)
            (uuid_ptr w) slide false (inCrashReport buffer)
            (sint32 (load32 (mem E) (header + off_cputype)))
            (sint32 (load32 (mem E) (header + off_cpusubtype)))
            (Z.shiftr (version w) 16)
            (Z.land (Z.shiftr (version w) 8) 0xff)
            (Z.land (version w) 0xff)
            (crashInfoMessage buffer) (crashInfoMessage2 buffer)
            (crashInfoBacktrace buffer) (crashInfoSignature buffer)
            (next buffer) in
        (true, set_next NullImage (getCrashInfo filled), errs)
    end.

(** [compute_slide]: the loop leaves with a value at the first TEXT
    segment.  A 32-bit segment command that is not TEXT falls through
    into the 64-bit case, which reads the same name and so does nothing. *)
Fixpoint compute_slide_loop (n : nat) (header : Z) (p : Z) : Z :=
  match n with
  | O => 0
  | S k =>
      let cmd := load32 (mem E) (p + off_cmd) in
      let is_text := strcmp_mem_eq (mem E) (p + off_segname) SEG_TEXT in
      let p' := wrap64 (p + load32 (mem E) (p + off_cmdsize)) in
      if (cmd =? LC_SEGMENT) && is_text
      then sint64 (wrap64 (header - load32 (mem E) (p + off_seg_vmaddr)))
      else if ((cmd =? LC_SEGMENT) || (cmd =? LC_SEGMENT_64)) && is_text
      then sint64 (wrap64 (header - load64 (mem E) (p + off_seg64_vmaddr)))
      else compute_slide_loop k header p'
  end.

Definition compute_slide (header : Z) : Z :=
  let p := ksdl_first_cmd_after_header header in
  if p =? 0 then 0 else compute_slide_loop (header_ncmds header) header p.

End Parser.

(** ** The registry, one call at a time *)

Section Registry.

Variable E : env.

(** [add_image].  [newImage] is what [calloc] returns: [None] for a null
    result, [Some a] for a zeroed block at [a]. *)
Definition add_image (newImage : option Z) (header slide : Z)
    (st : state) : state :=
  match newImage with
  | None => st
  | Some a =>
      let st1 := with_images (<[a := zero_image]> (images st)) st in
      let '(ok, buffer, _) :=
        ksdl_getBinaryImageForHeader E (g_all_image_infos st1) header slide
          zero_image in
      if negb ok then with_images (delete a (images st1)) st1
      else
        let st2 := with_images (<[a := buffer]> (images st1)) st1 in
        let oldTail := g_images_tail st2 in
        let st3 := with_tail (Alloc a) st2 in
        let st4 := update st3 oldTail (set_next (Alloc a)) in
        if header =? dso_handle E then with_self_image (Alloc a) st4 else st4
  end.

Definition ksdl_get_images (st : state) : image_ptr :=
  next (g_head_dummy st).

(** The loop of [remove_image], by the number of iterations left; [None]
    when they run out or a pointer cannot be followed. *)
Fixpoint remove_image_loop (fuel : nat) (vm : Z) (img : image_ptr)
    (st : state) : option state :=
  match fuel with
  | O => None
  | S k =>
      match img with
      | NullImage => Some st
      | _ =>
          match deref st img with
          | None => None
          | Some d =>
              let st' := if vmAddress d =? vm
                         then update st img (set_unloaded true) else st in
              remove_image_loop k vm (next d) st'
          end
      end
  end.

Definition remove_image (fuel : nat) (header slide : Z)
    (st : state) : option state :=
  let '(ok, existingImage, _) :=
    ksdl_getBinaryImageForHeader E (g_all_image_infos st) header slide
      zero_image in
  if negb ok then Some st
  else remove_image_loop fuel (vmAddress existingImage) (ksdl_get_images st) st.

(** [register_for_changes]: the two registrations with the loader, as
    calls made.  The loader answers the first by calling [add_image] back
    once for each image already loaded; these calls are not part of this
    definition.  They are calls of [add_image] like any later one, the
    [CallAddImage] calls that follow a [CallInitialize] in [reachable]
    and [run_calls]; [initialize_with_dyld_callbacks] below is the call
    with them in place. *)
Definition register_for_changes (st : state) : state :=
  record_dyld_call RegisterFuncForRemoveImage
    (record_dyld_call RegisterFuncForAddImage st).

(** [register_dyld_images]; [new1] and [new2] are the results of the (at
    most two) [calloc] calls it reaches. *)
Definition register_dyld_images (new1 new2 : option Z) (st : state) : state :=
  let st0 := record_dyld_call TaskInfoDyld st in
  match task_dyld_info E with
  | Some infos =>
      let st1 := with_all_image_infos (Some infos) st0 in
      let dyldHeader := dyldImageLoadAddress infos in
      let dyldImageSlide := compute_slide E dyldHeader in
      let st2 := add_image new1 dyldHeader dyldImageSlide st1 in
      if TARGET_OS_SIMULATOR E then
        match infoArray infos with
        | Some (simHeader, filePath) =>
            match strstr filePath "/usr/lib/dyld_sim" with
            | Some _ => add_image new2 simHeader (compute_slide E simHeader) st2
            | None => st2
            end
        | None => st2
        end
      else st2
  | None => st0
  end.

(** [ksdl_binary_images_initialize]: the compare-and-set on
    [is_image_list_initialized], then the two registration steps. *)
Definition ksdl_binary_images_initialize (new1 new2 : option Z)
    (st : state) : state :=
  if is_image_list_initialized st then st
  else
    let st1 := with_initialized true st in
    register_for_changes (register_dyld_images new1 new2 st1).

(** ** The query surface *)

Definition contains_address (img : KSBinaryImage) (address : Z) : bool :=
  if unloaded img then false
  else
    let imageStart := header img in
    (address >=? imageStart) && (address <? wrap64 (imageStart + size img)).

Fixpoint image_at_address_loop (fuel : nat) (st : state) (img : image_ptr)
    (address : Z) : option image_ptr :=
  match fuel with
  | O => None
  | S k =>
      match img with
      | NullImage => Some NullImage
      | _ =>
          match deref st img with
          | None => None
          | Some d =>
              if contains_address d address then Some img
              else image_at_address_loop k st (next d) address
          end
      end
  end.

Definition ksdl_image_at_address (fuel : nat) (st : state)
    (address : Z) : option image_ptr :=
  image_at_address_loop fuel st (ksdl_get_images st) address.

(** The test one iteration of [ksdl_imageNamed] applies to a descriptor. *)
Definition name_matches (imageName : string) (exactMatch : bool)
    (d : KSBinaryImage) : bool :=
  match name d with
  | None => false
  | Some n =>
      if unloaded d then false
      else if exactMatch then strcmp_eq n imageName
      else match strstr n imageName with Some _ => true | None => false end
  end.

Fixpoint imageNamed_loop (fuel : nat) (st : state) (img : image_ptr)
    (imageName : string) (exactMatch : bool) : option image_ptr :=
  match fuel with
  | O => None
  | S k =>
      match img with
      | NullImage => Some NullImage
      | _ =>
          match deref st img with
          | None => None
          | Some d =>
              if name_matches imageName exactMatch d then Some img
              else imageNamed_loop k st (next d) imageName exactMatch
          end
      end
  end.

(** [imageName] is [None] for a null query. *)
Definition ksdl_imageNamed (fuel : nat) (st : state)
    (imageName : option string) (exactMatch : bool) : option image_ptr :=
  match imageName with
  | None => Some NullImage
  | Some n => imageNamed_loop fuel st (ksdl_get_images st) n exactMatch
  end.

(** A full traversal from [ksdl_get_images()], as every reader performs
    it: the descriptors visited, in order. *)
Fixpoint traverse_from (fuel : nat) (st : state)
    (img : image_ptr) : option (list image_ptr) :=
  match fuel with
  | O => None
  | S k =>
      match img with
      | NullImage => Some []
      | _ =>
          match deref st img with
          | None => None
          | Some d => option_map (cons img) (traverse_from k st (next d))
          end
      end
  end.

Definition traverse (fuel : nat) (st : state) : option (list image_ptr) :=
  traverse_from fuel st (ksdl_get_images st).

(** ** Calls from outside and what they do to the state *)

Inductive call : Type :=
| CallAddImage (newImage : option Z) (header slide : Z)
| CallRemoveImage (header slide : Z)
| CallInitialize (new1 new2 : option Z).

(** [calloc] returns null or a block that is not in use. *)
Definition calloc_fresh (st : state) (newImage : option Z) : Prop :=
  match newImage with
  | None => True
  | Some a => images st !! a = None
  end.

Definition call_allowed (st : state) (c : call) : Prop :=
  match c with
  | CallAddImage newImage _ _ => calloc_fresh st newImage
  | CallRemoveImage _ _ => True
  | CallInitialize new1 new2 =>
      calloc_fresh st new1 /\
      forall infos, task_dyld_info E = Some infos ->
        calloc_fresh
          (add_image new1 (dyldImageLoadAddress infos)
             (compute_slide E (dyldImageLoadAddress infos))
             (with_all_image_infos (Some infos)
                (record_dyld_call TaskInfoDyld (with_initialized true st))))
          new2
  end.

(** The effect of a call; the loop of [remove_image] gets as many
    iterations as there are descriptors, plus the final null test. *)
Definition run_call (c : call) (st : state) : option state :=
  match c with
  | CallAddImage newImage header slide =>
      Some (add_image newImage header slide st)
  | CallRemoveImage header slide =>
      remove_image (S (base.size (images st))) header slide st
  | CallInitialize new1 new2 =>
      Some (ksdl_binary_images_initialize new1 new2 st)
  end.

Inductive reachable : state -> Prop :=
| reachable_initial : reachable initial_state
| reachable_call st c st' :
    reachable st -> call_allowed st c -> run_call c st = Some st' ->
    reachable st'.

End Registry.

(** ** The shape of the registry *)

(** [linked h p l]: following [next] from the pointer [p] visits exactly
    the blocks [l], in this order, and then reaches the null pointer. *)
Fixpoint linked (h : gmap Z KSBinaryImage) (p : image_ptr)
    (l : list Z) : Prop :=
  match l with
  | [] => p = NullImage
  | a :: rest =>
      p = Alloc a /\ exists d, h !! a = Some d /\ linked h (next d) rest
  end.

Definition last_ptr (l : list Z) : image_ptr :=
  match last l with
  | Some a => Alloc a
  | None => HeadDummy
  end.

(** [registry_list st l]: the registry holds the descriptors at [l], in
    insertion order.  They are pairwise distinct, linked from the
    sentinel, the tail pointer is at the last of them (at the sentinel
    when there is none), and no other block is allocated. *)
Definition registry_list (st : state) (l : list Z) : Prop :=
  NoDup l /\
  linked (images st) (next (g_head_dummy st)) l /\
  g_images_tail st = last_ptr l /\
  (forall a, is_Some (images st !! a) <-> a ∈ l).

(** The first descriptor of [l] that passes [test], as a pointer. *)
Definition first_match (st : state) (l : list Z)
    (test : KSBinaryImage -> bool) : image_ptr :=
  match List.find (fun a => match images st !! a with
                            | Some d => test d
                            | None => false
                            end) l with
  | Some a => Alloc a
  | None => NullImage
  end.

(** The range test as the design document words it: not unloaded, and the
    address in [[runtime header address, runtime header address + size)],
    with the sum taken in the integers. *)
Definition in_image_range (address : Z) (d : KSBinaryImage) : bool :=
  negb (unloaded d) && (header d <=? address)
  && (address <? header d + size d).

(** The name test as the design document words it: the descriptor has a
    name, is not unloaded, and the name equals the query (exact) or has
    it as a substring. *)
Definition is_substring (needle hay : string) : Prop :=
  exists pre post : string, hay = (pre ++ needle ++ post)%string.

Definition named_like (imageName : string) (exactMatch : bool)
    (d : KSBinaryImage) : Prop :=
  exists n, name d = Some n /\ unloaded d = false /\
    if exactMatch then n = imageName else is_substring imageName n.

(** What [remove_image] does to one descriptor. *)
Definition mark_unloaded (vm : Z) (d : KSBinaryImage) : KSBinaryImage :=
  if vmAddress d =? vm then set_unloaded true d else d.

(** The addresses of the load commands the walk visits: [n] of them,
    each found by adding the previous one's [cmdsize]. *)
Fixpoint cmd_ptrs (E : env) (n : nat) (p : Z) : list Z :=
  match n with
  | O => []
  | S k =>
      p :: cmd_ptrs E k (wrap64 (p + load32 (mem E) (p + off_cmdsize)))
  end.

Definition is_id_dylib (E : env) (p : Z) : bool :=
  load32 (mem E) (p + off_cmd) =? LC_ID_DYLIB.

(** The dynamic-library-identity commands of an image, in table order. *)
Definition id_dylib_cmds (E : env) (header : Z) : list Z :=
  filter (fun p => is_id_dylib E p = true)
    (cmd_ptrs E (header_ncmds E header) (ksdl_first_cmd_after_header E header)).

(** Running a list of calls, refusing one whose [calloc] results are in
    use. *)
Fixpoint run_calls (E : env) (cs : list call) (st : state) : option state :=
  match cs with
  | [] => Some st
  | c :: rest =>
      match run_call E c st with
      | Some st' => run_calls E rest st'
      | None => None
      end
  end.

Fixpoint calls_allowed (E : env) (cs : list call) (st : state) : Prop :=
  match cs with
  | [] => True
  | c :: rest =>
      call_allowed E st c /\
      match run_call E c st with
      | Some st' => calls_allowed E rest st'
      | None => True
      end
  end.

(** A run of [add_image] calls, each given the block [calloc] returned
    for it together with the header and the slide. *)
Definition add_images (E : env) (adds : list (Z * Z * Z))
    (st : state) : state :=
  foldl (fun s '(a, h, sl) => add_image E (Some a) h sl s) st adds.

(** Equality of two descriptors in every field but the link. *)
Definition same_but_next (d d' : KSBinaryImage) : Prop :=
  set_next NullImage d = set_next NullImage d'.

(** [evolves d d']: [d'] is a later state of the descriptor [d].  Only
    the link and the unloaded flag may differ, and the flag does not go
    back to false. *)
Definition evolves (d d' : KSBinaryImage) : Prop :=
  set_unloaded true (set_next NullImage d')
    = set_unloaded true (set_next NullImage d) /\
  (unloaded d = true -> unloaded d' = true).

(** The loader bookkeeping is known only once initialisation has begun. *)
Definition infos_guarded (st : state) : Prop :=
  g_all_image_infos st = None \/ is_image_list_initialized st = true.

(** "One of the recognized 32/64-bit values", as the design document
    words the magic test. *)
Definition recognized_magic (magic : Z) : bool :=
  (magic =? MH_MAGIC) || (magic =? MH_CIGAM)
  || (magic =? MH_MAGIC_64) || (magic =? MH_CIGAM_64).

(** The same environment with no crash-info section in any image:
    [getsectiondata] finds nothing. *)
Definition without_crash_info (E : env) : env := {|
  mem := mem E;
  readable := readable E;
  dladdr_fname := dladdr_fname E;
  getsectiondata := fun _ _ _ => (0, 0);
  task_dyld_info := task_dyld_info E;
  TARGET_OS_SIMULATOR := TARGET_OS_SIMULATOR E;
  dso_handle := dso_handle E
|}.

(** The descriptor with its four crash-info fields cleared. *)
Definition clear_crash_info (d : KSBinaryImage) : KSBinaryImage :=
  set_crashInfoMessage 0
    (set_crashInfoMessage2 0
       (set_crashInfoBacktrace 0 (set_crashInfoSignature 0 d))).

(** The conditions under which [getCrashInfo] goes on to look at the
    strings of the block [crashInfo] of [sz] bytes. *)
Definition crash_info_usable (E : env) (crashInfo sz : Z) : Prop :=
  crashInfo <> 0 /\ off_ci_reserved <= sz /\
  ksmem_isMemoryReadable E crashInfo off_ci_reserved = true /\
  (load32 (mem E) (crashInfo + off_ci_version) = 4 \/
   load32 (mem E) (crashInfo + off_ci_version) = 5) /\
  (load64 (mem E) (crashInfo + off_ci_message) <> 0 \/
   load64 (mem E) (crashInfo + off_ci_message2) <> 0).

(** ** Sample images

    Two small images laid out in memory, with which the definitions can
    be evaluated: a 64-bit dynamic library at [0x1000] (a TEXT segment, a
    uuid and an identity command of version 1.2.3, and a crash-info
    section at [0x3000]) and a 32-bit executable at [0x2000]. *)

Definition byte_of (v : Z) : byte :=
  match Byte.of_N (Z.to_N v) with
  | Some b => b
  | None => x00
  end.

Definition le32 (v : Z) : list Z :=
  [v mod 256; (v / 2 ^ 8) mod 256; (v / 2 ^ 16) mod 256; (v / 2 ^ 24) mod 256].

Definition le64 (v : Z) : list Z := le32 (v mod 2 ^ 32) ++ le32 (v / 2 ^ 32).

Definition string_codes (s : string) : list Z :=
  map char_code (String.list_ascii_of_string s).

Definition segname16 (s : string) : list Z :=
  take 16 (string_codes s ++ replicate 16 0).

Definition sample_dylib_bytes : list Z :=
  (* struct mach_header_64 *)
  le32 MH_MAGIC_64 ++ le32 0x0100000c ++ le32 0 ++ le32 6 ++ le32 3
  ++ le32 120 ++ le32 0 ++ le32 0
  (* LC_SEGMENT_64 __TEXT, vmaddr 0x1000, vmsize 0x400 *)
  ++ le32 LC_SEGMENT_64 ++ le32 72 ++ segname16 SEG_TEXT ++ le64 0x1000
  ++ le64 0x400 ++ le64 0 ++ le64 0x400 ++ le32 5 ++ le32 5 ++ le32 0
  ++ le32 0
  (* LC_UUID *)
  ++ le32 LC_UUID ++ le32 24 ++ replicate 16 0xab
  (* LC_ID_DYLIB, current_version 1.2.3 *)
  ++ le32 LC_ID_DYLIB ++ le32 24 ++ le32 24 ++ le32 0 ++ le32 0x00010203
  ++ le32 0x00010000.

Definition sample_exe_bytes : list Z :=
  (* struct mach_header *)
  le32 MH_MAGIC ++ le32 7 ++ le32 3 ++ le32 MH_EXECUTE ++ le32 1 ++ le32 56
  ++ le32 0
  (* LC_SEGMENT __TEXT, vmaddr 0x2000, vmsize 0x200 *)
  ++ le32 LC_SEGMENT ++ le32 56 ++ segname16 SEG_TEXT ++ le32 0x2000
  ++ le32 0x200 ++ le32 0 ++ le32 0x200 ++ le32 5 ++ le32 5 ++ le32 0
  ++ le32 0.

(** A version-5 crash-info block: a message at [0x3100], no signature, a
    backtrace pointer into unmapped memory, no second message. *)
Definition sample_crash_info_bytes : list Z :=
  le32 5 ++ le32 0 ++ le64 0x3100 ++ le64 0 ++ le64 0x9000 ++ le64 0
  ++ replicate 24 0.

Definition bytes_at (base : Z) (bytes : list Z) (a : Z) : option byte :=
  if (base <=? a) && (a <? base + Z.of_nat (length bytes))
  then Some (byte_of (nth (Z.to_nat (a - base)) bytes 0))
  else None.

(** Besides the images: 4096 non-NUL bytes at [0x10000] followed by a
    NUL, and 4097 non-NUL bytes at [0x20000]. *)
Definition sample_mem : memory := fun a =>
  match bytes_at 0x1000 sample_dylib_bytes a with
  | Some b => b
  | None =>
  match bytes_at 0x2000 sample_exe_bytes a with
  | Some b => b
  | None =>
  match bytes_at 0x3000 sample_crash_info_bytes a with
  | Some b => b
  | None =>
  match bytes_at 0x3100 (string_codes "boom") a with
  | Some b => b
  | None =>
      if (0x10000 <=? a) && (a <? 0x10000 + 4096) then "A"%byte
      else if (0x20000 <=? a) && (a <? 0x20000 + 4097) then "B"%byte
      else x00
  end end end end.

Definition sample_readable (a : Z) : bool :=
  ((0x1000 <=? a) && (a <? 0x4000))
  || ((0x10000 <=? a) && (a <? 0x12000))
  || ((0x20000 <=? a) && (a <? 0x20000 + 4097)).

Definition sample_env : env := {|
  mem := sample_mem;
  readable := sample_readable;
  dladdr_fname := fun h =>
    if h =? 0x1000 then Some "/usr/lib/libfoo.dylib"%string
    else if h =? 0x2000 then Some "/Applications/Demo.app/Demo"%string
    else None;
  getsectiondata := fun h seg sect =>
    if (h =? 0x1000) && String.eqb seg SEG_DATA
       && String.eqb sect KSDL_SECT_CRASH_INFO
    then (0x3000, 64) else (0, 0);
  task_dyld_info := None;
  TARGET_OS_SIMULATOR := false;
  dso_handle := 0x2000
|}.

(** ** Racing callers of [ksdl_binary_images_initialize]

    Each thread runs [ksdl_binary_images_initialize]; a step of the
    machine is a step of one thread.  The compare-and-set is one step;
    the winner then runs [register_dyld_images] and
    [register_for_changes], each taken as one step. *)

Inductive init_pc : Type :=
| InitEntry
| InitDiscover
| InitSubscribe
| InitReturned (won : bool).

Inductive init_step (E : env) : state -> init_pc -> state -> init_pc -> Prop :=
| init_cas_won st :
    is_image_list_initialized st = false ->
    init_step E st InitEntry (with_initialized true st) InitDiscover
| init_cas_lost st :
    is_image_list_initialized st = true ->
    init_step E st InitEntry st (InitReturned false)
| init_discover st new1 new2 :
    calloc_fresh st new1 ->
    (forall infos, task_dyld_info E = Some infos ->
       calloc_fresh
         (add_image E new1 (dyldImageLoadAddress infos)
            (compute_slide E (dyldImageLoadAddress infos))
            (with_all_image_infos (Some infos)
               (record_dyld_call TaskInfoDyld st)))
         new2) ->
    init_step E st InitDiscover (register_dyld_images E new1 new2 st)
      InitSubscribe
| init_subscribe st :
    init_step E st InitSubscribe (register_for_changes st) (InitReturned true).

Record init_config : Type := mkInitConfig {
  init_state : state;
  init_threads : list init_pc
}.

Inductive init_race_step (E : env) : init_config -> nat -> init_config -> Prop :=
| init_race_thread st ts (i : nat) pc st' pc' :
    ts !! i = Some pc ->
    init_step E st pc st' pc' ->
    init_race_step E (mkInitConfig st ts) i (mkInitConfig st' (<[i := pc']> ts)).

(** The configurations [n] racing callers can reach from program start. *)
Inductive init_race_reachable (E : env) (n : nat) : init_config -> Prop :=
| init_race_start :
    init_race_reachable E n (mkInitConfig initial_state (replicate n InitEntry))
| init_race_next c i c' :
    init_race_reachable E n c -> init_race_step E c i c' ->
    init_race_reachable E n c'.

(** The thread has passed the compare-and-set as its winner. *)
Definition init_won (pc : init_pc) : bool :=
  match pc with
  | InitDiscover | InitSubscribe | InitReturned true => true
  | InitEntry | InitReturned false => false
  end.

(** The calls to the loader a winner at [pc] has made so far. *)
Definition init_calls_made (pc : init_pc) : list dyld_call :=
  match pc with
  | InitSubscribe => [TaskInfoDyld]
  | InitReturned true =>
      [TaskInfoDyld; RegisterFuncForAddImage; RegisterFuncForRemoveImage]
  | _ => []
  end.

(** ** Concurrent insertions and traversals

    Threads run [add_image] or a traversal of the list; a step of the
    machine is a step of one thread, and the atomic operations on
    [g_images_tail] and on the [next] links are steps of their own
    (they are sequentially consistent in the source).  The parser's
    stores into the new descriptor are separate steps too, one per
    field, in the order of the source.  The store to [g_self_image],
    which no thread of the machine reads, is taken together with the
    store of the link.  A traversal reads the fields of a descriptor in
    one step; a published descriptor changes in its link only (shown
    below), so reading them one by one would see the same values. *)

(** The number of stores [ksdl_getBinaryImageForHeader] makes into the
    buffer: header, vmAddress, size, name, uuid, slide, unloaded,
    cpuType, cpuSubType, the version triple, the four crash-info fields
    (a field [getCrashInfo] leaves alone keeps its zero), and next. *)
Definition field_writes : nat := 17.

(** The zeroed block after the first [k] of these stores, [t] being the
    descriptor the parser is writing. *)
Definition partial_image (k : nat) (t : KSBinaryImage) : KSBinaryImage :=
  let pick {A : Type} (i : nat) (v z : A) : A :=
    if (i <? k)%nat then v else z in
  mkImage (pick 0%nat (header t) 0) (pick 1%nat (vmAddress t) 0)
    (pick 2%nat (size t) 0) (pick 3%nat (name t) None)
    (pick 4%nat (uuid t) 0) (pick 5%nat (slide t) 0)
    (pick 6%nat (unloaded t) false) false
    (pick 7%nat (cpuType t) 0) (pick 8%nat (cpuSubType t) 0)
    (pick 9%nat (majorVersion t) 0) (pick 10%nat (minorVersion t) 0)
    (pick 11%nat (revisionVersion t) 0)
    (pick 12%nat (crashInfoMessage t) 0) (pick 13%nat (crashInfoMessage2 t) 0)
    (pick 14%nat (crashInfoBacktrace t) 0)
    (pick 15%nat (crashInfoSignature t) 0)
    (pick 16%nat (next t) NullImage).

(** What a traversal has seen: each descriptor visited, with the fields
    it read there. *)
Definition observation : Type := image_ptr * KSBinaryImage.

Inductive thread : Type :=
(** [add_image(header, slide)] called *)
| AddEntry (header slide : Z)
(** the parser accepted the header and has made [k] stores into block [a] *)
| AddFill (header a : Z) (target : KSBinaryImage) (k : nat)
(** [atomic_exchange] done; [atomic_store(&oldTail->next, ..)] is next *)
| AddLink (header a : Z) (oldTail : image_ptr)
| AddDone
(** a traversal about to load [g_head_dummy.next] *)
| ReadEntry
(** at the loop test with [img] *)
| ReadAt (img : image_ptr) (seen : list observation)
(** descriptor [img] read; [atomic_load(&img->next)] is next *)
| ReadNext (img : image_ptr) (seen : list observation)
| ReadDone (seen : list observation).

(** One step of one thread: the shared state and the publication
    history before and after.  The history [pub] is not program state;
    it records the blocks in the order of their [atomic_exchange]. *)
Inductive thread_step (E : env) :
  state -> list Z -> thread -> state -> list Z -> thread -> Prop :=
| step_calloc_null st pub h s :
    thread_step E st pub (AddEntry h s) st pub AddDone
| step_refused st pub h s a :
    images st !! a = None ->
    (ksdl_getBinaryImageForHeader E (g_all_image_infos st) h s
       zero_image).1.1 = false ->
    thread_step E st pub (AddEntry h s) st pub AddDone
| step_parsed st pub h s a target errs :
    images st !! a = None ->
    ksdl_getBinaryImageForHeader E (g_all_image_infos st) h s zero_image
      = (true, target, errs) ->
    thread_step E st pub (AddEntry h s)
      (with_images (<[a := zero_image]> (images st)) st) pub
      (AddFill h a target 0)
| step_fill st pub h a target k :
    (k < field_writes)%nat ->
    thread_step E st pub (AddFill h a target k)
      (with_images (<[a := partial_image (S k) target]> (images st)) st) pub
      (AddFill h a target (S k))
| step_exchange st pub h a target :
    thread_step E st pub (AddFill h a target field_writes)
      (with_tail (Alloc a) st) (pub ++ [a])
      (AddLink h a (g_images_tail st))
| step_link st pub h a oldTail :
    thread_step E st pub (AddLink h a oldTail)
      (let st' := update st oldTail (set_next (Alloc a)) in
       if h =? dso_handle E then with_self_image (Alloc a) st' else st')
      pub AddDone
| step_read_head st pub :
    thread_step E st pub ReadEntry st pub (ReadAt (ksdl_get_images st) [])
| step_read_end st pub seen :
    thread_step E st pub (ReadAt NullImage seen) st pub (ReadDone seen)
| step_read_visit st pub img d seen :
    img <> NullImage -> deref st img = Some d ->
    thread_step E st pub (ReadAt img seen) st pub
      (ReadNext img (seen ++ [(img, d)]))
| step_read_next st pub img d seen :
    deref st img = Some d ->
    thread_step E st pub (ReadNext img seen) st pub (ReadAt (next d) seen).

Record config : Type := mkConfig {
  world : state;
  published : list Z;
  threads : list thread
}.

Inductive step (E : env) : config -> nat -> config -> Prop :=
| step_thread st pub ts (i : nat) t st' pub' t' :
    ts !! i = Some t ->
    thread_step E st pub t st' pub' t' ->
    step E (mkConfig st pub ts) i (mkConfig st' pub' (<[i := t']> ts)).

Definition at_entry (t : thread) : Prop :=
  match t with
  | AddEntry _ _ | ReadEntry => True
  | _ => False
  end.

(** The configurations a pool of threads can reach from program start,
    under any interleaving. *)
Inductive conc_reachable (E : env) : config -> Prop :=
| conc_start ts :
    Forall at_entry ts -> conc_reachable E (mkConfig initial_state [] ts)
| conc_next c i c' :
    conc_reachable E c -> step E c i c' -> conc_reachable E c'.

(** What a traversal has seen so far, and how many steps it has made. *)
Definition seen_by (t : thread) : list observation :=
  match t with
  | ReadAt _ seen | ReadNext _ seen | ReadDone seen => seen
  | _ => []
  end.

Definition is_reader (t : thread) : bool :=
  match t with
  | ReadEntry | ReadAt _ _ | ReadNext _ _ | ReadDone _ => true
  | _ => false
  end.

Definition reader_steps (t : thread) : nat :=
  match t with
  | ReadAt _ seen => 1 + 2 * length seen
  | ReadNext _ seen => 2 * length seen
  | ReadDone seen => 2 + 2 * length seen
  | _ => 0
  end.

(** A descriptor as the parser completes it, whatever its link. *)
Definition fully_initialized (E : env) (d : KSBinaryImage) : Prop :=
  exists h s target errs,
    ksdl_getBinaryImageForHeader E None h s zero_image = (true, target, errs)
    /\ same_but_next d target.

(** The [i]-th object of the list whose descriptors are [pub]: the
    sentinel for 0, then the blocks of [pub]. *)
Definition ptr_at (pub : list Z) (i : nat) : image_ptr :=
  match i with
  | O => HeadDummy
  | S j => match pub !! j with
           | Some a => Alloc a
           | None => NullImage
           end
  end.

(** What holds of a traversal in flight: it has seen the first [n]
    published descriptors, each fully initialized, and the pointer it
    holds is null or the next published descriptor. *)
Definition reader_inv (E : env) (pub : list Z) (thr : thread) : Prop :=
  match thr with
  | ReadAt img seen =>
      exists n : nat,
        seen.*1 = (Alloc <$> take n pub) /\ (n <= length pub)%nat /\
        (img = NullImage \/ exists a, pub !! n = Some a /\ img = Alloc a) /\
        Forall (fun o : observation => fully_initialized E o.2) seen
  | ReadNext img seen =>
      exists (n : nat) a,
        pub !! n = Some a /\ img = Alloc a /\
        seen.*1 = (Alloc <$> take (S n) pub) /\
        Forall (fun o : observation => fully_initialized E o.2) seen
  | ReadDone seen =>
      exists n : nat,
        seen.*1 = (Alloc <$> take n pub) /\ (n <= length pub)%nat /\
        Forall (fun o : observation => fully_initialized E o.2) seen
  | _ => True
  end.

(** The invariant of the concurrent machine.  The published blocks are
    distinct and fully initialized; the tail pointer is at the last of
    them; each is linked from its predecessor, or will be by the thread
    that is between its exchange and its store; the last one's link is
    null; a block still being filled is unpublished and owned by one
    thread. *)
Record conc_inv (E : env) (c : config) : Prop := mkConcInv {
  inv_infos : g_all_image_infos (world c) = None;
  inv_nodup : NoDup (published c);
  inv_tail : g_images_tail (world c) = last_ptr (published c);
  inv_link : forall (i : nat) a,
    published c !! i = Some a ->
    exists d, deref (world c) (ptr_at (published c) i) = Some d /\
      (next d = Alloc a \/
       (next d = NullImage /\
        exists (t : nat) h,
          threads c !! t = Some (AddLink h a (ptr_at (published c) i))));
  inv_last : exists d,
    deref (world c) (last_ptr (published c)) = Some d /\ next d = NullImage;
  inv_complete : forall a,
    a ∈ published c ->
    exists d, images (world c) !! a = Some d /\ fully_initialized E d;
  inv_fill : forall (t : nat) h a target k,
    threads c !! t = Some (AddFill h a target k) ->
    (a ∉ published c) /\
    images (world c) !! a = Some (partial_image k target) /\
    (k <= field_writes)%nat /\
    exists s errs,
      ksdl_getBinaryImageForHeader E None h s zero_image
        = (true, target, errs);
  inv_owner : forall (t t' : nat) h a target k h' target' k',
    threads c !! t = Some (AddFill h a target k) ->
    threads c !! t' = Some (AddFill h' a target' k') -> t = t';
  inv_linker : forall (t : nat) h a old,
    threads c !! t = Some (AddLink h a old) ->
    exists i : nat, published c !! i = Some a /\ old = ptr_at (published c) i;
  inv_reader : forall (t : nat) thr,
    threads c !! t = Some thr -> reader_inv E (published c) thr
}.

(** One for a thread that has done its [atomic_exchange]. *)
Definition published_count (t : thread) : nat :=
  match t with
  | AddLink _ _ _ | AddDone => 1
  | _ => 0
  end.

(** A run of the machine under a given schedule: the threads that step,
    in order. *)
Inductive conc_run (E : env) : config -> list nat -> config -> Prop :=
| conc_run_nil c : conc_run E c [] c
| conc_run_cons c i c' sched c'' :
    step E c i c' -> conc_run E c' sched c'' ->
    conc_run E c (i :: sched) c''.

(** Two insertions and two traversals.  The first insertion runs up to
    and including its exchange, the second runs to its end, the first
    traversal runs, the first insertion stores its link, the second
    traversal runs. *)
Definition sample_pool : list thread :=
  [AddEntry 0x1000 0; AddEntry 0x2000 0; ReadEntry; ReadEntry].

Definition sample_schedule : list nat :=
  replicate 19 0%nat ++ replicate 20 1%nat ++ replicate 2 2%nat
  ++ [0%nat] ++ replicate 6 3%nat.

(** The walk of the command table, on its own. *)
Definition parsed_walk (E : env) (h : Z) : walk :=
  walk_cmds E (header_ncmds E h)
    (mkWalk (ksdl_first_cmd_after_header E h) 0 0 0 0).

(** The library, then the executable, added to the empty registry. *)
Definition sample_state : state :=
  add_image sample_env (Some 200) 0x2000 0
    (add_image sample_env (Some 100) 0x1000 0 initial_state).

(** The invariant of the race: before the compare-and-set succeeds
    nobody has moved; afterwards exactly one thread is the winner, and
    the calls made to the loader are the ones that thread has got to. *)
Definition init_race_inv (c : init_config) : Prop :=
  (is_image_list_initialized (init_state c) = false ->
   init_state c = initial_state /\
   forall (i : nat) pc, init_threads c !! i = Some pc -> pc = InitEntry) /\
  (forall (i j : nat) pi pj,
     init_threads c !! i = Some pi -> init_threads c !! j = Some pj ->
     init_won pi = true -> init_won pj = true -> i = j) /\
  (forall (i : nat) pc,
     init_threads c !! i = Some pc -> init_won pc = true ->
     is_image_list_initialized (init_state c) = true /\
     dyld_calls (init_state c) = init_calls_made pc) /\
  (is_image_list_initialized (init_state c) = true ->
   exists (i : nat) pc, init_threads c !! i = Some pc /\ init_won pc = true).

(** ** The rest of the query surface and the test hooks *)

(** The loop of [ksdl_imageUUID] over the load commands: the uuid of the
    first [LC_UUID] command, null when the [n] commands hold none. *)
Fixpoint imageUUID_loop (E : env) (n : nat) (p : Z) : Z :=
  match n with
  | O => 0
  | S k =>
      if load32 (mem E) (p + off_cmd) =? LC_UUID then p + off_uuid
      else imageUUID_loop E k (wrap64 (p + load32 (mem E) (p + off_cmdsize)))
  end.

(** [ksdl_imageUUID]; the result is the pointer to the 16 bytes, 0 for
    null, and [None] when the search for the image runs out of fuel. *)
Definition ksdl_imageUUID (E : env) (fuel : nat) (st : state)
    (imageName : option string) (exactMatch : bool) : option Z :=
  match imageName with
  | None => Some 0
  | Some _ =>
      match ksdl_imageNamed fuel st imageName exactMatch with
      | None => None
      | Some NullImage => Some 0
      | Some img =>
          match deref st img with
          | None => None
          | Some d =>
              if header d =? 0 then Some 0
              else
                let cmdPtr0 := ksdl_first_cmd_after_header E (header d) in
                if cmdPtr0 =? 0 then Some 0
                else Some (imageUUID_loop E (header_ncmds E (header d)) cmdPtr0)
          end
      end
  end.

(** The loop of [ksdl_get_main_image], by the number of iterations
    left.  The test reads [filetype] through the descriptor's header
    pointer whatever the unloaded flag says; a null header, which C could
    not read through, does not occur in a registered descriptor. *)
Fixpoint main_image_loop (E : env) (fuel : nat) (st : state)
    (img : image_ptr) : option image_ptr :=
  match fuel with
  | O => None
  | S k =>
      match img with
      | NullImage => Some NullImage
      | _ =>
          match deref st img with
          | None => None
          | Some d =>
              if load32 (mem E) (header d + off_filetype) =? MH_EXECUTE
              then Some img
              else main_image_loop E k st (next d)
          end
      end
  end.

Definition ksdl_get_main_image (E : env) (fuel : nat)
    (st : state) : option image_ptr :=
  main_image_loop E fuel st (ksdl_get_images st).

Definition ksdl_get_self_image (st : state) : image_ptr := g_self_image st.

(** The first loop of [ksdl_test_support_mach_headers_reset]: each
    descriptor's link is read and the descriptor freed.  Freeing the
    static sentinel or a block that is not allocated has no defined
    behaviour: [None]. *)
Fixpoint reset_free_loop (fuel : nat) (img : image_ptr)
    (st : state) : option state :=
  match fuel with
  | O => None
  | S k =>
      match img with
      | NullImage => Some st
      | HeadDummy => None
      | Alloc a =>
          match images st !! a with
          | None => None
          | Some d =>
              reset_free_loop k (next d)
                (with_images (delete a (images st)) st)
          end
      end
  end.

Definition ksdl_test_support_mach_headers_reset (fuel : nat)
    (st : state) : option state :=
  match reset_free_loop fuel (ksdl_get_images st) st with
  | None => None
  | Some st1 =>
      Some (with_initialized false
              (with_self_image NullImage
                 (with_tail HeadDummy
                    (update st1 HeadDummy (set_next NullImage)))))
  end.

Definition ksdl_test_support_mach_headers_add_image (E : env)
    (newImage : option Z) (header slide : Z) (st : state) : state :=
  add_image E newImage header slide st.

Definition ksdl_test_support_mach_headers_remove_image (E : env)
    (fuel : nat) (header slide : Z) (st : state) : option state :=
  remove_image E fuel header slide st.

(** ** Load commands by kind *)

(** The test both segment cases of the walk apply: a segment command,
    32-bit or 64-bit, named [SEG_TEXT]. *)
Definition is_text_segment (E : env) (p : Z) : bool :=
  ((load32 (mem E) (p + off_cmd) =? LC_SEGMENT)
   || (load32 (mem E) (p + off_cmd) =? LC_SEGMENT_64))
  && strcmp_mem_eq (mem E) (p + off_segname) SEG_TEXT.

(** [vmaddr] and [vmsize] of the segment command at [p], read with the
    layout its [cmd] selects. *)
Definition segment_vmaddr (E : env) (p : Z) : Z :=
  if load32 (mem E) (p + off_cmd) =? LC_SEGMENT
  then load32 (mem E) (p + off_seg_vmaddr)
  else load64 (mem E) (p + off_seg64_vmaddr).

Definition segment_vmsize (E : env) (p : Z) : Z :=
  if load32 (mem E) (p + off_cmd) =? LC_SEGMENT
  then load32 (mem E) (p + off_seg_vmsize)
  else load64 (mem E) (p + off_seg64_vmsize).

Definition is_uuid_cmd (E : env) (p : Z) : bool :=
  load32 (mem E) (p + off_cmd) =? LC_UUID.

(** The TEXT segment commands and the uuid commands of an image, in
    table order. *)
Definition text_segment_cmds (E : env) (header : Z) : list Z :=
  filter (fun p => is_text_segment E p = true)
    (cmd_ptrs E (header_ncmds E header) (ksdl_first_cmd_after_header E header)).

Definition uuid_cmds (E : env) (header : Z) : list Z :=
  filter (fun p => is_uuid_cmd E p = true)
    (cmd_ptrs E (header_ncmds E header) (ksdl_first_cmd_after_header E header)).

(** The test [ksdl_get_main_image] applies to a descriptor: the
    [filetype] of the header it points to. *)
Definition is_executable (E : env) (d : KSBinaryImage) : bool :=
  load32 (mem E) (header d + off_filetype) =? MH_EXECUTE.

(** The last descriptor of [l] whose header is [h], as a pointer. *)
Definition last_with_header (st : state) (l : list Z) (h : Z) : image_ptr :=
  match last (filter (fun a => header <$> images st !! a = Some h) l) with
  | Some a => Alloc a
  | None => NullImage
  end.

(** The state [ksdl_test_support_mach_headers_reset] leaves: no
    descriptor, the sentinel's link cleared, the tail at the sentinel, no
    self image, the initialisation flag down; the loader bookkeeping and
    the calls made to the loader are as before. *)
Definition reset_state (st : state) : state :=
  mkState ∅ (set_next NullImage (g_head_dummy st)) HeadDummy NullImage false
    (g_all_image_infos st) (dyld_calls st).

(** ** A loader image without load commands

    A 64-bit header at [0x5000] with no load command, which the loader
    bookkeeping names as the dynamic loader's own image; [dladdr] knows
    no image here. *)
Definition sample_bare_bytes : list Z :=
  le32 MH_MAGIC_64 ++ le32 0x0100000c ++ le32 0 ++ le32 7 ++ le32 0
  ++ le32 0 ++ le32 0 ++ le32 0.

Definition sample_bare_mem : memory := fun a =>
  match bytes_at 0x5000 sample_bare_bytes a with
  | Some b => b
  | None => sample_mem a
  end.

Definition sample_dyld_infos : dyld_all_image_infos := {|
  dyldImageLoadAddress := 0x5000;
  dyldPath := Some "/usr/lib/dyld"%string;
  infoArray := None
|}.

Definition sample_dyld_env : env := {|
  mem := sample_bare_mem;
  readable := sample_readable;
  dladdr_fname := fun _ => None;
  getsectiondata := fun _ _ _ => (0, 0);
  task_dyld_info := Some sample_dyld_infos;
  TARGET_OS_SIMULATOR := false;
  dso_handle := 0x2000
|}.

(** The registry after the first call of
    [ksdl_binary_images_initialize] in that environment. *)
Definition sample_dyld_state : state :=
  ksdl_binary_images_initialize sample_dyld_env (Some 100) None initial_state.

(** The same memory on a simulator build: the bookkeeping also lists
    the simulator's loader, which is the library at [0x1000]. *)
Definition sample_sim_infos : dyld_all_image_infos := {|
  dyldImageLoadAddress := 0x5000;
  dyldPath := Some "/usr/lib/dyld"%string;
  infoArray := Some (0x1000, "/Runtime/usr/lib/dyld_sim"%string)
|}.

Definition sample_sim_env : env := {|
  mem := sample_bare_mem;
  readable := sample_readable;
  dladdr_fname := fun _ => None;
  getsectiondata := fun _ _ _ => (0, 0);
  task_dyld_info := Some sample_sim_infos;
  TARGET_OS_SIMULATOR := true;
  dso_handle := 0x2000
|}.

(** ** Initialisation together with the loader's callbacks

    [_dyld_register_func_for_add_image] is the loader's: as the comment
    in [register_for_changes] says, it calls the function registered once
    for each image that is already loaded, before it returns.  [loaded]
    lists these images with the block [calloc] returns for each. *)
Definition dyld_add_callbacks (E : env) (loaded : list (option Z * Z * Z))
    (st : state) : state :=
  foldl (fun s '(newImage, h, sl) => add_image E newImage h sl s) st loaded.

Definition register_for_changes_with_callbacks (E : env)
    (loaded : list (option Z * Z * Z)) (st : state) : state :=
  record_dyld_call RegisterFuncForRemoveImage
    (dyld_add_callbacks E loaded
       (record_dyld_call RegisterFuncForAddImage st)).

Definition initialize_with_dyld_callbacks (E : env) (new1 new2 : option Z)
    (loaded : list (option Z * Z * Z)) (st : state) : state :=
  if is_image_list_initialized st then st
  else
    register_for_changes_with_callbacks E loaded
      (register_dyld_images E new1 new2 (with_initialized true st)).

(** The callbacks as calls. *)
Definition callback_calls (loaded : list (option Z * Z * Z)) : list call :=
  map (fun '(newImage, h, sl) => CallAddImage newImage h sl) loaded.

(** ** An image whose range runs past the end of the address space

    A 64-bit image at [0x1000] whose TEXT segment declares the size
    [2^64 - 1]. *)
Definition sample_wrap_bytes : list Z :=
  le32 MH_MAGIC_64 ++ le32 0x0100000c ++ le32 0 ++ le32 6 ++ le32 1
  ++ le32 72 ++ le32 0 ++ le32 0
  ++ le32 LC_SEGMENT_64 ++ le32 72 ++ segname16 SEG_TEXT ++ le64 0x1000
  ++ le64 0xffffffffffffffff ++ le64 0 ++ le64 0x400 ++ le32 5 ++ le32 5
  ++ le32 0 ++ le32 0.

Definition sample_wrap_env : env := {|
  mem := fun a => match bytes_at 0x1000 sample_wrap_bytes a with
                  | Some b => b
                  | None => x00
                  end;
  readable := fun _ => false;
  dladdr_fname := fun h =>
    if h =? 0x1000 then Some "/usr/lib/libwide.dylib"%string else None;
  getsectiondata := fun _ _ _ => (0, 0);
  task_dyld_info := None;
  TARGET_OS_SIMULATOR := false;
  dso_handle := 0x2000
|}.

Definition sample_wrap_state : state :=
  add_image sample_wrap_env (Some 100) 0x1000 0 initial_state.

(** ** Calls, taken apart

    What a call does to the registry is a sequence of three kinds of
    change: one [add_image], one marking pass of [remove_image], or a
    change to the globals that the list does not involve. *)
Inductive prim_step (E : env) : state -> state -> Prop :=
| prim_add newImage h s st :
    calloc_fresh st newImage ->
    prim_step E st (add_image E newImage h s st)
| prim_mark vm st :
    prim_step E st (with_images (mark_unloaded vm <$> images st) st)
| prim_frame st st' :
    images st' = images st -> g_head_dummy st' = g_head_dummy st ->
    g_images_tail st' = g_images_tail st ->
    g_self_image st' = g_self_image st ->
    prim_step E st st'.

(** [d] is what the parser makes of the header it names, up to the link
    and the unloaded flag. *)
Definition parsed_from_header (E : env) (d : KSBinaryImage) : Prop :=
  exists g s buf errs,
    ksdl_getBinaryImageForHeader E g (header d) s zero_image
      = (true, buf, errs) /\
    evolves buf d.

(* ===================================================================== *)
(** * Properties *)
(* ===================================================================== *)

(** ** Pointers and updates *)

Lemma deref_update st p f q :
  deref (update st p f) q =
  if decide (p = q) then f <$> deref st q else deref st q.
Proof.
  destruct p as [| |a], q as [| |b]; simpl;
    try rewrite lookup_alter; repeat case_decide;
    try reflexivity; congruence.
Qed.

Lemma mark_unloaded_next vm d : next (mark_unloaded vm d) = next d.
Proof. unfold mark_unloaded. destruct (_ =? _); reflexivity. Qed.

(** ** Linked lists in the heap *)

Lemma linked_ext h h' p l :
  (forall a, a ∈ l -> next <$> (h' !! a) = next <$> (h !! a)) ->
  linked h p l -> linked h' p l.
Proof.
  revert p. induction l as [|a l IH]; intros p Hag; simpl; [tauto|].
  intros [-> (d & Hd & Hl)]. split; [reflexivity|].
  pose proof (Hag a ltac:(left)) as Ha. rewrite Hd in Ha. simpl in Ha.
  destruct (h' !! a) as [d'|] eqn:Hd'; simpl in Ha; [|discriminate].
  exists d'. split; [reflexivity|]. injection Ha as Ha. rewrite Ha.
  apply IH; [|exact Hl]. intros b Hb. apply Hag. now right.
Qed.

Lemma linked_last_null h p l a :
  linked h p l -> last l = Some a ->
  exists d, h !! a = Some d /\ next d = NullImage.
Proof.
  revert p. induction l as [|x l IH]; intros p; simpl; [discriminate|].
  intros [-> (d & Hd & Hl)] Hlast. destruct l as [|y l'].
  - simpl in Hlast. injection Hlast as <-. exists d. split; [exact Hd|exact Hl].
  - apply (IH (next d)); [exact Hl|exact Hlast].
Qed.

Lemma linked_snoc h p l a dnew :
  l <> [] -> NoDup l -> a ∉ l -> next dnew = NullImage ->
  linked h p l ->
  forall b, last l = Some b ->
  linked (alter (set_next (Alloc a)) b (<[a := dnew]> h)) p (l ++ [a]).
Proof.
  intros _ Hnd Ha Hnew. revert p. induction l as [|x l IH]; intros p Hl b Hlast.
  - discriminate.
  - destruct Hl as [-> (d & Hd & Hl)]. apply NoDup_cons in Hnd as [Hx Hnd].
    assert (Hxa : x <> a) by (intros ->; apply Ha; left).
    assert (Ha' : a ∉ l) by (intros H; apply Ha; now right).
    destruct l as [|y l'].
    + simpl in Hlast. injection Hlast as <-. simpl in Hl. simpl.
      split; [reflexivity|]. exists (set_next (Alloc a) d). split.
      * rewrite lookup_alter. rewrite decide_True by reflexivity.
        rewrite lookup_insert_ne by congruence. now rewrite Hd.
      * simpl. split; [reflexivity|]. exists dnew. split; [|exact Hnew].
        rewrite lookup_alter. rewrite decide_False by congruence.
        apply lookup_insert_eq.
    + assert (Hlast' : last (y :: l') = Some b) by exact Hlast.
      assert (Hbx : b <> x).
      { intros ->. apply Hx. apply last_Some_elem_of in Hlast'. exact Hlast'. }
      change ((x :: y :: l') ++ [a]) with (x :: ((y :: l') ++ [a])).
      split; [reflexivity|]. exists d. split.
      * rewrite lookup_alter. rewrite decide_False by congruence.
        rewrite lookup_insert_ne by congruence. exact Hd.
      * apply IH; assumption.
Qed.

(** ** The parser: what it leaves in the buffer *)

(** [getCrashInfo] writes nothing but the four crash-info fields. *)
Lemma getCrashInfo_other_fields E b :
  let b' := getCrashInfo E b in
  header b' = header b /\ vmAddress b' = vmAddress b /\ size b' = size b /\
  name b' = name b /\ uuid b' = uuid b /\ slide b' = slide b /\
  unloaded b' = unloaded b /\ inCrashReport b' = inCrashReport b /\
  cpuType b' = cpuType b /\ cpuSubType b' = cpuSubType b /\
  majorVersion b' = majorVersion b /\ minorVersion b' = minorVersion b /\
  revisionVersion b' = revisionVersion b /\ next b' = next b.
Proof.
  unfold getCrashInfo. destruct (getsectiondata E _ _ _) as [crashInfo sz].
  repeat match goal with
         | |- context [if ?c then _ else _] => destruct c
         end; simpl; repeat split; reflexivity.
Qed.

Lemma parse_result E g h s buf :
  ksdl_getBinaryImageForHeader E g h s buf =
  match ksdl_first_cmd_after_header E h =? 0, get_path E g h with
  | true, _ => (false, buf, [])
  | false, None => (false, buf, [ErrNoName h])
  | false, Some imageName =>
      let w := walk_cmds E (header_ncmds E h)
                 (mkWalk (ksdl_first_cmd_after_header E h) 0 0 0 0) in
      (true,
       set_next NullImage
         (getCrashInfo E
            (mkImage h (imageVmAddr w) (imageSize w) (Some imageName)
               (uuid_ptr w) s false (inCrashReport buf)
               (sint32 (load32 (mem E) (h + off_cputype)))
               (sint32 (load32 (mem E) (h + off_cpusubtype)))
               (Z.shiftr (version w) 16)
               (Z.land (Z.shiftr (version w) 8) 0xff)
               (Z.land (version w) 0xff)
               (crashInfoMessage buf) (crashInfoMessage2 buf)
               (crashInfoBacktrace buf) (crashInfoSignature buf) (next buf))),
       if wrap64 (wrap64 (imageVmAddr w) + wrap64 s) =? h
       then [] else [ErrHeaderMismatch imageName])
  end.
Proof.
  unfold ksdl_getBinaryImageForHeader.
  destruct (ksdl_first_cmd_after_header E h =? 0); [reflexivity|].
  destruct (get_path E g h); reflexivity.
Qed.

Lemma parse_ok_fields E g h s buf d errs :
  ksdl_getBinaryImageForHeader E g h s buf = (true, d, errs) ->
  header d = h /\ vmAddress d = imageVmAddr (parsed_walk E h) /\
  size d = imageSize (parsed_walk E h) /\ name d = get_path E g h /\
  uuid d = uuid_ptr (parsed_walk E h) /\ slide d = s /\
  unloaded d = false /\ inCrashReport d = inCrashReport buf /\
  next d = NullImage /\ is_Some (get_path E g h) /\
  ksdl_first_cmd_after_header E h <> 0.
Proof.
  rewrite parse_result.
  destruct (ksdl_first_cmd_after_header E h =? 0) eqn:Hc; [discriminate|].
  destruct (get_path E g h) as [n|] eqn:Hn; [|discriminate].
  cbv zeta. intros H. injection H as <- _.
  match goal with
  | |- context [getCrashInfo E ?b] =>
      pose proof (getCrashInfo_other_fields E b) as Hf
  end.
  cbv zeta in Hf. simpl in Hf.
  destruct Hf as (H1 & H2 & H3 & H4 & H5 & H6 & H7 & H8 & _).
  simpl. unfold parsed_walk.
  repeat split; try assumption; try (eexists; reflexivity).
  apply Z.eqb_neq. exact Hc.
Qed.

(** ** [add_image] *)

(** A failed [calloc] or a refused header leaves the state as it was. *)
Lemma add_image_no_effect E newImage h s st :
  calloc_fresh st newImage ->
  (newImage = None \/
   (ksdl_getBinaryImageForHeader E (g_all_image_infos st) h s
      zero_image).1.1 = false) ->
  add_image E newImage h s st = st.
Proof.
  intros Hfresh Hcase. destruct newImage as [a|]; [|reflexivity].
  destruct Hcase as [Hcase|Hcase]; [discriminate|].
  unfold add_image. simpl in *.
  destruct (ksdl_getBinaryImageForHeader E (g_all_image_infos st) h s
              zero_image) as [[ok buf] errs].
  simpl in Hcase. subst ok. simpl.
  rewrite delete_insert_id by exact Hfresh. destruct st; reflexivity.
Qed.

Lemma last_ptr_snoc l a : last_ptr (l ++ [a]) = Alloc a.
Proof. unfold last_ptr. now rewrite last_snoc. Qed.

(** A successful [add_image] appends the new descriptor. *)
Lemma add_image_success E a h s st l buf errs :
  registry_list st l ->
  images st !! a = None ->
  ksdl_getBinaryImageForHeader E (g_all_image_infos st) h s zero_image
    = (true, buf, errs) ->
  let st' := add_image E (Some a) h s st in
  registry_list st' (l ++ [a]) /\
  images st' !! a = Some buf /\
  (forall b d, images st !! b = Some d ->
     exists d', images st' !! b = Some d' /\
       d' = (if decide (last l = Some b) then set_next (Alloc a) d else d)) /\
  g_all_image_infos st' = g_all_image_infos st /\
  is_image_list_initialized st' = is_image_list_initialized st /\
  dyld_calls st' = dyld_calls st.
Proof.
  intros (Hnd & Hl & Htail & Hdom) Hfresh Hparse.
  pose proof (parse_ok_fields _ _ _ _ _ _ _ Hparse) as Hbuf.
  destruct Hbuf as (_ & _ & _ & _ & _ & _ & _ & _ & Hnext & _).
  assert (Hal : a ∉ l) by (intros Hin; apply Hdom in Hin as [? ?]; congruence).
  unfold add_image.
  change (g_all_image_infos (with_images _ st)) with (g_all_image_infos st).
  rewrite Hparse. cbn [negb]. cbv zeta.
  set (st2 := with_images _ (with_images _ st)).
  assert (Hst2 : images st2 = <[a := buf]> (images st)).
  { unfold st2. simpl. apply insert_insert_eq. }
  assert (Hhd2 : g_head_dummy st2 = g_head_dummy st) by reflexivity.
  assert (Hg2 : g_all_image_infos st2 = g_all_image_infos st) by reflexivity.
  assert (Hi2 : is_image_list_initialized st2 = is_image_list_initialized st)
    by reflexivity.
  assert (Hc2 : dyld_calls st2 = dyld_calls st) by reflexivity.
  change (g_images_tail st2) with (g_images_tail st). rewrite Htail.
  clearbody st2.
  set (st4 := update (with_tail (Alloc a) st2) (last_ptr l) (set_next (Alloc a))).
  assert (Hgoal :
    registry_list st4 (l ++ [a]) /\ images st4 !! a = Some buf /\
    (forall b d, images st !! b = Some d ->
       exists d', images st4 !! b = Some d' /\
         d' = (if decide (last l = Some b) then set_next (Alloc a) d else d)) /\
    g_all_image_infos st4 = g_all_image_infos st /\
    is_image_list_initialized st4 = is_image_list_initialized st /\
    dyld_calls st4 = dyld_calls st).
  { unfold st4, last_ptr. destruct (last l) as [b|] eqn:Hlast.
    - (* the old tail is a descriptor *)
      assert (Hbl : b ∈ l) by (eapply last_Some_elem_of; exact Hlast).
      assert (Hba : b <> a) by congruence.
      unfold registry_list. simpl. rewrite Hst2, Hhd2, Hg2, Hi2, Hc2.
      split_and!; try reflexivity.
      + apply NoDup_app. split_and!; [exact Hnd| |apply NoDup_singleton].
        intros x Hx Hx'. apply list_elem_of_singleton in Hx'. congruence.
      + apply linked_snoc; try assumption. intros ->. discriminate.
      + now rewrite last_ptr_snoc.
      + intros c. rewrite lookup_alter. split.
        * intros [d Hd].
          destruct (decide (c = a)) as [->|Hne];
            [apply elem_of_app; right; now apply list_elem_of_singleton|].
          apply elem_of_app. left.
          case_decide; [subst c; exact Hbl|].
          rewrite lookup_insert_ne in Hd by congruence. apply Hdom. eauto.
        * intros Hin. apply elem_of_app in Hin as [Hin|Hin].
          -- pose proof Hin as Hin'. apply Hdom in Hin' as [d Hd].
             assert (c <> a) by congruence.
             case_decide; [subst c|];
               rewrite lookup_insert_ne by congruence; rewrite Hd; simpl; eauto.
          -- apply list_elem_of_singleton in Hin. subst c.
             rewrite decide_False by congruence.
             rewrite lookup_insert_eq. eauto.
      + rewrite lookup_alter. rewrite decide_False by congruence.
        apply lookup_insert_eq.
      + intros c d Hd. rewrite lookup_alter.
        assert (c <> a) by congruence.
        destruct (decide (b = c)) as [->|Hne];
          rewrite lookup_insert_ne by congruence; rewrite Hd.
        * rewrite decide_True by reflexivity. simpl. eauto.
        * rewrite decide_False by congruence. eauto.
    - (* the old tail is the sentinel *)
      apply last_None in Hlast. subst l. simpl in Hl.
      unfold registry_list. simpl. rewrite ?Hst2, ?Hhd2, ?Hg2, ?Hi2, ?Hc2.
      split_and!; try reflexivity.
      + apply NoDup_singleton.
      + exists buf. split; [apply lookup_insert_eq|exact Hnext].
      + intros c. split.
        * intros [d Hd].
          destruct (decide (c = a)) as [->|Hne];
            [now apply list_elem_of_singleton|].
          rewrite lookup_insert_ne in Hd by congruence.
          exfalso. assert (Hin : c ∈ ([] : list Z)) by (apply Hdom; eauto).
          inversion Hin.
        * intros Hin. apply list_elem_of_singleton in Hin. subst c.
          rewrite lookup_insert_eq. eauto.
      + apply lookup_insert_eq.
      + intros c d Hd. exfalso.
        assert (Hin : c ∈ ([] : list Z)) by (apply Hdom; eauto). inversion Hin. }
  destruct (h =? dso_handle E); exact Hgoal.
Qed.

(** Whatever [calloc] and the parser do, [add_image] keeps the registry
    well formed; the list grows by the new block exactly when both
    succeed. *)
Lemma add_image_registry E newImage h s st l :
  registry_list st l -> calloc_fresh st newImage ->
  exists l', registry_list (add_image E newImage h s st) l' /\
    (l' = l \/ exists a, newImage = Some a /\ l' = l ++ [a]).
Proof.
  intros Hreg Hfresh.
  destruct newImage as [a|].
  - destruct (ksdl_getBinaryImageForHeader E (g_all_image_infos st) h s
                zero_image) as [[ok buf] errs] eqn:Hparse.
    destruct ok.
    + exists (l ++ [a]). split; [|right; eauto].
      eapply add_image_success; eassumption.
    + exists l. split; [|now left].
      rewrite add_image_no_effect; [exact Hreg|exact Hfresh|].
      right. now rewrite Hparse.
  - exists l. split; [exact Hreg|now left].
Qed.

Lemma add_image_globals E newImage h s st :
  g_all_image_infos (add_image E newImage h s st) = g_all_image_infos st /\
  is_image_list_initialized (add_image E newImage h s st)
    = is_image_list_initialized st /\
  dyld_calls (add_image E newImage h s st) = dyld_calls st.
Proof.
  unfold add_image. destruct newImage as [a|]; [|auto].
  change (g_all_image_infos (with_images _ st)) with (g_all_image_infos st).
  destruct (ksdl_getBinaryImageForHeader _ _ _ _ _) as [[ok buf] errs].
  destruct ok; cbn [negb]; [|auto]. cbv zeta.
  destruct (h =? dso_handle E);
    destruct (g_images_tail _) as [| |b]; simpl; auto.
Qed.

(** ** [remove_image] *)

Lemma mark_unloaded_idem vm d :
  mark_unloaded vm (mark_unloaded vm d) = mark_unloaded vm d.
Proof.
  unfold mark_unloaded. destruct (vmAddress d =? vm) eqn:Hv; simpl.
  - now rewrite Hv.
  - now rewrite Hv.
Qed.

Lemma remove_image_loop_spec vm ks :
  forall st p fuel,
    linked (images st) p ks -> (length ks < fuel)%nat ->
    exists st',
      remove_image_loop fuel vm p st = Some st' /\
      (forall a, images st' !! a =
         if decide (a ∈ ks) then mark_unloaded vm <$> images st !! a
         else images st !! a) /\
      g_head_dummy st' = g_head_dummy st /\
      g_images_tail st' = g_images_tail st /\
      g_self_image st' = g_self_image st /\
      is_image_list_initialized st' = is_image_list_initialized st /\
      g_all_image_infos st' = g_all_image_infos st /\
      dyld_calls st' = dyld_calls st.
Proof.
  induction ks as [|a ks IH]; intros st p fuel Hl Hfuel.
  - simpl in Hl. subst p. destruct fuel as [|k]; [simpl in Hfuel; lia|].
    exists st. simpl. split_and!; reflexivity.
  - destruct Hl as [-> (d & Hd & Hl)].
    destruct fuel as [|k]; [simpl in Hfuel; lia|].
    simpl in Hfuel. cbn [remove_image_loop deref]. rewrite Hd.
    set (st1 := if vmAddress d =? vm
                then update st (Alloc a) (set_unloaded true) else st).
    assert (Him : forall b, images st1 !! b =
              if decide (a = b) then mark_unloaded vm <$> images st !! b
              else images st !! b).
    { intros b. unfold st1, mark_unloaded.
      destruct (decide (a = b)) as [<-|Hne].
      - rewrite Hd. simpl. destruct (vmAddress d =? vm); [|exact Hd].
        simpl. rewrite lookup_alter, decide_True by reflexivity.
        now rewrite Hd.
      - destruct (vmAddress d =? vm); [|reflexivity].
        simpl. now rewrite lookup_alter, decide_False by congruence. }
    assert (Hoth : g_head_dummy st1 = g_head_dummy st /\
                   g_images_tail st1 = g_images_tail st /\
                   g_self_image st1 = g_self_image st /\
                   is_image_list_initialized st1 = is_image_list_initialized st /\
                   g_all_image_infos st1 = g_all_image_infos st /\
                   dyld_calls st1 = dyld_calls st).
    { unfold st1. destruct (vmAddress d =? vm); simpl; auto 10. }
    clearbody st1.
    destruct (IH st1 (next d) k) as (st' & Hrun & Him' & Hoth'); [|lia|].
    { eapply linked_ext; [|exact Hl]. intros b _. rewrite Him.
      case_decide; [|reflexivity].
      destruct (images st !! b); simpl; [|reflexivity].
      now rewrite mark_unloaded_next. }
    exists st'. split; [exact Hrun|]. split.
    + intros b. rewrite Him', !Him.
      destruct (decide (a = b)) as [<-|Hne].
      * destruct (decide (a ∈ a :: ks)) as [_|Hn]; [|exfalso; apply Hn; left].
        case_decide; [|reflexivity].
        destruct (images st !! a); simpl; [|reflexivity].
        now rewrite mark_unloaded_idem.
      * destruct (decide (b ∈ ks)) as [Hin|Hnin];
          destruct (decide (b ∈ a :: ks)) as [Hin'|Hnin']; try reflexivity.
        -- exfalso. apply Hnin'. now right.
        -- exfalso. apply elem_of_cons in Hin' as [->|Hin']; congruence.
    + destruct Hoth as (<- & <- & <- & <- & <- & <-). exact Hoth'.
Qed.

Lemma registry_size st l :
  registry_list st l -> base.size (images st) = length l.
Proof.
  intros (Hnd & _ & _ & Hdom).
  rewrite <- size_dom.
  assert (Heq : dom (images st) = list_to_set l).
  { apply set_eq. intros a. rewrite elem_of_dom, elem_of_list_to_set.
    apply Hdom. }
  rewrite Heq. now apply size_list_to_set.
Qed.

Lemma fmap_registry_list st l f :
  (forall d, next (f d) = next d) ->
  registry_list st l ->
  registry_list (with_images (f <$> images st) st) l.
Proof.
  intros Hf (Hnd & Hl & Htail & Hdom). unfold registry_list. simpl.
  split_and!; try assumption.
  - eapply linked_ext; [|exact Hl]. intros a _. rewrite lookup_fmap.
    destruct (images st !! a); simpl; [|reflexivity]. now rewrite Hf.
  - intros a. rewrite lookup_fmap, fmap_is_Some. apply Hdom.
Qed.

(** [remove_image] terminates on a well-formed registry; it leaves the
    state alone when the header is refused and otherwise marks every
    descriptor with the re-parsed vmAddress, touching nothing else. *)
Lemma remove_image_spec E fuel h s st l :
  registry_list st l -> (length l < fuel)%nat ->
  remove_image E fuel h s st =
  Some (match ksdl_getBinaryImageForHeader E (g_all_image_infos st) h s
                zero_image with
        | (true, existingImage, _) =>
            with_images
              (mark_unloaded (vmAddress existingImage) <$> images st) st
        | (false, _, _) => st
        end).
Proof.
  intros Hreg Hfuel. unfold remove_image.
  destruct (ksdl_getBinaryImageForHeader _ _ _ _ _) as [[ok buf] errs].
  destruct ok; cbn [negb]; [|reflexivity].
  destruct Hreg as (Hnd & Hl & Htail & Hdom).
  destruct (remove_image_loop_spec (vmAddress buf) l st (ksdl_get_images st)
              fuel Hl Hfuel)
    as (st' & -> & Him & H1 & H2 & H3 & H4 & H5 & H6).
  f_equal. destruct st' as [im hd tl sf ini gi dc]. simpl in *. subst.
  unfold with_images. simpl. f_equal.
  apply map_eq. intros a. rewrite Him, lookup_fmap.
  case_decide as Hin; [reflexivity|].
  destruct (images st !! a) eqn:Ha; [|reflexivity].
  exfalso. apply Hin, Hdom. eauto.
Qed.

(** ** The registry stays well formed *)

Lemma initial_registry : registry_list initial_state [].
Proof.
  unfold registry_list, initial_state. simpl. split_and!; try reflexivity.
  - apply NoDup_nil_2.
  - intros a. rewrite lookup_empty. split.
    + intros [? ?]. discriminate.
    + intros H. inversion H.
Qed.

Lemma registry_list_frame st st' l :
  images st' = images st -> g_head_dummy st' = g_head_dummy st ->
  g_images_tail st' = g_images_tail st ->
  registry_list st l -> registry_list st' l.
Proof. unfold registry_list. intros -> -> ->. tauto. Qed.

Lemma initialize_registry E new1 new2 st l :
  registry_list st l -> call_allowed E st (CallInitialize new1 new2) ->
  exists l', registry_list (ksdl_binary_images_initialize E new1 new2 st) l' /\
    l `prefix_of` l'.
Proof.
  intros Hreg [Hf1 Hf2]. unfold ksdl_binary_images_initialize.
  destruct (is_image_list_initialized st); [exists l; split; [exact Hreg|reflexivity]|].
  unfold register_for_changes, register_dyld_images.
  destruct (task_dyld_info E) as [infos|] eqn:Hinfo.
  - specialize (Hf2 infos eq_refl).
    set (st1 := with_all_image_infos (Some infos)
                  (record_dyld_call TaskInfoDyld (with_initialized true st))) in *.
    assert (Hreg1 : registry_list st1 l)
      by (eapply registry_list_frame; [..|exact Hreg]; reflexivity).
    destruct (add_image_registry E new1 (dyldImageLoadAddress infos)
                (compute_slide E (dyldImageLoadAddress infos)) st1 l Hreg1 Hf1)
      as (l1 & Hreg2 & Hl1).
    assert (Hpre1 : l `prefix_of` l1).
    { destruct Hl1 as [->|(a & _ & ->)]; [reflexivity|now apply prefix_app_r]. }
    set (st2 := add_image E new1 _ _ st1) in *.
    assert (Hcase : forall st3 l3, registry_list st3 l3 -> l `prefix_of` l3 ->
              exists l', registry_list
                (record_dyld_call RegisterFuncForRemoveImage
                   (record_dyld_call RegisterFuncForAddImage st3)) l' /\
                l `prefix_of` l').
    { intros st3 l3 H3 Hp. exists l3. split; [|exact Hp].
      eapply registry_list_frame; [..|exact H3]; reflexivity. }
    destruct (TARGET_OS_SIMULATOR E); [|eapply Hcase; eassumption].
    destruct (infoArray infos) as [[simHeader filePath]|];
      [|eapply Hcase; eassumption].
    destruct (strstr filePath _); [|eapply Hcase; eassumption].
    destruct (add_image_registry E new2 simHeader (compute_slide E simHeader)
                st2 l1 Hreg2 Hf2) as (l2 & Hreg3 & Hl2).
    eapply Hcase; [exact Hreg3|].
    etransitivity; [exact Hpre1|].
    destruct Hl2 as [->|(a & _ & ->)]; [reflexivity|now apply prefix_app_r].
  - exists l. split; [|reflexivity].
    eapply registry_list_frame; [..|exact Hreg]; reflexivity.
Qed.

(** Every call returns on a well-formed registry, and leaves it well
    formed; the descriptors it held stay where they were in the list. *)
Lemma run_call_registry E c st l :
  registry_list st l -> call_allowed E st c ->
  exists st' l', run_call E c st = Some st' /\ registry_list st' l' /\
    l `prefix_of` l'.
Proof.
  intros Hreg Hok. destruct c as [newImage h s|h s|new1 new2]; simpl.
  - destruct (add_image_registry E newImage h s st l Hreg Hok)
      as (l' & Hreg' & Hl').
    exists (add_image E newImage h s st), l'. split_and!; [reflexivity|exact Hreg'|].
    destruct Hl' as [->|(a & _ & ->)]; [reflexivity|now apply prefix_app_r].
  - rewrite (remove_image_spec E _ h s st l Hreg)
      by (rewrite (registry_size st l Hreg); lia).
    eexists _, l. split_and!; [reflexivity| |reflexivity].
    destruct (ksdl_getBinaryImageForHeader _ _ _ _ _) as [[ok buf] errs].
    destruct ok; [|exact Hreg].
    apply fmap_registry_list; [|exact Hreg]. apply mark_unloaded_next.
  - destruct (initialize_registry E new1 new2 st l Hreg Hok) as (l' & H1 & H2).
    eauto.
Qed.

Lemma reachable_registry E st :
  reachable E st -> exists l, registry_list st l.
Proof.
  induction 1 as [|st c st' _ [l Hreg] Hok Hrun].
  - exists []. apply initial_registry.
  - destruct (run_call_registry E c st l Hreg Hok) as (st'' & l' & Hrun' & Hreg' & _).
    rewrite Hrun in Hrun'. injection Hrun' as <-. eauto.
Qed.

(** ** Readers *)

Lemma traverse_from_linked st ks :
  forall p fuel,
    linked (images st) p ks -> (length ks < fuel)%nat ->
    traverse_from fuel st p = Some (Alloc <$> ks).
Proof.
  induction ks as [|a ks IH]; intros p fuel Hl Hfuel;
    (destruct fuel as [|k]; [simpl in Hfuel; lia|]).
  - simpl in Hl. subst p. reflexivity.
  - destruct Hl as [-> (d & Hd & Hl)]. cbn [traverse_from deref]. rewrite Hd.
    rewrite (IH (next d) k Hl) by (simpl in Hfuel; lia). reflexivity.
Qed.

Lemma image_at_address_loop_linked st address ks :
  forall p fuel,
    linked (images st) p ks -> (length ks < fuel)%nat ->
    image_at_address_loop fuel st p address
    = Some (first_match st ks (fun d => contains_address d address)).
Proof.
  induction ks as [|a ks IH]; intros p fuel Hl Hfuel;
    (destruct fuel as [|k]; [simpl in Hfuel; lia|]).
  - simpl in Hl. subst p. reflexivity.
  - destruct Hl as [-> (d & Hd & Hl)].
    cbn [image_at_address_loop deref]. rewrite Hd.
    unfold first_match. cbn [List.find]. rewrite Hd.
    destruct (contains_address d address); [reflexivity|].
    rewrite (IH (next d) k Hl) by (simpl in Hfuel; lia). reflexivity.
Qed.

Lemma imageNamed_loop_linked st imageName exactMatch ks :
  forall p fuel,
    linked (images st) p ks -> (length ks < fuel)%nat ->
    imageNamed_loop fuel st p imageName exactMatch
    = Some (first_match st ks (name_matches imageName exactMatch)).
Proof.
  induction ks as [|a ks IH]; intros p fuel Hl Hfuel;
    (destruct fuel as [|k]; [simpl in Hfuel; lia|]).
  - simpl in Hl. subst p. reflexivity.
  - destruct Hl as [-> (d & Hd & Hl)].
    cbn [imageNamed_loop deref]. rewrite Hd.
    unfold first_match. cbn [List.find]. rewrite Hd.
    destruct (name_matches imageName exactMatch d); [reflexivity|].
    rewrite (IH (next d) k Hl) by (simpl in Hfuel; lia). reflexivity.
Qed.

(** What "the first in insertion order" means for [first_match]. *)
Lemma first_match_spec st l test :
  (first_match st l test = NullImage /\
   forall a d, a ∈ l -> images st !! a = Some d -> test d = false) \/
  (exists (i : nat) a d,
     l !! i = Some a /\ first_match st l test = Alloc a /\
     images st !! a = Some d /\ test d = true /\
     forall (j : nat) b e, (j < i)%nat -> l !! j = Some b ->
       images st !! b = Some e -> test e = false).
Proof.
  unfold first_match. induction l as [|x l IH].
  - left. split; [reflexivity|]. intros a d Ha. inversion Ha.
  - cbn [List.find].
    destruct (images st !! x) as [dx|] eqn:Hx;
      [destruct (test dx) eqn:Htest|].
    + right. exists O, x, dx. split_and!; try reflexivity; try assumption.
      intros j b e Hj. lia.
    + destruct IH as [[Hnull Hall]|(i & a & d & Hi & Hres & Hd & Ht & Hbefore)].
      * left. split; [exact Hnull|]. intros a d Ha Hd.
        apply elem_of_cons in Ha as [->|Ha]; [congruence|eauto].
      * right. exists (S i), a, d. split_and!; try assumption.
        intros [|j] b e Hj Hb He; simpl in Hb.
        -- congruence.
        -- eapply Hbefore; [|exact Hb|exact He]. lia.
    + destruct IH as [[Hnull Hall]|(i & a & d & Hi & Hres & Hd & Ht & Hbefore)].
      * left. split; [exact Hnull|]. intros a d Ha Hd.
        apply elem_of_cons in Ha as [->|Ha]; [congruence|eauto].
      * right. exists (S i), a, d. split_and!; try assumption.
        intros [|j] b e Hj Hb He; simpl in Hb.
        -- congruence.
        -- eapply Hbefore; [|exact Hb|exact He]. lia.
Qed.

Lemma first_match_ext st l test1 test2 :
  (forall a d, a ∈ l -> images st !! a = Some d -> test1 d = test2 d) ->
  first_match st l test1 = first_match st l test2.
Proof.
  unfold first_match. induction l as [|x l IH]; intros Hext; [reflexivity|].
  cbn [List.find].
  destruct (images st !! x) as [dx|] eqn:Hx.
  - rewrite <- (Hext x dx) by (try left; assumption).
    destruct (test1 dx); [reflexivity|].
    apply IH. intros a d Ha. apply Hext. now right.
  - apply IH. intros a d Ha. apply Hext. now right.
Qed.

(** ** Strings *)

Lemma append_nil_l s : ("" ++ s)%string = s.
Proof. reflexivity. Qed.

Lemma append_cons c p s : (String c p ++ s)%string = String c (p ++ s)%string.
Proof. reflexivity. Qed.

Lemma prefix_spec p s :
  String.prefix p s = true <-> exists post, s = (p ++ post)%string.
Proof.
  revert s. induction p as [|c p IH]; intros s.
  - split; [intros _; exists s; reflexivity|]. intros _. now destruct s.
  - destruct s as [|c' s]; simpl.
    + split; [discriminate|]. intros [post H]. discriminate.
    + destruct (ascii_dec c c') as [<-|Hne].
      * rewrite IH.
        split; intros [post H]; exists post; rewrite append_cons in *; congruence.
      * split; [discriminate|]. intros [post H]. rewrite append_cons in H.
        congruence.
Qed.

Lemma strstr_found hay needle :
  (exists k, strstr hay needle = Some k) <-> is_substring needle hay.
Proof.
  induction hay as [|c hay IH].
  - cbn [strstr]. destruct (String.prefix needle "") eqn:Hp.
    + split; [|eauto]. intros _. apply prefix_spec in Hp as [post Hp].
      exists ""%string, post. exact Hp.
    + split; [intros [k H]; discriminate|].
      intros (pre & post & H). exfalso.
      destruct pre; [|discriminate]. rewrite append_nil_l in H.
      assert (String.prefix needle "" = true) by (apply prefix_spec; eauto).
      congruence.
  - cbn [strstr]. destruct (String.prefix needle (String c hay)) eqn:Hp.
    + split; [|eauto]. intros _. apply prefix_spec in Hp as [post Hp].
      exists ""%string, post. exact Hp.
    + split.
      * intros [k H]. destruct (strstr hay needle) as [k'|]; [|discriminate].
        destruct IH as [IH _]. destruct (IH (ex_intro _ k' eq_refl))
          as (pre & post & ->).
        exists (String c pre), post. reflexivity.
      * intros (pre & post & H). destruct pre as [|c' pre].
        -- rewrite append_nil_l in H.
           assert (String.prefix needle (String c hay) = true)
             by (apply prefix_spec; eauto).
           congruence.
        -- rewrite append_cons in H. injection H as _ H.
           destruct IH as [_ IH]. destruct IH as [k Hk].
           { exists pre, post. exact H. }
           rewrite Hk. simpl. eauto.
Qed.

(** The test of the loop is the test of the design document. *)
Lemma name_matches_spec imageName exactMatch d :
  name_matches imageName exactMatch d = true <->
  named_like imageName exactMatch d.
Proof.
  unfold name_matches, named_like. destruct (name d) as [n|].
  - destruct (unloaded d).
    + split; [discriminate|]. intros (n' & _ & H & _). discriminate.
    + destruct exactMatch.
      * unfold strcmp_eq. rewrite String.eqb_eq. split.
        -- intros ->. eauto.
        -- intros (n' & Hn & _ & H). congruence.
      * pose proof (strstr_found n imageName) as Hs.
        destruct (strstr n imageName) as [k|].
        -- split; [|reflexivity]. intros _. exists n.
           split_and!; try reflexivity. apply Hs. eauto.
        -- split; [discriminate|]. intros (n' & Hn & _ & H).
           injection Hn as <-. apply Hs in H as [k H]. discriminate.
  - split; [discriminate|]. intros (n & H & _). discriminate.
Qed.

Lemma name_matches_false imageName exactMatch d :
  name_matches imageName exactMatch d = false <->
  ~ named_like imageName exactMatch d.
Proof.
  rewrite <- name_matches_spec. destruct (name_matches _ _ _); split;
    congruence.
Qed.

(** ** Machine ranges *)

Lemma wrap64_small x : 0 <= x < 2 ^ 64 -> wrap64 x = x.
Proof. intros H. unfold wrap64. now apply Z.mod_small. Qed.

Lemma contains_address_in_range d address :
  0 <= header d + size d < 2 ^ 64 ->
  contains_address d address = in_image_range address d.
Proof.
  intros Hr. unfold contains_address, in_image_range.
  rewrite (wrap64_small _ Hr). destruct (unloaded d); simpl; [reflexivity|].
  f_equal. apply Z.geb_leb.
Qed.

(** ** Sample registry *)

Lemma sample_registry : registry_list sample_state [100; 200].
Proof.
  unfold sample_state.
  eapply (add_image_success sample_env 200 _ _ _ [100]).
  - eapply (add_image_success sample_env 100 _ _ _ []).
    + apply initial_registry.
    + reflexivity.
    + vm_compute. reflexivity.
  - vm_compute. reflexivity.
  - vm_compute. reflexivity.
Qed.

Lemma sample_ranges a d :
  images sample_state !! a = Some d -> 0 <= header d + size d < 2 ^ 64.
Proof.
  intros Hd.
  assert (Hin : a ∈ [100; 200]).
  { apply sample_registry. eauto. }
  apply elem_of_cons in Hin as [->|Hin];
    [|apply list_elem_of_singleton in Hin; subst a];
    vm_compute in Hd; injection Hd as <-; vm_compute; split; congruence.
Qed.

(** ** Lookup by address *)

(** C5, as the code has it.  On a well-formed registry whose
    descriptors have ranges inside the 64-bit address space,
    [ksdl_image_at_address] returns the first descriptor in insertion
    order that is not unloaded and whose half-open range
    [[header, header + size)] holds the address, and null when there is
    none.  A live descriptor with a non-empty range
    contains its own header address; no descriptor contains the address
    one past its end; an unloaded descriptor contains nothing and is
    never returned. *)
Theorem image_at_address_first_in_range st l address fuel :
  registry_list st l ->
  (forall a d, images st !! a = Some d -> 0 <= header d + size d < 2 ^ 64) ->
  (length l < fuel)%nat ->
  ksdl_image_at_address fuel st address
    = Some (first_match st l (in_image_range address)) /\
  (forall a d, images st !! a = Some d -> unloaded d = false -> 0 < size d ->
     contains_address d (header d) = true) /\
  (forall a d, images st !! a = Some d ->
     contains_address d (header d + size d) = false) /\
  (forall a d, images st !! a = Some d -> unloaded d = true ->
     contains_address d address = false /\
     ksdl_image_at_address fuel st address <> Some (Alloc a)).
Proof.
  intros Hreg Hrange Hfuel.
  assert (Hres : ksdl_image_at_address fuel st address
                 = Some (first_match st l (in_image_range address))).
  { unfold ksdl_image_at_address, ksdl_get_images.
    destruct Hreg as (_ & Hl & _ & _).
    rewrite (image_at_address_loop_linked st address l _ fuel Hl Hfuel).
    f_equal. apply first_match_ext. intros a d _ Hd.
    apply contains_address_in_range. eapply Hrange. exact Hd. }
  split_and!.
  - exact Hres.
  - intros a d Hd Hu Hsz. rewrite contains_address_in_range by eauto.
    unfold in_image_range. rewrite Hu. simpl.
    apply andb_true_intro. split; [apply Z.leb_le|apply Z.ltb_lt]; lia.
  - intros a d Hd. rewrite contains_address_in_range by eauto.
    unfold in_image_range. rewrite Z.ltb_irrefl. now rewrite andb_false_r.
  - intros a d Hd Hu. split.
    + unfold contains_address. now rewrite Hu.
    + rewrite Hres. intros Heq. injection Heq as Heq.
      destruct (first_match_spec st l (in_image_range address))
        as [[Hnull _]|(i & a' & d' & _ & Hfm & Hd' & Ht & _)]; [congruence|].
      rewrite Hfm in Heq. injection Heq as ->.
      rewrite Hd in Hd'. injection Hd' as <-.
      unfold in_image_range in Ht. rewrite Hu in Ht. discriminate.
Qed.

Lemma image_at_address_first_in_range_witness :
  ksdl_image_at_address 3 sample_state 0x2000
    = Some (first_match sample_state [100; 200] (in_image_range 0x2000)) /\
  first_match sample_state [100; 200] (in_image_range 0x2000) = Alloc 200.
Proof.
  split.
  - apply (image_at_address_first_in_range sample_state [100; 200] 0x2000 3).
    + apply sample_registry.
    + apply sample_ranges.
    + simpl. lia.
  - vm_compute. reflexivity.
Defined.

(** C5, read for every registry state, fails: the registry reached by
    adding the image of [sample_wrap_env], whose range [[0x1000, 0x1000 +
    (2^64 - 1))] runs past the end of the address space, holds a live
    descriptor whose range contains its own header address in the
    integers, yet the code's sum wraps around to [0xfff] and
    [ksdl_image_at_address] returns null for that address. *)
Lemma image_at_address_misses_wrapping_range :
  reachable sample_wrap_env sample_wrap_state /\
  registry_list sample_wrap_state [100] /\
  first_match sample_wrap_state [100] (in_image_range 0x1000) = Alloc 100 /\
  ksdl_image_at_address 2 sample_wrap_state 0x1000 = Some NullImage /\
  (exists d, images sample_wrap_state !! 100 = Some d /\
     unloaded d = false /\ header d = 0x1000 /\ size d = 2 ^ 64 - 1 /\
     contains_address d (header d) = false) /\
  ~ (ksdl_image_at_address 2 sample_wrap_state 0x1000
     = Some (first_match sample_wrap_state [100] (in_image_range 0x1000))).
Proof.
  assert (Hreach : reachable sample_wrap_env sample_wrap_state).
  { eapply reachable_call with (c := CallAddImage (Some 100) 0x1000 0);
      [apply reachable_initial|vm_compute; reflexivity|reflexivity]. }
  assert (Hfm : first_match sample_wrap_state [100] (in_image_range 0x1000)
                = Alloc 100) by (vm_compute; reflexivity).
  assert (Hnull : ksdl_image_at_address 2 sample_wrap_state 0x1000
                  = Some NullImage) by (vm_compute; reflexivity).
  split; [exact Hreach|]. split.
  - destruct (reachable_registry _ _ Hreach) as [l Hreg].
    assert (Htr : traverse 2 sample_wrap_state = Some [Alloc 100])
      by (vm_compute; reflexivity).
    pose proof Hreg as (_ & Hl & _).
    assert (Hlen : base.size (images sample_wrap_state) = 1%nat)
      by (vm_compute; reflexivity).
    rewrite (registry_size _ _ Hreg) in Hlen.
    unfold traverse, ksdl_get_images in Htr.
    rewrite (traverse_from_linked _ l _ 2 Hl ltac:(lia)) in Htr.
    injection Htr as Htr.
    destruct l as [|x [|y l]]; simpl in Hlen; try lia.
    simpl in Htr. injection Htr as ->. exact Hreg.
  - split; [exact Hfm|]. split; [exact Hnull|]. split.
    + eexists. split; [vm_compute; reflexivity|].
      split_and!; vm_compute; reflexivity.
    + rewrite Hnull, Hfm. discriminate.
Qed.

(** ** Lookup by name *)

(** C6.  On a well-formed registry and for a non-null query,
    [ksdl_imageNamed] returns the first descriptor in insertion order
    that has a name, is not unloaded, and whose name equals the query
    (exact) or contains it as a substring (otherwise); it returns null
    when there is none.  With an exact match asked for, a descriptor
    whose name differs from the query, so also one of which the query is
    a strict substring, is never returned. *)
Theorem imageNamed_first_named_like st l imageName exactMatch fuel :
  registry_list st l ->
  (length l < fuel)%nat ->
  (exists r, ksdl_imageNamed fuel st (Some imageName) exactMatch = Some r /\
     ((r = NullImage /\
       forall a d, a ∈ l -> images st !! a = Some d ->
         ~ named_like imageName exactMatch d) \/
      (exists (i : nat) a d,
         l !! i = Some a /\ r = Alloc a /\ images st !! a = Some d /\
         named_like imageName exactMatch d /\
         forall (j : nat) b e, (j < i)%nat -> l !! j = Some b ->
           images st !! b = Some e -> ~ named_like imageName exactMatch e))) /\
  (forall a d n, images st !! a = Some d -> name d = Some n ->
     n <> imageName ->
     ksdl_imageNamed fuel st (Some imageName) true <> Some (Alloc a)).
Proof.
  intros Hreg Hfuel.
  assert (Hres : forall exact,
            ksdl_imageNamed fuel st (Some imageName) exact
            = Some (first_match st l (name_matches imageName exact))).
  { intros exact. unfold ksdl_imageNamed. destruct Hreg as (_ & Hl & _ & _).
    now apply imageNamed_loop_linked. }
  split.
  - exists (first_match st l (name_matches imageName exactMatch)).
    split; [apply Hres|].
    destruct (first_match_spec st l (name_matches imageName exactMatch))
      as [[Hnull Hall]|(i & a & d & Hi & Hfm & Hd & Ht & Hbefore)].
    + left. split; [exact Hnull|]. intros a d Ha Hd.
      apply name_matches_false. eauto.
    + right. exists i, a, d. split_and!; try assumption.
      * now apply name_matches_spec.
      * intros j b e Hj Hb He. apply name_matches_false. eauto.
  - intros a d n Hd Hn Hne. rewrite Hres. intros Heq. injection Heq as Heq.
    destruct (first_match_spec st l (name_matches imageName true))
      as [[Hnull _]|(i & a' & d' & _ & Hfm & Hd' & Ht & _)]; [congruence|].
    rewrite Hfm in Heq. injection Heq as ->.
    rewrite Hd in Hd'. injection Hd' as <-.
    apply name_matches_spec in Ht as (n' & Hn' & _ & Heq).
    congruence.
Qed.

Lemma imageNamed_first_named_like_witness :
  ksdl_imageNamed 3 sample_state (Some "libfoo"%string) false
    = Some (Alloc 100) /\
  ksdl_imageNamed 3 sample_state (Some "libfoo"%string) true
    <> Some (Alloc 100).
Proof.
  pose proof (imageNamed_first_named_like sample_state [100; 200]
                "libfoo"%string false 3 sample_registry
                ltac:(simpl; lia)) as [_ Hstrict].
  split.
  - vm_compute. reflexivity.
  - eapply (Hstrict 100).
    + vm_compute. reflexivity.
    + reflexivity.
    + discriminate.
Defined.

(** ** Insertion *)

Lemma same_but_next_set_next n d : same_but_next (set_next n d) d.
Proof. reflexivity. Qed.

(** [add_image] changes an existing descriptor in its link at most. *)
Lemma add_image_keeps_descriptors E newImage h s st l b d :
  registry_list st l -> calloc_fresh st newImage ->
  images st !! b = Some d ->
  exists d', images (add_image E newImage h s st) !! b = Some d' /\
    same_but_next d' d.
Proof.
  intros Hreg Hfresh Hd.
  destruct newImage as [a|]; [|exists d; split; [exact Hd|reflexivity]].
  destruct (ksdl_getBinaryImageForHeader E (g_all_image_infos st) h s
              zero_image) as [[ok buf] errs] eqn:Hparse.
  destruct ok.
  - destruct (add_image_success E a h s st l buf errs Hreg Hfresh Hparse)
      as (_ & _ & Hold & _).
    destruct (Hold b d Hd) as (d' & Hd' & Heq). exists d'. split; [exact Hd'|].
    rewrite Heq. case_decide; [apply same_but_next_set_next|reflexivity].
  - rewrite add_image_no_effect; [|exact Hfresh|right; now rewrite Hparse].
    exists d. split; [exact Hd|reflexivity].
Qed.

(** An object whose link is set is left as it is by [add_image]: the
    only link written is that of the old tail, which is null. *)
Lemma add_image_keeps_linked E newImage h s st l p d :
  registry_list st l -> calloc_fresh st newImage ->
  deref st p = Some d -> next d <> NullImage ->
  deref (add_image E newImage h s st) p = Some d.
Proof.
  intros Hreg Hfresh Hd Hnext.
  destruct newImage as [a|]; [|exact Hd].
  destruct (ksdl_getBinaryImageForHeader E (g_all_image_infos st) h s
              zero_image) as [[ok buf] errs] eqn:Hparse.
  destruct ok;
    [|rewrite add_image_no_effect;
      [exact Hd|exact Hfresh|right; now rewrite Hparse]].
  destruct Hreg as (Hnd & Hl & Htail & Hdom). simpl in Hfresh.
  assert (Hpa : p <> Alloc a) by (intros ->; simpl in Hd; congruence).
  assert (Hpt : p <> last_ptr l).
  { intros ->. unfold last_ptr in Hd. destruct (last l) as [b|] eqn:Hlast.
    - destruct (linked_last_null _ _ _ _ Hl Hlast) as (d0 & Hd0 & Hn0).
      simpl in Hd. congruence.
    - apply last_None in Hlast. subst l. simpl in Hl, Hd. congruence. }
  unfold add_image.
  change (g_all_image_infos (with_images _ st)) with (g_all_image_infos st).
  rewrite Hparse. cbn [negb]. cbv zeta.
  set (st2 := with_images _ (with_images _ st)).
  assert (Hd2 : deref st2 p = Some d).
  { destruct p as [| |b]; try exact Hd. unfold st2. simpl.
    rewrite !lookup_insert_ne by congruence. exact Hd. }
  change (g_images_tail st2) with (g_images_tail st). rewrite Htail.
  clearbody st2.
  assert (Hd4 : deref (update (with_tail (Alloc a) st2) (last_ptr l)
                         (set_next (Alloc a))) p = Some d).
  { rewrite deref_update. rewrite decide_False by congruence.
    destruct p; exact Hd2. }
  destruct (h =? dso_handle E); [|exact Hd4].
  destruct p; exact Hd4.
Qed.

Lemma add_images_registry E adds :
  forall st l,
    registry_list st l ->
    NoDup (l ++ adds.*1.*1) ->
    Forall (fun x => (ksdl_getBinaryImageForHeader E (g_all_image_infos st)
                        x.1.2 x.2 zero_image).1.1 = true) adds ->
    registry_list (add_images E adds st) (l ++ adds.*1.*1) /\
    g_all_image_infos (add_images E adds st) = g_all_image_infos st /\
    (forall b d, images st !! b = Some d ->
       exists d', images (add_images E adds st) !! b = Some d' /\
         same_but_next d' d) /\
    (forall (i : nat) a h s, adds !! i = Some (a, h, s) ->
       exists d buf errs,
         images (add_images E adds st) !! a = Some d /\
         ksdl_getBinaryImageForHeader E (g_all_image_infos st) h s zero_image
           = (true, buf, errs) /\
         same_but_next d buf).
Proof.
  induction adds as [|[[a h] s] adds IH]; intros st l Hreg Hnd Hok.
  - simpl. rewrite app_nil_r. split_and!; [exact Hreg|reflexivity| |].
    + intros b d Hd. exists d. split; [exact Hd|reflexivity].
    + intros i a h s Hi. discriminate.
  - apply Forall_cons in Hok as [Hok1 Hok]. simpl in Hok1.
    destruct (ksdl_getBinaryImageForHeader E (g_all_image_infos st) h s
                zero_image) as [[ok buf] errs] eqn:Hparse.
    simpl in Hok1. subst ok.
    assert (Hfresh : images st !! a = None).
    { destruct (images st !! a) eqn:Ha; [|reflexivity]. exfalso.
      apply NoDup_app in Hnd as (_ & Hdisj & _). apply (Hdisj a).
      - apply Hreg. eauto.
      - simpl. left. }
    destruct (add_image_success E a h s st l buf errs Hreg Hfresh Hparse)
      as (Hreg1 & Ha1 & Hold & Hg1 & _).
    set (st1 := add_image E (Some a) h s st) in *.
    assert (Hnd1 : NoDup ((l ++ [a]) ++ adds.*1.*1))
      by (rewrite <- app_assoc; exact Hnd).
    assert (Hok' : Forall (fun x =>
              (ksdl_getBinaryImageForHeader E (g_all_image_infos st1)
                 x.1.2 x.2 zero_image).1.1 = true) adds)
      by (rewrite Hg1; exact Hok).
    destruct (IH st1 (l ++ [a]) Hreg1 Hnd1 Hok') as (Hreg' & Hg' & Hold' & Hnew').
    change (add_images E ((a, h, s) :: adds) st) with (add_images E adds st1).
    split_and!.
    + change (((a, h, s) :: adds).*1.*1) with (a :: adds.*1.*1).
      rewrite <- app_assoc in Hreg'. exact Hreg'.
    + now rewrite Hg', Hg1.
    + intros b d Hd. destruct (Hold b d Hd) as (d1 & Hd1 & Heq1).
      destruct (Hold' b d1 Hd1) as (d' & Hd' & Heq'). exists d'.
      split; [exact Hd'|]. unfold same_but_next in *. rewrite Heq', Heq1.
      case_decide; reflexivity.
    + intros [|i] a' h' s' Hi; simpl in Hi.
      * injection Hi as <- <- <-. destruct (Hold' a buf Ha1) as (d' & Hd' & Heq').
        exists d', buf, errs. split_and!; [exact Hd'|exact Hparse|exact Heq'].
      * destruct (Hnew' i a' h' s' Hi) as (d & buf' & errs' & H1 & H2 & H3).
        rewrite Hg1 in H2. eauto 10.
Qed.

Lemma same_but_next_fields d d' :
  same_but_next d d' ->
  header d = header d' /\ vmAddress d = vmAddress d' /\ size d = size d' /\
  name d = name d' /\ slide d = slide d' /\ unloaded d = unloaded d'.
Proof.
  unfold same_but_next. intros H.
  split_and!;
    [apply (f_equal header) in H | apply (f_equal vmAddress) in H
    |apply (f_equal size) in H | apply (f_equal name) in H
    |apply (f_equal slide) in H | apply (f_equal unloaded) in H]; exact H.
Qed.

(** No call of normal operation rewrites a link that is set. *)
Lemma run_call_link_stable E c st st' l p d :
  registry_list st l -> call_allowed E st c -> run_call E c st = Some st' ->
  deref st p = Some d -> next d <> NullImage ->
  exists d', deref st' p = Some d' /\ next d' = next d.
Proof.
  intros Hreg Hok Hrun Hd Hnext.
  destruct c as [newImage h s|h s|new1 new2]; simpl in Hrun.
  - injection Hrun as <-. exists d. split; [|reflexivity].
    eapply add_image_keeps_linked; eassumption.
  - rewrite (remove_image_spec E _ h s st l Hreg) in Hrun
      by (rewrite (registry_size st l Hreg); lia).
    injection Hrun as <-.
    destruct (ksdl_getBinaryImageForHeader _ _ _ _ _) as [[ok buf] errs].
    destruct ok; [|eauto].
    destruct p as [| |b]; simpl in *; [discriminate|eauto|].
    rewrite lookup_fmap, Hd. simpl. eexists. split; [reflexivity|].
    apply mark_unloaded_next.
  - injection Hrun as <-. destruct Hok as [Hf1 Hf2].
    unfold ksdl_binary_images_initialize.
    destruct (is_image_list_initialized st); [eauto|].
    unfold register_for_changes, register_dyld_images.
    assert (Hframe : forall st3, deref st3 p = Some d ->
              exists d', deref (record_dyld_call RegisterFuncForRemoveImage
                           (record_dyld_call RegisterFuncForAddImage st3)) p
                         = Some d' /\ next d' = next d).
    { intros st3 H3. exists d. split; [|reflexivity]. destruct p; exact H3. }
    destruct (task_dyld_info E) as [infos|] eqn:Hinfo.
    + specialize (Hf2 infos eq_refl).
      set (st1 := with_all_image_infos (Some infos)
                  (record_dyld_call TaskInfoDyld (with_initialized true st))) in *.
      assert (Hreg1 : registry_list st1 l)
        by (eapply registry_list_frame; [..|exact Hreg]; reflexivity).
      assert (Hd1 : deref st1 p = Some d) by (destruct p; exact Hd).
      pose proof (add_image_keeps_linked E new1 (dyldImageLoadAddress infos)
                    (compute_slide E (dyldImageLoadAddress infos)) st1 l p d
                    Hreg1 Hf1 Hd1 Hnext) as Hd2.
      destruct (add_image_registry E new1 (dyldImageLoadAddress infos)
                  (compute_slide E (dyldImageLoadAddress infos)) st1 l Hreg1 Hf1)
        as (l1 & Hreg2 & _).
      set (st2 := add_image E new1 _ _ st1) in *.
      destruct (TARGET_OS_SIMULATOR E); [|apply Hframe; exact Hd2].
      destruct (infoArray infos) as [[simHeader filePath]|];
        [|apply Hframe; exact Hd2].
      destruct (strstr filePath _); [|apply Hframe; exact Hd2].
      apply Hframe. eapply add_image_keeps_linked; eassumption.
    + apply Hframe. destruct p; exact Hd.
Qed.

(** C3.  [N] successful insertions into an empty registry, whatever the
    headers (distinct or repeated: nothing is de-duplicated), leave
    exactly [N] descriptors, which a traversal from the head visits in
    the order of insertion, each holding what the parser produced for its
    header; and no call of normal operation changes a link that is
    already set. *)
Theorem insertions_append_in_order E st adds :
  registry_list st [] ->
  NoDup adds.*1.*1 ->
  Forall (fun x => (ksdl_getBinaryImageForHeader E (g_all_image_infos st)
                      x.1.2 x.2 zero_image).1.1 = true) adds ->
  let st' := add_images E adds st in
  traverse (S (length adds)) st' = Some (Alloc <$> adds.*1.*1) /\
  base.size (images st') = length adds /\
  (forall (i : nat) a h s, adds !! i = Some (a, h, s) ->
     exists d buf errs,
       images st' !! a = Some d /\ header d = h /\
       ksdl_getBinaryImageForHeader E (g_all_image_infos st) h s zero_image
         = (true, buf, errs) /\
       same_but_next d buf) /\
  (forall s0 c s1 p d,
     reachable E s0 -> call_allowed E s0 c -> run_call E c s0 = Some s1 ->
     deref s0 p = Some d -> next d <> NullImage ->
     exists d', deref s1 p = Some d' /\ next d' = next d).
Proof.
  intros Hreg Hnd Hok st'.
  destruct (add_images_registry E adds st [] Hreg Hnd Hok)
    as (Hreg' & _ & _ & Hnew).
  simpl in Hreg'. fold st' in Hreg', Hnew.
  assert (Hlen : length adds.*1.*1 = length adds)
    by now rewrite !length_fmap.
  split_and!.
  - unfold traverse, ksdl_get_images. destruct Hreg' as (_ & Hl & _ & _).
    apply traverse_from_linked; [exact Hl|]. rewrite Hlen. lia.
  - rewrite (registry_size st' _ Hreg'). exact Hlen.
  - intros i a h s Hi.
    destruct (Hnew i a h s Hi) as (d & buf & errs & Hd & Hparse & Hsame).
    exists d, buf, errs. split_and!; try assumption.
    apply same_but_next_fields in Hsame as (-> & _).
    now apply parse_ok_fields in Hparse as (-> & _).
  - intros s0 c s1 p d Hreach Hallowed Hrun Hd Hnext.
    destruct (reachable_registry E s0 Hreach) as [l0 Hreg0].
    eapply run_call_link_stable; eassumption.
Qed.

(** The same header inserted twice gives two descriptors. *)
Lemma insertions_append_in_order_witness :
  let st' := add_images sample_env [(100, 0x1000, 0); (200, 0x1000, 0)]
               initial_state in
  traverse 3 st' = Some [Alloc 100; Alloc 200] /\
  base.size (images st') = 2%nat.
Proof.
  pose proof (insertions_append_in_order sample_env initial_state
                [(100, 0x1000, 0); (200, 0x1000, 0)]) as H.
  destruct H as (H1 & H2 & _).
  - apply initial_registry.
  - apply NoDup_cons. split; [|apply NoDup_singleton].
    intros Hin. apply list_elem_of_singleton in Hin. discriminate.
  - repeat constructor.
  - split; [exact H1|exact H2].
Defined.

(** ** How descriptors change over time *)

Lemma evolves_refl d : evolves d d.
Proof. split; [reflexivity|tauto]. Qed.

Lemma evolves_trans d1 d2 d3 : evolves d1 d2 -> evolves d2 d3 -> evolves d1 d3.
Proof. intros [H1 H1'] [H2 H2']. split; [congruence|tauto]. Qed.

Lemma same_but_next_evolves d d' : same_but_next d' d -> evolves d d'.
Proof.
  unfold same_but_next. intros H. split.
  - now rewrite H.
  - apply (f_equal unloaded) in H. simpl in H. congruence.
Qed.

Lemma mark_unloaded_evolves vm d : evolves d (mark_unloaded vm d).
Proof.
  unfold mark_unloaded. destruct (vmAddress d =? vm); [|apply evolves_refl].
  split; [reflexivity|]. intros _. reflexivity.
Qed.

Lemma evolves_fields d d' :
  evolves d d' ->
  header d' = header d /\ vmAddress d' = vmAddress d /\ size d' = size d /\
  name d' = name d.
Proof.
  intros [H _].
  split_and!;
    [apply (f_equal header) in H | apply (f_equal vmAddress) in H
    |apply (f_equal size) in H | apply (f_equal name) in H]; exact H.
Qed.

(** What one call does besides keeping the registry well formed: the
    loader bookkeeping is set at most once, and every descriptor stays
    allocated and [evolves]. *)
Lemma run_call_effects E c st st' l :
  registry_list st l -> infos_guarded st ->
  call_allowed E st c -> run_call E c st = Some st' ->
  infos_guarded st' /\
  (g_all_image_infos st = None \/
   g_all_image_infos st' = g_all_image_infos st) /\
  (forall b d, images st !! b = Some d ->
     exists d', images st' !! b = Some d' /\ evolves d d').
Proof.
  intros Hreg Hg Hok Hrun.
  destruct c as [newImage h s|h s|new1 new2]; simpl in Hrun.
  - injection Hrun as <-.
    destruct (add_image_globals E newImage h s st) as (Hg1 & Hi1 & _).
    unfold infos_guarded. rewrite Hg1, Hi1. split_and!; [exact Hg|now right|].
    intros b d Hd.
    destruct (add_image_keeps_descriptors E newImage h s st l b d Hreg Hok Hd)
      as (d' & Hd' & Hs).
    exists d'. split; [exact Hd'|now apply same_but_next_evolves].
  - rewrite (remove_image_spec E _ h s st l Hreg) in Hrun
      by (rewrite (registry_size st l Hreg); lia).
    injection Hrun as <-.
    destruct (ksdl_getBinaryImageForHeader _ _ _ _ _) as [[ok buf] errs].
    destruct ok.
    + split_and!; [exact Hg|now right|]. intros b d Hd. simpl.
      rewrite lookup_fmap, Hd. simpl. eexists. split; [reflexivity|].
      apply mark_unloaded_evolves.
    + split_and!; [exact Hg|now right|]. intros b d Hd.
      exists d. split; [exact Hd|apply evolves_refl].
  - injection Hrun as <-. destruct Hok as [Hf1 Hf2].
    unfold ksdl_binary_images_initialize.
    destruct (is_image_list_initialized st) eqn:Hinit.
    { split_and!; [exact Hg|now right|]. intros b d Hd.
      exists d. split; [exact Hd|apply evolves_refl]. }
    assert (Hgn : g_all_image_infos st = None)
      by (destruct Hg as [Hg|Hg]; [exact Hg|congruence]).
    unfold register_for_changes, register_dyld_images.
    assert (Hframe : forall st3,
              is_image_list_initialized st3 = true ->
              (forall b d, images st !! b = Some d ->
                 exists d', images st3 !! b = Some d' /\ evolves d d') ->
              let st4 := record_dyld_call RegisterFuncForRemoveImage
                           (record_dyld_call RegisterFuncForAddImage st3) in
              infos_guarded st4 /\
              (g_all_image_infos st = None \/
               g_all_image_infos st4 = g_all_image_infos st) /\
              (forall b d, images st !! b = Some d ->
                 exists d', images st4 !! b = Some d' /\ evolves d d')).
    { intros st3 Hi3 Hev3. split_and!; [now right|now left|exact Hev3]. }
    destruct (task_dyld_info E) as [infos|] eqn:Hinfo.
    + specialize (Hf2 infos eq_refl).
      set (st1 := with_all_image_infos (Some infos)
                  (record_dyld_call TaskInfoDyld (with_initialized true st))) in *.
      assert (Hreg1 : registry_list st1 l)
        by (eapply registry_list_frame; [..|exact Hreg]; reflexivity).
      destruct (add_image_registry E new1 (dyldImageLoadAddress infos)
                  (compute_slide E (dyldImageLoadAddress infos)) st1 l Hreg1 Hf1)
        as (l1 & Hreg2 & _).
      destruct (add_image_globals E new1 (dyldImageLoadAddress infos)
                  (compute_slide E (dyldImageLoadAddress infos)) st1)
        as (_ & Hi2 & _).
      assert (Hev2 : forall b d, images st !! b = Some d ->
                exists d', images (add_image E new1 (dyldImageLoadAddress infos)
                  (compute_slide E (dyldImageLoadAddress infos)) st1) !! b
                  = Some d' /\ evolves d d').
      { intros b d Hd.
        destruct (add_image_keeps_descriptors E new1 (dyldImageLoadAddress infos)
                    (compute_slide E (dyldImageLoadAddress infos)) st1 l b d
                    Hreg1 Hf1 Hd) as (d' & Hd' & Hs).
        exists d'. split; [exact Hd'|now apply same_but_next_evolves]. }
      set (st2 := add_image E new1 _ _ st1) in *.
      destruct (TARGET_OS_SIMULATOR E); [|apply Hframe; assumption].
      destruct (infoArray infos) as [[simHeader filePath]|];
        [|apply Hframe; assumption].
      destruct (strstr filePath _); [|apply Hframe; assumption].
      apply Hframe.
      * destruct (add_image_globals E new2 simHeader
                    (compute_slide E simHeader) st2) as (_ & -> & _).
        exact Hi2.
      * intros b d Hd. destruct (Hev2 b d Hd) as (d2 & Hd2 & He2).
        destruct (add_image_keeps_descriptors E new2 simHeader
                    (compute_slide E simHeader) st2 l1 b d2 Hreg2 Hf2 Hd2)
          as (d' & Hd' & Hs).
        exists d'. split; [exact Hd'|].
        eapply evolves_trans; [exact He2|now apply same_but_next_evolves].
    + apply Hframe; [reflexivity|]. intros b d Hd.
      exists d. split; [exact Hd|apply evolves_refl].
Qed.

Lemma run_calls_effects E cs :
  forall st st' l,
    registry_list st l -> infos_guarded st ->
    calls_allowed E cs st -> run_calls E cs st = Some st' ->
    (exists l', registry_list st' l' /\ l `prefix_of` l') /\
    infos_guarded st' /\
    (g_all_image_infos st = None \/
     g_all_image_infos st' = g_all_image_infos st) /\
    (forall b d, images st !! b = Some d ->
       exists d', images st' !! b = Some d' /\ evolves d d').
Proof.
  induction cs as [|c cs IH]; intros st st' l Hreg Hg Hok Hrun.
  - simpl in Hrun. injection Hrun as <-.
    split_and!; [exists l; split; [exact Hreg|reflexivity]|exact Hg|now right|].
    intros b d Hd. exists d. split; [exact Hd|apply evolves_refl].
  - simpl in Hok, Hrun. destruct Hok as [Hok1 Hok].
    destruct (run_call_registry E c st l Hreg Hok1)
      as (st1 & l1 & Hrun1 & Hreg1 & Hpre1).
    rewrite Hrun1 in Hok, Hrun.
    destruct (run_call_effects E c st st1 l Hreg Hg Hok1 Hrun1)
      as (Hg1 & Hmono1 & Hev1).
    destruct (IH st1 st' l1 Hreg1 Hg1 Hok Hrun)
      as ((l' & Hreg' & Hpre') & Hg' & Hmono' & Hev').
    split_and!.
    + exists l'. split; [exact Hreg'|]. etransitivity; eassumption.
    + exact Hg'.
    + destruct Hmono1 as [Hn|He1]; [now left|].
      destruct Hmono' as [Hn|He']; [left; congruence|right; congruence].
    + intros b d Hd. destruct (Hev1 b d Hd) as (d1 & Hd1 & He1).
      destruct (Hev' b d1 Hd1) as (d' & Hd' & He').
      exists d'. split; [exact Hd'|]. eapply evolves_trans; eassumption.
Qed.

Lemma reachable_infos_guarded E st : reachable E st -> infos_guarded st.
Proof.
  induction 1 as [|st c st' Hreach Hg Hok Hrun].
  - now left.
  - destruct (reachable_registry E st Hreach) as [l Hreg].
    now destruct (run_call_effects E c st st' l Hreg Hg Hok Hrun).
Qed.

(** ** Removal *)

Lemma get_path_mono E g g' h n :
  g = None \/ g' = g ->
  get_path E g h = Some n -> get_path E g' h = Some n.
Proof.
  intros [->| ->]; [|tauto]. unfold get_path.
  destruct (dladdr_fname E h); [tauto|discriminate].
Qed.

(** A header the parser accepted is accepted again later, whatever
    the slide, with the same vmAddress. *)
Lemma parse_mono E g g' h s s' buf d errs :
  g = None \/ g' = g ->
  ksdl_getBinaryImageForHeader E g h s buf = (true, d, errs) ->
  exists d' errs',
    ksdl_getBinaryImageForHeader E g' h s' buf = (true, d', errs') /\
    vmAddress d' = vmAddress d.
Proof.
  intros Hg Hparse.
  pose proof (parse_ok_fields _ _ _ _ _ _ _ Hparse)
    as (_ & Hvm & _ & _ & _ & _ & _ & _ & _ & [n Hn] & Hc).
  pose proof (get_path_mono E g g' h n Hg Hn) as Hn'.
  destruct (ksdl_getBinaryImageForHeader E g' h s' buf) as [[ok d'] errs']
    eqn:Hparse'.
  rewrite parse_result in Hparse'.
  apply Z.eqb_neq in Hc. rewrite Hc, Hn' in Hparse'. cbv zeta in Hparse'.
  injection Hparse' as <- Hd' _. exists d', errs'. split; [reflexivity|].
  rewrite Hvm, <- Hd'.
  match goal with
  | |- context [getCrashInfo E ?b] =>
      pose proof (getCrashInfo_other_fields E b) as (_ & Hv & _)
  end.
  simpl. simpl in Hv. exact Hv.
Qed.

Lemma image_at_address_loop_sound fuel :
  forall st p address a,
    image_at_address_loop fuel st p address = Some (Alloc a) ->
    exists d, images st !! a = Some d /\ contains_address d address = true.
Proof.
  induction fuel as [|k IH]; intros st p address a; [discriminate|].
  cbn [image_at_address_loop].
  destruct p as [| |b]; [discriminate| |]; cbn [deref].
  - destruct (contains_address (g_head_dummy st) address); [discriminate|].
    apply IH.
  - destruct (images st !! b) as [d|] eqn:Hd; [|discriminate].
    destruct (contains_address d address) eqn:Hc; [|apply IH].
    intros H. injection H as <-. eauto.
Qed.

(** C2.  After a successful [add_image] of a header and, any allowed
    calls later, a [remove_image] of the same header (with whatever
    slide): the removal returns; the descriptor is still allocated and
    still in the list a full traversal visits, with [unloaded] set;
    [ksdl_image_at_address] returns it for no address; and the removal
    changed neither the list nor the set of allocated descriptors.  The
    memory of the image and the name [dladdr] finds for it are those of
    the environment throughout. *)
Theorem remove_after_add_marks_unloaded E st0 a h s s' cs st2 :
  reachable E st0 ->
  images st0 !! a = None ->
  (ksdl_getBinaryImageForHeader E (g_all_image_infos st0) h s
     zero_image).1.1 = true ->
  calls_allowed E cs (add_image E (Some a) h s st0) ->
  run_calls E cs (add_image E (Some a) h s st0) = Some st2 ->
  exists st3 l,
    run_call E (CallRemoveImage h s') st2 = Some st3 /\
    registry_list st2 l /\ registry_list st3 l /\ a ∈ l /\
    traverse (S (length l)) st3 = Some (Alloc <$> l) /\
    (exists d, images st3 !! a = Some d /\ unloaded d = true /\ header d = h) /\
    (forall fuel address,
       ksdl_image_at_address fuel st3 address <> Some (Alloc a)) /\
    (forall b, is_Some (images st3 !! b) <-> is_Some (images st2 !! b)).
Proof.
  intros Hreach Hfresh Hok Hallowed Hrun.
  destruct (reachable_registry E st0 Hreach) as [l0 Hreg0].
  pose proof (reachable_infos_guarded E st0 Hreach) as Hg0.
  destruct (ksdl_getBinaryImageForHeader E (g_all_image_infos st0) h s
              zero_image) as [[ok buf] errs] eqn:Hparse.
  simpl in Hok. subst ok.
  destruct (add_image_success E a h s st0 l0 buf errs Hreg0 Hfresh Hparse)
    as (Hreg1 & Ha1 & _ & Hg1 & Hi1 & _).
  set (st1 := add_image E (Some a) h s st0) in *.
  assert (Hguard1 : infos_guarded st1)
    by (unfold infos_guarded; rewrite Hg1, Hi1; exact Hg0).
  destruct (run_calls_effects E cs st1 st2 _ Hreg1 Hguard1 Hallowed Hrun)
    as ((l & Hreg2 & Hpre) & Hguard2 & Hmono & Hev).
  destruct (Hev a buf Ha1) as (d2 & Hd2 & Hev2).
  pose proof (evolves_fields _ _ Hev2) as (Hh2 & Hvm2 & _).
  assert (Hmono' : g_all_image_infos st0 = None \/
                   g_all_image_infos st2 = g_all_image_infos st0)
    by (rewrite <- Hg1; exact Hmono).
  destruct (parse_mono E _ _ h s s' zero_image buf errs Hmono' Hparse)
    as (buf' & errs' & Hparse' & Hvm').
  assert (Hst3 : run_call E (CallRemoveImage h s') st2
                 = Some (with_images
                           (mark_unloaded (vmAddress buf) <$> images st2) st2)).
  { simpl. rewrite (remove_image_spec E _ h s' st2 l Hreg2)
      by (rewrite (registry_size st2 l Hreg2); lia).
    now rewrite Hparse', Hvm'. }
  set (st3 := with_images _ st2) in Hst3.
  assert (Hreg3 : registry_list st3 l)
    by (apply fmap_registry_list; [apply mark_unloaded_next|exact Hreg2]).
  assert (Hd3 : images st3 !! a = Some (set_unloaded true d2)).
  { unfold st3. simpl. rewrite lookup_fmap, Hd2. simpl.
    unfold mark_unloaded. now rewrite Hvm2, Z.eqb_refl. }
  exists st3, l. split_and!; try assumption.
  - apply Hreg2. eauto.
  - unfold traverse, ksdl_get_images. destruct Hreg3 as (_ & Hl3 & _ & _).
    apply traverse_from_linked; [exact Hl3|lia].
  - exists (set_unloaded true d2). split_and!; [exact Hd3|reflexivity|].
    simpl. rewrite Hh2.
    now apply parse_ok_fields in Hparse as (-> & _).
  - intros fuel address Hres.
    apply image_at_address_loop_sound in Hres as (d & Hd & Hc).
    rewrite Hd3 in Hd. injection Hd as <-. discriminate.
  - intros b. unfold st3. simpl. rewrite lookup_fmap. apply fmap_is_Some.
Qed.

Lemma remove_after_add_marks_unloaded_witness :
  exists st3 l,
    run_call sample_env (CallRemoveImage 0x1000 0) sample_state = Some st3 /\
    registry_list sample_state l /\ registry_list st3 l /\ 100 ∈ l /\
    traverse (S (length l)) st3 = Some (Alloc <$> l) /\
    (exists d, images st3 !! 100 = Some d /\ unloaded d = true /\
               header d = 0x1000) /\
    (forall fuel address,
       ksdl_image_at_address fuel st3 address <> Some (Alloc 100)) /\
    (forall b, is_Some (images st3 !! b) <-> is_Some (images sample_state !! b)).
Proof.
  apply (remove_after_add_marks_unloaded sample_env initial_state 100 0x1000 0
           0 [CallAddImage (Some 200) 0x2000 0] sample_state).
  - apply reachable_initial.
  - reflexivity.
  - vm_compute. reflexivity.
  - split; [vm_compute; reflexivity|vm_compute; exact I].
  - vm_compute. reflexivity.
Defined.

(** ** The parser: when it fails *)

Lemma load8_range m a : 0 <= load8 m a < 2 ^ 8.
Proof.
  unfold load8. pose proof (Byte.to_N_bounded (m a)) as H.
  change (2 ^ 8) with 256. lia.
Qed.

Lemma load32_range m a : 0 <= load32 m a < 2 ^ 32.
Proof.
  unfold load32.
  pose proof (load8_range m a). pose proof (load8_range m (a + 1)).
  pose proof (load8_range m (a + 2)). pose proof (load8_range m (a + 3)).
  change (2 ^ 8) with 256 in *. change (2 ^ 16) with 65536.
  change (2 ^ 24) with 16777216. change (2 ^ 32) with 4294967296. lia.
Qed.

Lemma first_cmd_zero_iff E h :
  0 <= h -> h + sizeof_mach_header_64 < 2 ^ 64 ->
  ksdl_first_cmd_after_header E h = 0 <->
  h = 0 \/ recognized_magic (load32 (mem E) (h + off_magic)) = false.
Proof.
  intros Hlo Hhi. unfold ksdl_first_cmd_after_header, recognized_magic.
  unfold sizeof_mach_header_64, sizeof_mach_header in *.
  destruct (h =? 0) eqn:Hz.
  - apply Z.eqb_eq in Hz. tauto.
  - apply Z.eqb_neq in Hz.
    destruct ((load32 (mem E) (h + off_magic) =? MH_MAGIC)
              || (load32 (mem E) (h + off_magic) =? MH_CIGAM)) eqn:H32;
      cbn [orb].
    + rewrite wrap64_small by lia. split; [lia|]. intros [?|?]; [lia|discriminate].
    + destruct ((load32 (mem E) (h + off_magic) =? MH_MAGIC_64)
                || (load32 (mem E) (h + off_magic) =? MH_CIGAM_64)) eqn:H64.
      * rewrite wrap64_small by lia. split; [lia|].
        intros [?|?]; [lia|discriminate].
      * split; [now right|reflexivity].
Qed.

(** C4.  For a header that is null or lies with its 32 bytes inside the
    address space, the parser reports failure exactly when the header is
    null, its magic is none of the four recognized values, or no name is
    found; on failure the buffer is untouched.  Otherwise it reports
    success and fills the buffer for this header.  The slide plays no
    part in the outcome: when the TEXT address plus the slide is not the
    header address, the only consequence is one logged error. *)
Theorem parser_fails_iff_bad_magic_or_nameless E g h s buf :
  0 <= h -> h + sizeof_mach_header_64 < 2 ^ 64 ->
  let r := ksdl_getBinaryImageForHeader E g h s buf in
  (r.1.1 = false <->
     (h = 0 \/ recognized_magic (load32 (mem E) (h + off_magic)) = false) \/
     get_path E g h = None) /\
  (r.1.1 = false -> r.1.2 = buf) /\
  (r.1.1 = true ->
     header r.1.2 = h /\ slide r.1.2 = s /\ name r.1.2 = get_path E g h /\
     vmAddress r.1.2 = imageVmAddr (parsed_walk E h) /\
     size r.1.2 = imageSize (parsed_walk E h) /\
     unloaded r.1.2 = false /\ next r.1.2 = NullImage) /\
  (forall s', (ksdl_getBinaryImageForHeader E g h s' buf).1.1 = r.1.1) /\
  (r.1.1 = true ->
     wrap64 (wrap64 (imageVmAddr (parsed_walk E h)) + wrap64 s) <> h ->
     exists imageName,
       get_path E g h = Some imageName /\
       r.2 = [ErrHeaderMismatch imageName]).
Proof.
  intros Hlo Hhi r.
  pose proof (first_cmd_zero_iff E h Hlo Hhi) as Hz.
  assert (Hr : r = ksdl_getBinaryImageForHeader E g h s buf) by reflexivity.
  rewrite parse_result in Hr.
  split_and!.
  - rewrite Hr. destruct (ksdl_first_cmd_after_header E h =? 0) eqn:Hc.
    + apply Z.eqb_eq in Hc. simpl. split; [|reflexivity].
      intros _. left. now apply Hz.
    + apply Z.eqb_neq in Hc. destruct (get_path E g h) as [n|]; simpl.
      * split; [discriminate|]. intros [H|H]; [|discriminate].
        exfalso. apply Hc. now apply Hz.
      * split; [|reflexivity]. intros _. now right.
  - rewrite Hr. destruct (ksdl_first_cmd_after_header E h =? 0);
      [reflexivity|]. destruct (get_path E g h); [discriminate|reflexivity].
  - intros Hok.
    destruct r as [[ok d] errs] eqn:Hreq. simpl in Hok. subst ok.
    assert (Hp : ksdl_getBinaryImageForHeader E g h s buf = (true, d, errs))
      by exact Hreq.
    apply parse_ok_fields in Hp
      as (H1 & H2 & H3 & H4 & _ & H6 & H7 & _ & H9 & _).
    simpl. auto 10.
  - intros s'. rewrite Hr, parse_result.
    destruct (ksdl_first_cmd_after_header E h =? 0); [reflexivity|].
    destruct (get_path E g h); reflexivity.
  - rewrite Hr. destruct (ksdl_first_cmd_after_header E h =? 0);
      [discriminate|]. destruct (get_path E g h) as [n|]; [|discriminate].
    cbv zeta. simpl. intros _ Hne. exists n. split; [reflexivity|].
    unfold parsed_walk in Hne. apply Z.eqb_neq in Hne. now rewrite Hne.
Qed.

(** The executable of the sample, parsed with a slide that is off by 8:
    success, and one logged error. *)
Lemma parser_fails_iff_bad_magic_or_nameless_witness :
  (ksdl_getBinaryImageForHeader sample_env None 0x2000 8 zero_image).1.1
    = true /\
  exists imageName,
    get_path sample_env None 0x2000 = Some imageName /\
    (ksdl_getBinaryImageForHeader sample_env None 0x2000 8 zero_image).2
      = [ErrHeaderMismatch imageName].
Proof.
  pose proof (parser_fails_iff_bad_magic_or_nameless sample_env None 0x2000 8
                zero_image ltac:(lia) ltac:(vm_compute; reflexivity))
    as (_ & _ & _ & _ & Hlog).
  split; [vm_compute; reflexivity|].
  apply Hlog; [vm_compute; reflexivity|vm_compute; discriminate].
Defined.

(** ** The parser: the version triple *)

Lemma walk_step_cmdPtr E w :
  cmdPtr (walk_step E w)
  = wrap64 (cmdPtr w + load32 (mem E) (cmdPtr w + off_cmdsize)).
Proof.
  unfold walk_step.
  repeat match goal with
         | |- context [if ?c then _ else _] => destruct c
         end; reflexivity.
Qed.

Lemma walk_step_version E w :
  version (walk_step E w)
  = if is_id_dylib E (cmdPtr w)
    then load32 (mem E) (cmdPtr w + off_dylib_current_version)
    else version w.
Proof.
  unfold walk_step, is_id_dylib.
  destruct (load32 (mem E) (cmdPtr w + off_cmd) =? LC_SEGMENT) eqn:H1.
  { apply Z.eqb_eq in H1. rewrite H1.
    destruct (strcmp_mem_eq _ _ _); reflexivity. }
  destruct (load32 (mem E) (cmdPtr w + off_cmd) =? LC_SEGMENT_64) eqn:H2.
  { apply Z.eqb_eq in H2. rewrite H2.
    destruct (strcmp_mem_eq _ _ _); reflexivity. }
  destruct (load32 (mem E) (cmdPtr w + off_cmd) =? LC_UUID) eqn:H3.
  { apply Z.eqb_eq in H3. rewrite H3. reflexivity. }
  destruct (load32 (mem E) (cmdPtr w + off_cmd) =? LC_ID_DYLIB); reflexivity.
Qed.

(** The walk leaves in [version] the [current_version] of the last
    identity command it met. *)
Lemma walk_cmds_version E n :
  forall w,
    version (walk_cmds E n w)
    = match last (filter (fun p => is_id_dylib E p = true)
                    (cmd_ptrs E n (cmdPtr w))) with
      | Some p => load32 (mem E) (p + off_dylib_current_version)
      | None => version w
      end.
Proof.
  induction n as [|n IH]; intros w; [reflexivity|].
  cbn [walk_cmds cmd_ptrs]. rewrite IH, walk_step_cmdPtr, walk_step_version.
  rewrite filter_cons.
  destruct (decide (is_id_dylib E (cmdPtr w) = true)) as [Hid|Hid].
  - rewrite Hid. rewrite last_cons.
    destruct (last (filter _ _)); reflexivity.
  - apply not_true_is_false in Hid. rewrite Hid. reflexivity.
Qed.

Lemma shiftr_land_255_testbit x k i :
  0 <= k -> 0 <= i ->
  Z.testbit (Z.land (Z.shiftr x k) 0xff) i = (i <? 8) && Z.testbit x (i + k).
Proof.
  intros Hk Hi. rewrite Z.land_spec, Z.shiftr_spec by lia.
  change 0xff with (Z.ones 8). rewrite Z.testbit_ones_nonneg by lia.
  rewrite andb_comm. f_equal.
Qed.

(** C9.  When the parser succeeds, the version triple of the descriptor
    comes from the [current_version] [v] of the identity command of the
    image (the last one, should the table hold several): the major
    version is [v >> 16], so bits 31-16 of the 32-bit [v]; the minor
    version is bits 15-8; the revision is bits 7-0.  With no identity
    command all three are zero. *)
Theorem version_triple_from_current_version E g h s buf d errs :
  ksdl_getBinaryImageForHeader E g h s buf = (true, d, errs) ->
  match last (id_dylib_cmds E h) with
  | Some p =>
      let v := load32 (mem E) (p + off_dylib_current_version) in
      0 <= v < 2 ^ 32 /\
      majorVersion d = v / 2 ^ 16 /\
      minorVersion d = (v / 2 ^ 8) mod 2 ^ 8 /\
      revisionVersion d = v mod 2 ^ 8 /\
      (forall i, 0 <= i -> Z.testbit (majorVersion d) i = Z.testbit v (i + 16)) /\
      (forall i, 0 <= i ->
         Z.testbit (minorVersion d) i = (i <? 8) && Z.testbit v (i + 8)) /\
      (forall i, 0 <= i ->
         Z.testbit (revisionVersion d) i = (i <? 8) && Z.testbit v i)
  | None =>
      majorVersion d = 0 /\ minorVersion d = 0 /\ revisionVersion d = 0
  end.
Proof.
  rewrite parse_result.
  destruct (ksdl_first_cmd_after_header E h =? 0); [discriminate|].
  destruct (get_path E g h) as [n|]; [|discriminate].
  cbv zeta. intros H. injection H as <- _.
  match goal with
  | |- context [getCrashInfo E ?b] =>
      pose proof (getCrashInfo_other_fields E b)
        as (_ & _ & _ & _ & _ & _ & _ & _ & _ & _ & Hmaj & Hmin & Hrev & _)
  end.
  simpl in Hmaj, Hmin, Hrev. simpl majorVersion. simpl minorVersion.
  simpl revisionVersion. rewrite Hmaj, Hmin, Hrev.
  rewrite walk_cmds_version. simpl cmdPtr. unfold id_dylib_cmds.
  destruct (last (filter _ _)) as [p|].
  - cbv zeta. set (v := load32 (mem E) (p + off_dylib_current_version)).
    pose proof (load32_range (mem E) (p + off_dylib_current_version)) as Hv.
    fold v in Hv. split_and!; try lia.
    + apply Z.shiftr_div_pow2. lia.
    + change 0xff with (Z.ones 8). rewrite Z.land_ones by lia.
      now rewrite Z.shiftr_div_pow2 by lia.
    + change 0xff with (Z.ones 8). now rewrite Z.land_ones by lia.
    + intros i Hi. apply Z.shiftr_spec. exact Hi.
    + intros i Hi. now apply shiftr_land_255_testbit.
    + intros i Hi. rewrite <- (Z.shiftr_0_r v) at 1.
      rewrite shiftr_land_255_testbit by lia. now rewrite Z.add_0_r.
  - rewrite Z.shiftr_0_l. split_and!; reflexivity.
Qed.

(** The library of the sample declares version 1.2.3. *)
Lemma version_triple_from_current_version_witness :
  let r := ksdl_getBinaryImageForHeader sample_env None 0x1000 0 zero_image in
  r.1.1 = true /\
  last (id_dylib_cmds sample_env 0x1000) = Some 0x1080 /\
  load32 sample_mem (0x1080 + off_dylib_current_version) = 0x00010203 /\
  majorVersion r.1.2 = 1 /\ minorVersion r.1.2 = 2 /\
  revisionVersion r.1.2 = 3.
Proof.
  intros r.
  assert (Hparse : ksdl_getBinaryImageForHeader sample_env None 0x1000 0
                     zero_image = (true, r.1.2, r.2))
    by (vm_compute; reflexivity).
  pose proof (version_triple_from_current_version sample_env None 0x1000 0
                zero_image _ _ Hparse) as H.
  replace (last (id_dylib_cmds sample_env 4096)) with (Some 0x1080) in H
    by (vm_compute; reflexivity).
  cbv zeta in H.
  replace (load32 (mem sample_env) (0x1080 + off_dylib_current_version))
    with 0x00010203 in H by (vm_compute; reflexivity).
  destruct H as (_ & -> & -> & -> & _).
  split_and!; vm_compute; reflexivity.
Defined.

(** ** The parser: crash-info *)

Lemma crash_info_usable_dec E crashInfo sz :
  crash_info_usable E crashInfo sz <->
  (crashInfo =? 0) = false /\ (sz <? off_ci_reserved) = false /\
  ksmem_isMemoryReadable E crashInfo off_ci_reserved = true /\
  negb (load32 (mem E) (crashInfo + off_ci_version) =? 4)
    && negb (load32 (mem E) (crashInfo + off_ci_version) =? 5) = false /\
  (load64 (mem E) (crashInfo + off_ci_message) =? 0)
    && (load64 (mem E) (crashInfo + off_ci_message2) =? 0) = false.
Proof.
  unfold crash_info_usable.
  rewrite Z.eqb_neq, Z.ltb_ge, andb_false_iff, andb_false_iff.
  rewrite !negb_false_iff, !Z.eqb_eq, !Z.eqb_neq. tauto.
Qed.

(** The four fields after [getCrashInfo]: each is the pointer of the
    block when the block is usable and that pointer passes validation,
    and what the buffer held otherwise. *)
Lemma getCrashInfo_fields E b :
  let crashInfo := (getsectiondata E (header b) SEG_DATA KSDL_SECT_CRASH_INFO).1 in
  let sz := (getsectiondata E (header b) SEG_DATA KSDL_SECT_CRASH_INFO).2 in
  let field off := load64 (mem E) (crashInfo + off) in
  let b' := getCrashInfo E b in
  (~ crash_info_usable E crashInfo sz -> b' = b) /\
  (crash_info_usable E crashInfo sz ->
   crashInfoMessage b' =
     (if isValidCrashInfoMessage E (field off_ci_message)
      then field off_ci_message else crashInfoMessage b) /\
   crashInfoMessage2 b' =
     (if isValidCrashInfoMessage E (field off_ci_message2)
      then field off_ci_message2 else crashInfoMessage2 b) /\
   crashInfoBacktrace b' =
     (if isValidCrashInfoMessage E (field off_ci_backtrace)
      then field off_ci_backtrace else crashInfoBacktrace b) /\
   crashInfoSignature b' =
     (if isValidCrashInfoMessage E (field off_ci_signature)
      then field off_ci_signature else crashInfoSignature b)).
Proof.
  cbv zeta. rewrite crash_info_usable_dec. unfold getCrashInfo.
  destruct (getsectiondata E (header b) SEG_DATA KSDL_SECT_CRASH_INFO)
    as [crashInfo sz]. cbn [fst snd].
  destruct (crashInfo =? 0); [split; [reflexivity|intros (? & _); discriminate]|].
  destruct (sz <? off_ci_reserved);
    [split; [reflexivity|intros (_ & ? & _); discriminate]|].
  destruct (ksmem_isMemoryReadable E crashInfo off_ci_reserved); cbn [negb];
    [|split; [reflexivity|intros (_ & _ & ? & _); discriminate]].
  destruct (negb (load32 (mem E) (crashInfo + off_ci_version) =? 4)
            && negb (load32 (mem E) (crashInfo + off_ci_version) =? 5));
    [split; [reflexivity|intros (_ & _ & _ & ? & _); discriminate]|].
  destruct ((load64 (mem E) (crashInfo + off_ci_message) =? 0)
            && (load64 (mem E) (crashInfo + off_ci_message2) =? 0));
    [split; [reflexivity|intros (_ & _ & _ & _ & ?); discriminate]|].
  split; [intros H; exfalso; apply H; auto|]. intros _.
  destruct (isValidCrashInfoMessage E (load64 (mem E) (crashInfo + off_ci_message)));
  destruct (isValidCrashInfoMessage E (load64 (mem E) (crashInfo + off_ci_message2)));
  destruct (isValidCrashInfoMessage E (load64 (mem E) (crashInfo + off_ci_backtrace)));
  destruct (isValidCrashInfoMessage E (load64 (mem E) (crashInfo + off_ci_signature)));
  simpl; auto.
Qed.

Lemma getCrashInfo_without E b : getCrashInfo (without_crash_info E) b = b.
Proof. reflexivity. Qed.

Lemma clear_crash_info_getCrashInfo E b :
  clear_crash_info (getCrashInfo E b) = clear_crash_info b.
Proof.
  pose proof (getCrashInfo_other_fields E b) as H. cbv zeta in H.
  destruct (getCrashInfo E b), b. simpl in H.
  destruct H as (-> & -> & -> & -> & -> & -> & -> & -> & -> & -> & -> & ->
                 & -> & ->).
  reflexivity.
Qed.

Lemma clear_crash_info_set_next n d :
  clear_crash_info (set_next n d) = set_next n (clear_crash_info d).
Proof. reflexivity. Qed.

(** The parser on [E] and on [E] with the sections removed. *)
Lemma parse_without_crash_info E g h s buf :
  let r := ksdl_getBinaryImageForHeader E g h s buf in
  let r0 := ksdl_getBinaryImageForHeader (without_crash_info E) g h s buf in
  r.1.1 = r0.1.1 /\ r.2 = r0.2 /\
  clear_crash_info r.1.2 = clear_crash_info r0.1.2 /\
  (r.1.1 = true ->
   exists filled,
     r0.1.2 = filled /\ header filled = h /\
     crashInfoMessage filled = crashInfoMessage buf /\
     crashInfoMessage2 filled = crashInfoMessage2 buf /\
     crashInfoBacktrace filled = crashInfoBacktrace buf /\
     crashInfoSignature filled = crashInfoSignature buf /\
     r.1.2 = set_next NullImage (getCrashInfo E (set_next (next buf) filled))).
Proof.
  cbv zeta. rewrite !parse_result.
  change (ksdl_first_cmd_after_header (without_crash_info E) h)
    with (ksdl_first_cmd_after_header E h).
  change (get_path (without_crash_info E) g h) with (get_path E g h).
  destruct (ksdl_first_cmd_after_header E h =? 0);
    [split_and!; try reflexivity; discriminate|].
  destruct (get_path E g h) as [n|];
    [|split_and!; try reflexivity; discriminate].
  cbv zeta. cbn [fst snd]. split_and!; try reflexivity.
  - rewrite getCrashInfo_without, !clear_crash_info_set_next.
    now rewrite clear_crash_info_getCrashInfo.
  - intros _. eexists. split; [reflexivity|].
    rewrite getCrashInfo_without. split_and!; reflexivity.
Qed.

Lemma crash_fields_set_next n d :
  header (set_next n d) = header d /\
  crashInfoMessage (set_next n d) = crashInfoMessage d /\
  crashInfoMessage2 (set_next n d) = crashInfoMessage2 d /\
  crashInfoBacktrace (set_next n d) = crashInfoBacktrace d /\
  crashInfoSignature (set_next n d) = crashInfoSignature d.
Proof. split_and!; reflexivity. Qed.

Lemma crash_info_usable_decide E crashInfo sz :
  crash_info_usable E crashInfo sz \/ ~ crash_info_usable E crashInfo sz.
Proof.
  rewrite crash_info_usable_dec.
  destruct (crashInfo =? 0); [right; intros (? & _); discriminate|].
  destruct (sz <? off_ci_reserved); [right; intros (_ & ? & _); discriminate|].
  destruct (ksmem_isMemoryReadable E crashInfo off_ci_reserved);
    [|right; intros (_ & _ & ? & _); discriminate].
  destruct (negb _ && negb _);
    [right; intros (_ & _ & _ & ? & _); discriminate|].
  destruct ((_ =? 0) && (_ =? 0));
    [right; intros (_ & _ & _ & _ & ?); discriminate|].
  left. auto.
Qed.

(** C7.  A crash-info section never makes the parser fail and never
    disturbs the rest of the descriptor: flag, log and every other field
    are those of the same image without the section.  When the parser
    succeeds: if the section is missing, shorter than the four string
    pointers, unreadable, of a version other than 4 and 5, or has both
    messages null, the four crash-info fields are left as the buffer held
    them (null for the zeroed buffers [add_image] and [remove_image]
    pass); a field whose pointer fails validation is left likewise; and
    on a usable section a field whose pointer passes validation is set,
    whatever happens to the other three. *)
Theorem crash_info_never_fatal E g h s buf :
  let r := ksdl_getBinaryImageForHeader E g h s buf in
  let r0 := ksdl_getBinaryImageForHeader (without_crash_info E) g h s buf in
  let crashInfo := (getsectiondata E h SEG_DATA KSDL_SECT_CRASH_INFO).1 in
  let sz := (getsectiondata E h SEG_DATA KSDL_SECT_CRASH_INFO).2 in
  let field off := load64 (mem E) (crashInfo + off) in
  r.1.1 = r0.1.1 /\ r.2 = r0.2 /\
  clear_crash_info r.1.2 = clear_crash_info r0.1.2 /\
  (r.1.1 = true ->
   ((crashInfo = 0 \/ sz < off_ci_reserved \/
     ksmem_isMemoryReadable E crashInfo off_ci_reserved = false \/
     (load32 (mem E) (crashInfo + off_ci_version) <> 4 /\
      load32 (mem E) (crashInfo + off_ci_version) <> 5) \/
     (field off_ci_message = 0 /\ field off_ci_message2 = 0)) ->
    crashInfoMessage r.1.2 = crashInfoMessage buf /\
    crashInfoMessage2 r.1.2 = crashInfoMessage2 buf /\
    crashInfoBacktrace r.1.2 = crashInfoBacktrace buf /\
    crashInfoSignature r.1.2 = crashInfoSignature buf) /\
   (isValidCrashInfoMessage E (field off_ci_message) = false ->
    crashInfoMessage r.1.2 = crashInfoMessage buf) /\
   (isValidCrashInfoMessage E (field off_ci_message2) = false ->
    crashInfoMessage2 r.1.2 = crashInfoMessage2 buf) /\
   (isValidCrashInfoMessage E (field off_ci_backtrace) = false ->
    crashInfoBacktrace r.1.2 = crashInfoBacktrace buf) /\
   (isValidCrashInfoMessage E (field off_ci_signature) = false ->
    crashInfoSignature r.1.2 = crashInfoSignature buf) /\
   (crash_info_usable E crashInfo sz ->
    (isValidCrashInfoMessage E (field off_ci_message) = true ->
     crashInfoMessage r.1.2 = field off_ci_message) /\
    (isValidCrashInfoMessage E (field off_ci_message2) = true ->
     crashInfoMessage2 r.1.2 = field off_ci_message2) /\
    (isValidCrashInfoMessage E (field off_ci_backtrace) = true ->
     crashInfoBacktrace r.1.2 = field off_ci_backtrace) /\
    (isValidCrashInfoMessage E (field off_ci_signature) = true ->
     crashInfoSignature r.1.2 = field off_ci_signature))).
Proof.
  intros r r0 crashInfo sz field. unfold field. clear field. cbv beta.
  pose proof (parse_without_crash_info E g h s buf) as Hp. cbv zeta in Hp.
  fold r r0 in Hp. destruct Hp as (Hflag & Hlog & Hclear & Hfill).
  split_and!; try assumption.
  intros Hok. destruct (Hfill Hok)
    as (filled & _ & Hh & Hm & Hm2 & Hbt & Hsg & Hr).
  pose proof (getCrashInfo_fields E (set_next (next buf) filled)) as Hci.
  cbv zeta in Hci.
  destruct (crash_fields_set_next (next buf) filled)
    as (Hh' & Hm' & Hm2' & Hbt' & Hsg').
  rewrite Hh', Hh in Hci. fold crashInfo sz in Hci.
  rewrite Hm', Hm2', Hbt', Hsg', Hm, Hm2, Hbt, Hsg in Hci.
  destruct (crash_fields_set_next NullImage
              (getCrashInfo E (set_next (next buf) filled)))
    as (_ & Em & Em2 & Ebt & Esg).
  rewrite <- Hr in Em, Em2, Ebt, Esg. rewrite Em, Em2, Ebt, Esg.
  destruct Hci as [Hno Hyes].
  assert (Hno' : ~ crash_info_usable E crashInfo sz ->
            crashInfoMessage (getCrashInfo E (set_next (next buf) filled))
              = crashInfoMessage buf /\
            crashInfoMessage2 (getCrashInfo E (set_next (next buf) filled))
              = crashInfoMessage2 buf /\
            crashInfoBacktrace (getCrashInfo E (set_next (next buf) filled))
              = crashInfoBacktrace buf /\
            crashInfoSignature (getCrashInfo E (set_next (next buf) filled))
              = crashInfoSignature buf).
  { intros Hn. rewrite (Hno Hn), Hm', Hm2', Hbt', Hsg'. auto. }
  destruct (crash_info_usable_decide E crashInfo sz) as [Hu|Hu].
  - destruct (Hyes Hu) as (Fm & Fm2 & Fbt & Fsg).
    rewrite Fm, Fm2, Fbt, Fsg. split_and!.
    + intros Hbad. exfalso. destruct Hu as (U1 & U2 & U3 & U4 & U5).
      destruct Hbad as [B|[B|[B|[[B1 B2]|[B1 B2]]]]].
      * exact (U1 B).
      * lia.
      * rewrite B in U3. discriminate.
      * destruct U4 as [U|U]; [exact (B1 U)|exact (B2 U)].
      * destruct U5 as [U|U]; [exact (U B1)|exact (U B2)].
    + now intros ->.
    + now intros ->.
    + now intros ->.
    + now intros ->.
    + intros _. split_and!; now intros ->.
  - destruct (Hno' Hu) as (Fm & Fm2 & Fbt & Fsg).
    rewrite Fm, Fm2, Fbt, Fsg. split_and!; try tauto.
Qed.

(** The library of the sample: its crash-info block has a valid message
    and a backtrace pointer into unmapped memory.  The message is
    attached, the backtrace is not, and the parser succeeds. *)
Lemma crash_info_never_fatal_witness :
  (ksdl_getBinaryImageForHeader sample_env None 0x1000 0 zero_image).1.1
    = true /\
  crashInfoMessage
    (ksdl_getBinaryImageForHeader sample_env None 0x1000 0 zero_image).1.2
    = load64 (mem sample_env)
        ((getsectiondata sample_env 0x1000 SEG_DATA KSDL_SECT_CRASH_INFO).1
         + off_ci_message) /\
  crashInfoBacktrace
    (ksdl_getBinaryImageForHeader sample_env None 0x1000 0 zero_image).1.2
    = crashInfoBacktrace zero_image.
Proof.
  pose proof (crash_info_never_fatal sample_env None 0x1000 0 zero_image) as H.
  cbv zeta in H. destruct H as (_ & _ & _ & H).
  assert (Hok : (ksdl_getBinaryImageForHeader sample_env None 0x1000 0
                   zero_image).1.1 = true) by (vm_compute; reflexivity).
  destruct (H Hok) as (_ & _ & _ & Hbt & _ & Hset).
  split_and!.
  - exact Hok.
  - apply Hset.
    + vm_compute.
      split_and!; [discriminate|discriminate|reflexivity
                  |right; reflexivity|left; discriminate].
    + vm_compute. reflexivity.
  - apply Hbt. vm_compute. reflexivity.
Defined.

(** ** Validation of a crash-info string *)










(** ** Initialisation *)

Lemma register_dyld_images_globals E new1 new2 st :
  dyld_calls (register_dyld_images E new1 new2 st)
    = dyld_calls st ++ [TaskInfoDyld] /\
  is_image_list_initialized (register_dyld_images E new1 new2 st)
    = is_image_list_initialized st.
Proof.
  unfold register_dyld_images. cbv zeta.
  destruct (task_dyld_info E) as [infos|]; [|split; reflexivity].
  set (st1 := with_all_image_infos _ _).
  destruct (add_image_globals E new1 (dyldImageLoadAddress infos)
              (compute_slide E (dyldImageLoadAddress infos)) st1)
    as (_ & Hi & Hc).
  set (st2 := add_image E new1 _ _ st1) in *.
  assert (H2 : dyld_calls st2 = dyld_calls st ++ [TaskInfoDyld] /\
               is_image_list_initialized st2 = is_image_list_initialized st)
    by (rewrite Hi, Hc; split; reflexivity).
  destruct (TARGET_OS_SIMULATOR E); [|exact H2].
  destruct (infoArray infos) as [[simHeader filePath]|]; [|exact H2].
  destruct (strstr filePath _); [|exact H2].
  destruct (add_image_globals E new2 simHeader (compute_slide E simHeader) st2)
    as (_ & -> & ->).
  exact H2.
Qed.

Lemma initialize_first_call E new1 new2 st :
  is_image_list_initialized st = false ->
  is_image_list_initialized (ksdl_binary_images_initialize E new1 new2 st)
    = true /\
  dyld_calls (ksdl_binary_images_initialize E new1 new2 st)
    = dyld_calls st
      ++ [TaskInfoDyld; RegisterFuncForAddImage; RegisterFuncForRemoveImage].
Proof.
  intros Hinit. unfold ksdl_binary_images_initialize. rewrite Hinit.
  destruct (register_dyld_images_globals E new1 new2
              (with_initialized true st)) as (Hc & Hi).
  unfold register_for_changes. simpl. rewrite Hc, Hi. simpl.
  split; [reflexivity|]. now rewrite <- !app_assoc.
Qed.

Lemma initialize_later_call E new1 new2 st :
  is_image_list_initialized st = true ->
  ksdl_binary_images_initialize E new1 new2 st = st.
Proof. intros Hinit. unfold ksdl_binary_images_initialize. now rewrite Hinit. Qed.

(** Over any sequence of calls, discovery and registration have run
    once if the flag is set and not at all otherwise. *)
Lemma reachable_dyld_calls E st :
  reachable E st ->
  dyld_calls st =
  if is_image_list_initialized st
  then [TaskInfoDyld; RegisterFuncForAddImage; RegisterFuncForRemoveImage]
  else [].
Proof.
  induction 1 as [|st c st' Hreach IH Hok Hrun]; [reflexivity|].
  destruct (reachable_registry E st Hreach) as [l Hreg].
  destruct c as [newImage h s|h s|new1 new2]; simpl in Hrun.
  - injection Hrun as <-.
    destruct (add_image_globals E newImage h s st) as (_ & -> & ->). exact IH.
  - rewrite (remove_image_spec E _ h s st l Hreg) in Hrun
      by (rewrite (registry_size st l Hreg); lia).
    injection Hrun as <-.
    destruct (ksdl_getBinaryImageForHeader _ _ _ _ _) as [[ok buf] errs].
    destruct ok; exact IH.
  - injection Hrun as <-.
    destruct (is_image_list_initialized st) eqn:Hinit.
    + rewrite initialize_later_call by exact Hinit. now rewrite Hinit.
    + destruct (initialize_first_call E new1 new2 st Hinit) as (-> & ->).
      now rewrite IH.
Qed.

Lemma init_race_inv_start n :
  init_race_inv (mkInitConfig initial_state (replicate n InitEntry)).
Proof.
  unfold init_race_inv. simpl. split_and!.
  - intros _. split; [reflexivity|]. intros i pc Hi.
    apply lookup_replicate in Hi as [-> _]. reflexivity.
  - intros i j pi pj Hi _ Hw. apply lookup_replicate in Hi as [-> _].
    discriminate.
  - intros i pc Hi Hw. apply lookup_replicate in Hi as [-> _]. discriminate.
  - discriminate.
Qed.

Lemma init_race_inv_step E c i c' :
  init_race_inv c -> init_race_step E c i c' -> init_race_inv c'.
Proof.
  intros (Hbefore & Huniq & Hwin & Hafter) Hstep.
  destruct Hstep as [st ts i pc st' pc' Hi Hstep]. simpl in *.
  assert (Hlt : (i < length ts)%nat) by (eapply lookup_lt_Some; exact Hi).
  assert (Hlook : forall (j : nat) q, <[i := pc']> ts !! j = Some q ->
            (j = i /\ q = pc') \/ (j <> i /\ ts !! j = Some q)).
  { intros j q Hj. destruct (decide (j = i)) as [->|Hne].
    - rewrite list_lookup_insert_eq in Hj by exact Hlt. left. split; congruence.
    - rewrite list_lookup_insert_ne in Hj by congruence. now right. }
  destruct Hstep as [st Hflag|st Hflag|st new1 new2 Hf1 Hf2|st].
  - (* the compare-and-set succeeds *)
    destruct (Hbefore Hflag) as (Hst & Hall).
    unfold init_race_inv. simpl. split_and!.
    + discriminate.
    + intros j k pj pk Hj Hk Hwj Hwk.
      destruct (Hlook j pj Hj) as [[-> _]|[_ Hj']];
        destruct (Hlook k pk Hk) as [[-> _]|[_ Hk']]; try reflexivity.
      * rewrite (Hall k pk Hk') in Hwk. discriminate.
      * rewrite (Hall j pj Hj') in Hwj. discriminate.
      * rewrite (Hall j pj Hj') in Hwj. discriminate.
    + intros j pj Hj Hwj. split; [reflexivity|].
      destruct (Hlook j pj Hj) as [[_ ->]|[_ Hj']].
      * rewrite Hst. reflexivity.
      * rewrite (Hall j pj Hj') in Hwj. discriminate.
    + intros _. exists i, InitDiscover. split; [|reflexivity].
      now apply list_lookup_insert_eq.
  - (* the compare-and-set fails *)
    unfold init_race_inv. simpl. split_and!.
    + congruence.
    + intros j k pj pk Hj Hk Hwj Hwk.
      destruct (Hlook j pj Hj) as [[_ ->]|[_ Hj']]; [discriminate|].
      destruct (Hlook k pk Hk) as [[_ ->]|[_ Hk']]; [discriminate|].
      eapply Huniq; eassumption.
    + intros j pj Hj Hwj.
      destruct (Hlook j pj Hj) as [[_ ->]|[_ Hj']]; [discriminate|].
      eapply Hwin; eassumption.
    + intros _. destruct (Hafter Hflag) as (j & pj & Hj & Hwj).
      exists j, pj. split; [|exact Hwj].
      rewrite list_lookup_insert_ne; [exact Hj|].
      intros ->. rewrite Hi in Hj. injection Hj as <-. discriminate.
  - (* the winner discovers the loader's images *)
    destruct (Hwin i InitDiscover Hi eq_refl) as (Hflag & Hcalls).
    destruct (register_dyld_images_globals E new1 new2 st) as (Hc' & Hi').
    unfold init_race_inv. simpl. rewrite Hi', Hc', Hcalls. split_and!.
    + congruence.
    + intros j k pj pk Hj Hk Hwj Hwk.
      destruct (Hlook j pj Hj) as [[-> _]|[Hnj Hj']];
        destruct (Hlook k pk Hk) as [[-> _]|[Hnk Hk']]; try reflexivity.
      * exfalso. apply Hnk. eapply (Huniq k i); eauto.
      * exfalso. apply Hnj. eapply (Huniq j i); eauto.
      * eapply Huniq; eassumption.
    + intros j pj Hj Hwj. split; [exact Hflag|].
      destruct (Hlook j pj Hj) as [[_ ->]|[Hnj Hj']]; [reflexivity|].
      exfalso. apply Hnj. eapply (Huniq j i); eauto.
    + intros _. exists i, InitSubscribe. split; [|reflexivity].
      now apply list_lookup_insert_eq.
  - (* the winner subscribes *)
    destruct (Hwin i InitSubscribe Hi eq_refl) as (Hflag & Hcalls).
    unfold init_race_inv, register_for_changes. simpl. rewrite Hcalls.
    split_and!.
    + congruence.
    + intros j k pj pk Hj Hk Hwj Hwk.
      destruct (Hlook j pj Hj) as [[-> _]|[Hnj Hj']];
        destruct (Hlook k pk Hk) as [[-> _]|[Hnk Hk']]; try reflexivity.
      * exfalso. apply Hnk. eapply (Huniq k i); eauto.
      * exfalso. apply Hnj. eapply (Huniq j i); eauto.
      * eapply Huniq; eassumption.
    + intros j pj Hj Hwj. split; [exact Hflag|].
      destruct (Hlook j pj Hj) as [[_ ->]|[Hnj Hj']]; [reflexivity|].
      exfalso. apply Hnj. eapply (Huniq j i); eauto.
    + intros _. exists i, (InitReturned true). split; [|reflexivity].
      now apply list_lookup_insert_eq.
Qed.

Lemma init_race_reachable_inv E n c :
  init_race_reachable E n c -> init_race_inv c.
Proof.
  induction 1 as [|c i c' _ IH Hstep].
  - apply init_race_inv_start.
  - eapply init_race_inv_step; eassumption.
Qed.

(** C10.  [ksdl_binary_images_initialize] runs its body once.  Called
    with the flag set it returns the state as it found it; called with
    the flag clear it sets the flag, asks for the loader's bookkeeping
    and registers the two callbacks; so over any sequence of calls these
    three things have happened once or not at all.  When callers race,
    at most one passes the compare-and-set, and the calls made to the
    loader are exactly the ones this winner has reached; a thread that
    finds the flag set returns in that very step and leaves the state
    untouched, wherever the winner is; and a loser can have returned
    while the winner has not yet discovered or registered anything. *)
Theorem initialize_runs_once E :
  (forall new1 new2 st,
     is_image_list_initialized st = true ->
     ksdl_binary_images_initialize E new1 new2 st = st) /\
  (forall new1 new2 st,
     is_image_list_initialized st = false ->
     is_image_list_initialized (ksdl_binary_images_initialize E new1 new2 st)
       = true /\
     dyld_calls (ksdl_binary_images_initialize E new1 new2 st)
       = dyld_calls st
         ++ [TaskInfoDyld; RegisterFuncForAddImage; RegisterFuncForRemoveImage]) /\
  (forall st,
     reachable E st ->
     dyld_calls st =
     if is_image_list_initialized st
     then [TaskInfoDyld; RegisterFuncForAddImage; RegisterFuncForRemoveImage]
     else []) /\
  (forall n c,
     init_race_reachable E n c ->
     (forall (i j : nat) pi pj,
        init_threads c !! i = Some pi -> init_threads c !! j = Some pj ->
        init_won pi = true -> init_won pj = true -> i = j) /\
     (forall (i : nat) pc,
        init_threads c !! i = Some pc -> init_won pc = true ->
        dyld_calls (init_state c) = init_calls_made pc) /\
     (is_image_list_initialized (init_state c) = false ->
      init_state c = initial_state)) /\
  (forall c (i : nat) c',
     init_threads c !! i = Some InitEntry ->
     is_image_list_initialized (init_state c) = true ->
     init_race_step E c i c' ->
     init_state c' = init_state c /\
     init_threads c' !! i = Some (InitReturned false)) /\
  (exists c,
     init_race_reachable E 2 c /\
     init_threads c = [InitDiscover; InitReturned false] /\
     init_state c = with_initialized true initial_state).
Proof.
  split_and!.
  - intros. now apply initialize_later_call.
  - intros. now apply initialize_first_call.
  - apply reachable_dyld_calls.
  - intros n c Hreach.
    destruct (init_race_reachable_inv E n c Hreach)
      as (Hbefore & Huniq & Hwin & _).
    split_and!.
    + exact Huniq.
    + intros i pc Hi Hw. now destruct (Hwin i pc Hi Hw).
    + intros Hflag. now destruct (Hbefore Hflag).
  - intros c i c' Hi Hflag Hstep.
    destruct Hstep as [st ts i pc st' pc' Hi' Hstep]. simpl in *.
    rewrite Hi in Hi'. injection Hi' as <-.
    assert (Hlt : (i < length ts)%nat) by (eapply lookup_lt_Some; exact Hi).
    inversion Hstep; subst; [congruence|].
    split; [reflexivity|]. now apply list_lookup_insert_eq.
  - exists (mkInitConfig (with_initialized true initial_state)
              [InitDiscover; InitReturned false]).
    split_and!; try reflexivity.
    apply (init_race_next E 2
             (mkInitConfig (with_initialized true initial_state)
                [InitDiscover; InitEntry]) 1%nat).
    + apply (init_race_next E 2
               (mkInitConfig initial_state [InitEntry; InitEntry]) 0%nat).
      * apply init_race_start.
      * apply (init_race_thread E initial_state [InitEntry; InitEntry] 0
                 InitEntry); [reflexivity|].
        now apply init_cas_won.
    + apply (init_race_thread E (with_initialized true initial_state)
               [InitDiscover; InitEntry] 1 InitEntry); [reflexivity|].
      now apply init_cas_lost.
Qed.

(** Two calls in a row on the sample: the second changes nothing. *)
Lemma initialize_runs_once_witness :
  let st1 := ksdl_binary_images_initialize sample_env None None initial_state in
  is_image_list_initialized st1 = true /\
  ksdl_binary_images_initialize sample_env None None st1 = st1 /\
  dyld_calls st1
    = [TaskInfoDyld; RegisterFuncForAddImage; RegisterFuncForRemoveImage].
Proof.
  destruct (initialize_runs_once sample_env) as (Hlater & Hfirst & _).
  destruct (Hfirst None None initial_state eq_refl) as (Hflag & Hcalls).
  split_and!.
  - exact Hflag.
  - apply Hlater. exact Hflag.
  - exact Hcalls.
Defined.

(** ** Concurrent insertions and traversals: the invariant *)

Lemma last_ptr_ptr_at pub : last_ptr pub = ptr_at pub (length pub).
Proof.
  unfold last_ptr, ptr_at. rewrite last_lookup.
  destruct pub as [|a pub]; [reflexivity|]. cbn [length Init.Nat.pred].
  destruct ((a :: pub) !! length pub) eqn:H; [reflexivity|].
  apply lookup_ge_None in H. simpl in H. lia.
Qed.

Lemma ptr_at_app pub a (i : nat) :
  (i <= length pub)%nat -> ptr_at (pub ++ [a]) i = ptr_at pub i.
Proof.
  intros Hi. destruct i as [|j]; [reflexivity|]. simpl.
  now rewrite lookup_app_l by lia.
Qed.

Lemma ptr_at_inj pub (i j : nat) :
  NoDup pub -> (i <= length pub)%nat -> (j <= length pub)%nat ->
  ptr_at pub i = ptr_at pub j -> i = j.
Proof.
  intros Hnd Hi Hj Heq.
  destruct i as [|i], j as [|j]; simpl in Heq; try reflexivity.
  - destruct (pub !! j); discriminate.
  - destruct (pub !! i); discriminate.
  - destruct (pub !! i) as [a|] eqn:Ha;
      [|apply lookup_ge_None in Ha; lia].
    destruct (pub !! j) as [b|] eqn:Hb;
      [|apply lookup_ge_None in Hb; lia].
    injection Heq as ->. f_equal. eapply NoDup_lookup; eassumption.
Qed.

(** The objects of the list are the sentinel and published blocks. *)
Lemma ptr_at_cases pub (i : nat) :
  (i <= length pub)%nat ->
  ptr_at pub i = HeadDummy \/ exists a, a ∈ pub /\ ptr_at pub i = Alloc a.
Proof.
  intros Hi. destruct i as [|j]; [now left|]. right. simpl.
  destruct (pub !! j) as [a|] eqn:Ha; [|apply lookup_ge_None in Ha; lia].
  exists a. split; [|reflexivity]. eapply list_elem_of_lookup_2. exact Ha.
Qed.

Lemma deref_insert_other st a d p :
  p <> Alloc a ->
  deref (with_images (<[a := d]> (images st)) st) p = deref st p.
Proof.
  intros Hp. destruct p as [| |b]; try reflexivity. simpl.
  apply lookup_insert_ne. congruence.
Qed.

Lemma partial_image_full t :
  inCrashReport t = false -> partial_image field_writes t = t.
Proof. destruct t. simpl. intros ->. reflexivity. Qed.

Lemma fully_initialized_set_next E n d :
  fully_initialized E d -> fully_initialized E (set_next n d).
Proof.
  intros (h & s & target & errs & Hparse & Hsame).
  exists h, s, target, errs. split; [exact Hparse|exact Hsame].
Qed.

Lemma reader_inv_app E pub a thr :
  reader_inv E pub thr -> reader_inv E (pub ++ [a]) thr.
Proof.
  destruct thr as [| | | | |img seen|img seen|seen]; simpl; try tauto.
  - intros (n & Hseen & Hn & Himg & Hall). exists n.
    rewrite take_app_le by exact Hn. rewrite length_app. split_and!; auto.
    + lia.
    + destruct Himg as [->|(b & Hb & ->)]; [now left|right].
      exists b. split; [|reflexivity]. now apply lookup_app_l_Some.
  - intros (n & b & Hb & -> & Hseen & Hall). exists n, b.
    assert (Hlt : (n < length pub)%nat) by (eapply lookup_lt_Some; exact Hb).
    rewrite take_app_le by lia. split_and!; auto.
    now apply lookup_app_l_Some.
  - intros (n & Hseen & Hn & Hall). exists n.
    rewrite take_app_le by exact Hn. rewrite length_app.
    split_and!; auto. lia.
Qed.

Lemma insert_lookup_cases (ts : list thread) (i j : nat) t' q :
  (i < length ts)%nat ->
  <[i := t']> ts !! j = Some q ->
  (j = i /\ q = t') \/ (j <> i /\ ts !! j = Some q).
Proof.
  intros Hlt Hj. destruct (decide (j = i)) as [->|Hne].
  - rewrite list_lookup_insert_eq in Hj by exact Hlt. left. split; congruence.
  - rewrite list_lookup_insert_ne in Hj by congruence. now right.
Qed.

(** A step that changes nothing but the stepping thread's own state. *)
Lemma conc_inv_thread_only E st pub ts (i : nat) t t' :
  conc_inv E (mkConfig st pub ts) -> ts !! i = Some t ->
  (forall h a o, t <> AddLink h a o) ->
  (forall h a tg k, t' <> AddFill h a tg k) ->
  (forall h a o, t' <> AddLink h a o) ->
  reader_inv E pub t' ->
  conc_inv E (mkConfig st pub (<[i := t']> ts)).
Proof.
  intros [Hg Hnd Htail Hlink Hlast Hcomp Hfill Hown Hlinker Hread].
  simpl in *. intros Hi Ht Ht'1 Ht'2 Hr.
  assert (Hlt : (i < length ts)%nat) by (eapply lookup_lt_Some; exact Hi).
  constructor; simpl; try assumption.
  - intros j a Hj. destruct (Hlink j a Hj) as (d & Hd & Hcase).
    exists d. split; [exact Hd|].
    destruct Hcase as [Hn|(Hn & t0 & h0 & Ht0)]; [now left|right].
    split; [exact Hn|]. exists t0, h0.
    rewrite list_lookup_insert_ne; [exact Ht0|].
    intros ->. rewrite Hi in Ht0. injection Ht0 as ->. eapply Ht. reflexivity.
  - intros j h a target k Hj.
    destruct (insert_lookup_cases ts i j t' _ Hlt Hj) as [[_ Heq]|[_ Hj']].
    + exfalso. eapply Ht'1. symmetry. exact Heq.
    + eapply Hfill. exact Hj'.
  - intros j j' h a target k h' target' k' Hj Hj'.
    destruct (insert_lookup_cases ts i j t' _ Hlt Hj) as [[_ Heq]|[_ Hj1]];
      [exfalso; eapply Ht'1; symmetry; exact Heq|].
    destruct (insert_lookup_cases ts i j' t' _ Hlt Hj') as [[_ Heq]|[_ Hj2]];
      [exfalso; eapply Ht'1; symmetry; exact Heq|].
    eapply Hown; eassumption.
  - intros j h a old Hj.
    destruct (insert_lookup_cases ts i j t' _ Hlt Hj) as [[_ Heq]|[_ Hj']].
    + exfalso. eapply Ht'2. symmetry. exact Heq.
    + eapply Hlinker. exact Hj'.
  - intros j thr Hj.
    destruct (insert_lookup_cases ts i j t' _ Hlt Hj) as [[_ ->]|[_ Hj']].
    + exact Hr.
    + eapply Hread. exact Hj'.
Qed.

(** A store into a block that is not published: the fresh block after
    [calloc], or the block a thread is filling. *)
Lemma conc_inv_store_unpublished E st pub ts (i : nat) t h a target k :
  conc_inv E (mkConfig st pub ts) -> ts !! i = Some t ->
  (forall h' a' o, t <> AddLink h' a' o) ->
  a ∉ pub ->
  (forall (j : nat) h' a' target' k',
     j <> i -> ts !! j = Some (AddFill h' a' target' k') -> a' <> a) ->
  (k <= field_writes)%nat ->
  (exists s errs,
     ksdl_getBinaryImageForHeader E None h s zero_image
       = (true, target, errs)) ->
  conc_inv E
    (mkConfig (with_images (<[a := partial_image k target]> (images st)) st)
       pub (<[i := AddFill h a target k]> ts)).
Proof.
  intros [Hg Hnd Htail Hlink Hlast Hcomp Hfill Hown Hlinker Hread].
  simpl in *. intros Hi Ht Ha Hothers Hk Hparse.
  assert (Hlt : (i < length ts)%nat) by (eapply lookup_lt_Some; exact Hi).
  assert (Hobj : forall n : nat, (n <= length pub)%nat ->
            ptr_at pub n <> Alloc a).
  { intros n Hn Heq. destruct (ptr_at_cases pub n Hn) as [H0|(b & Hb & H1)].
    - congruence.
    - rewrite H1 in Heq. injection Heq as ->. contradiction. }
  constructor; simpl; try assumption.
  - intros j b Hj. destruct (Hlink j b Hj) as (d & Hd & Hcase).
    assert (Hjl : (j <= length pub)%nat)
      by (apply lookup_lt_Some in Hj; lia).
    exists d. split; [rewrite deref_insert_other by auto; exact Hd|].
    destruct Hcase as [Hn|(Hn & t0 & h0 & Ht0)]; [now left|right].
    split; [exact Hn|]. exists t0, h0.
    rewrite list_lookup_insert_ne; [exact Ht0|].
    intros ->. rewrite Hi in Ht0. injection Ht0 as ->. eapply Ht. reflexivity.
  - destruct Hlast as (d & Hd & Hn). exists d. split; [|exact Hn].
    rewrite deref_insert_other; [exact Hd|].
    rewrite last_ptr_ptr_at. apply Hobj. lia.
  - intros b Hb. destruct (Hcomp b Hb) as (d & Hd & Hfi).
    exists d. split; [|exact Hfi].
    rewrite lookup_insert_ne; [exact Hd|]. intros ->. contradiction.
  - intros j h' a' target' k' Hj.
    destruct (insert_lookup_cases ts i j _ _ Hlt Hj) as [[_ Heq]|[Hne Hj']].
    + injection Heq as -> -> -> ->. split_and!; try assumption.
      apply lookup_insert_eq.
    + destruct (Hfill j h' a' target' k' Hj') as (H1 & H2 & H3 & H4).
      split_and!; try assumption.
      rewrite lookup_insert_ne; [exact H2|].
      intros Heq. eapply Hothers; eauto.
  - intros j j' h1 a1 tg1 k1 h2 tg2 k2 Hj Hj'.
    destruct (insert_lookup_cases ts i j _ _ Hlt Hj) as [[-> Heq]|[Hne Hj1]];
      destruct (insert_lookup_cases ts i j' _ _ Hlt Hj')
        as [[-> Heq']|[Hne' Hj2]]; try reflexivity.
    + injection Heq as -> -> -> ->. exfalso. eapply Hothers; eauto.
    + injection Heq' as -> -> -> ->. exfalso. eapply Hothers; eauto.
    + eapply Hown; eassumption.
  - intros j h' a' old Hj.
    destruct (insert_lookup_cases ts i j _ _ Hlt Hj) as [[_ Heq]|[_ Hj']];
      [discriminate|].
    eapply Hlinker. exact Hj'.
  - intros j thr Hj.
    destruct (insert_lookup_cases ts i j _ _ Hlt Hj) as [[_ ->]|[_ Hj']];
      [exact I|].
    eapply Hread. exact Hj'.
Qed.

(** The [atomic_exchange] on [g_images_tail]: the block is published. *)
Lemma conc_inv_exchange E st pub ts (i : nat) h a target :
  conc_inv E (mkConfig st pub ts) ->
  ts !! i = Some (AddFill h a target field_writes) ->
  conc_inv E (mkConfig (with_tail (Alloc a) st) (pub ++ [a])
                (<[i := AddLink h a (g_images_tail st)]> ts)).
Proof.
  intros [Hg Hnd Htail Hlink Hlast Hcomp Hfill Hown Hlinker Hread].
  simpl in *. intros Hi.
  assert (Hlt : (i < length ts)%nat) by (eapply lookup_lt_Some; exact Hi).
  destruct (Hfill i h a target field_writes Hi)
    as (Ha & Himg & _ & s & errs & Hparse).
  pose proof (parse_ok_fields _ _ _ _ _ _ _ Hparse)
    as (_ & _ & _ & _ & _ & _ & _ & Hicr & Hnext & _).
  rewrite partial_image_full in Himg by exact Hicr.
  rewrite Htail, last_ptr_ptr_at.
  constructor; simpl; try assumption.
  - apply NoDup_app. split_and!; [exact Hnd| |apply NoDup_singleton].
    intros x Hx Hx'. apply list_elem_of_singleton in Hx'. congruence.
  - symmetry. apply last_ptr_snoc.
  - intros j b Hj.
    destruct (decide (j < length pub)%nat) as [Hjl|Hjl].
    + rewrite lookup_app_l in Hj by exact Hjl.
      rewrite ptr_at_app by lia.
      destruct (Hlink j b Hj) as (d & Hd & Hcase).
      exists d. split; [destruct (ptr_at pub j); exact Hd|].
      destruct Hcase as [Hn|(Hn & t0 & h0 & Ht0)]; [now left|right].
      split; [exact Hn|]. exists t0, h0.
      rewrite list_lookup_insert_ne; [exact Ht0|].
      intros ->. rewrite Hi in Ht0. discriminate.
    + assert (j = length pub).
      { apply lookup_lt_Some in Hj. rewrite length_app in Hj. simpl in Hj. lia. }
      subst j. rewrite list_lookup_middle in Hj by reflexivity.
      injection Hj as <-. rewrite ptr_at_app by lia.
      destruct Hlast as (d & Hd & Hn). rewrite last_ptr_ptr_at in Hd.
      exists d. split; [destruct (ptr_at pub (length pub)); exact Hd|].
      right. split; [exact Hn|]. exists i, h.
      now apply list_lookup_insert_eq.
  - rewrite last_ptr_snoc. exists target. split; [exact Himg|exact Hnext].
  - intros b Hb. apply elem_of_app in Hb as [Hb|Hb].
    + exact (Hcomp b Hb).
    + apply list_elem_of_singleton in Hb. subst b.
      exists target. split; [exact Himg|].
      exists h, s, target, errs. split; [exact Hparse|reflexivity].
  - intros j h' a' target' k' Hj.
    destruct (insert_lookup_cases ts i j _ _ Hlt Hj) as [[_ Heq]|[Hne Hj']];
      [discriminate|].
    destruct (Hfill j h' a' target' k' Hj') as (H1 & H2 & H3 & H4).
    split_and!; try assumption.
    intros Hin. apply elem_of_app in Hin as [Hin|Hin]; [contradiction|].
    apply list_elem_of_singleton in Hin. subst a'.
    apply Hne. eapply Hown; eassumption.
  - intros j j' h1 a1 tg1 k1 h2 tg2 k2 Hj Hj'.
    destruct (insert_lookup_cases ts i j _ _ Hlt Hj) as [[_ Heq]|[_ Hj1]];
      [discriminate|].
    destruct (insert_lookup_cases ts i j' _ _ Hlt Hj') as [[_ Heq]|[_ Hj2]];
      [discriminate|].
    eapply Hown; eassumption.
  - intros j h' a' old Hj.
    destruct (insert_lookup_cases ts i j _ _ Hlt Hj) as [[_ Heq]|[_ Hj']].
    + injection Heq as -> -> ->. exists (length pub).
      split; [now apply list_lookup_middle|]. now rewrite ptr_at_app by lia.
    + destruct (Hlinker j h' a' old Hj') as (n & Hn & ->).
      exists n. split; [now apply lookup_app_l_Some|].
      apply lookup_lt_Some in Hn. now rewrite ptr_at_app by lia.
  - intros j thr Hj. apply reader_inv_app.
    destruct (insert_lookup_cases ts i j _ _ Hlt Hj) as [[_ ->]|[_ Hj']];
      [exact I|].
    eapply Hread. exact Hj'.
Qed.

(** The [atomic_store] into the old tail's link. *)
Lemma conc_inv_link E st pub ts (i : nat) h a oldTail :
  conc_inv E (mkConfig st pub ts) ->
  ts !! i = Some (AddLink h a oldTail) ->
  conc_inv E
    (mkConfig
       (let st' := update st oldTail (set_next (Alloc a)) in
        if h =? dso_handle E then with_self_image (Alloc a) st' else st')
       pub (<[i := AddDone]> ts)).
Proof.
  intros [Hg Hnd Htail Hlink Hlast Hcomp Hfill Hown Hlinker Hread].
  simpl in *. intros Hi.
  assert (Hlt : (i < length ts)%nat) by (eapply lookup_lt_Some; exact Hi).
  destruct (Hlinker i h a oldTail Hi) as (n & Hn & ->).
  assert (Hnl : (n < length pub)%nat) by (eapply lookup_lt_Some; exact Hn).
  set (st' := update st (ptr_at pub n) (set_next (Alloc a))).
  set (st'' := if h =? dso_handle E then with_self_image (Alloc a) st' else st').
  assert (Hderef : forall p, deref st'' p =
            if decide (ptr_at pub n = p)
            then set_next (Alloc a) <$> deref st p else deref st p).
  { intros p. rewrite <- deref_update. unfold st'', st'.
    destruct (h =? dso_handle E); [destruct p|]; reflexivity. }
  assert (Himages : forall b, images st'' !! b =
            if decide (ptr_at pub n = Alloc b)
            then set_next (Alloc a) <$> images st !! b else images st !! b)
    by (intros b; exact (Hderef (Alloc b))).
  assert (Hglob : g_all_image_infos st'' = g_all_image_infos st /\
                  g_images_tail st'' = g_images_tail st).
  { unfold st'', st'.
    destruct (h =? dso_handle E); destruct (ptr_at pub n); split; reflexivity. }
  destruct Hglob as (Hg'' & Htail'').
  clearbody st''. clear st'.
  constructor; simpl.
  - now rewrite Hg''.
  - exact Hnd.
  - now rewrite Htail''.
  - intros j b Hj. destruct (Hlink j b Hj) as (d & Hd & Hcase).
    assert (Hjl : (j < length pub)%nat) by (eapply lookup_lt_Some; exact Hj).
    rewrite Hderef, Hd.
    destruct (decide (ptr_at pub n = ptr_at pub j)) as [Heq|Hne].
    + apply ptr_at_inj in Heq; [|exact Hnd|lia|lia]. subst j.
      rewrite Hn in Hj. injection Hj as <-.
      eexists. split; [reflexivity|]. now left.
    + exists d. split; [reflexivity|].
      destruct Hcase as [Hnx|(Hnx & t0 & h0 & Ht0)]; [now left|right].
      split; [exact Hnx|]. exists t0, h0.
      rewrite list_lookup_insert_ne; [exact Ht0|].
      intros ->. rewrite Hi in Ht0. injection Ht0 as _ -> Heq.
      apply Hne. exact Heq.
  - destruct Hlast as (d & Hd & Hnx). exists d. split; [|exact Hnx].
    rewrite Hderef, decide_False; [exact Hd|].
    rewrite last_ptr_ptr_at. intros Heq.
    apply ptr_at_inj in Heq; [|exact Hnd|lia|lia]. lia.
  - intros b Hb. destruct (Hcomp b Hb) as (d & Hd & Hfi).
    rewrite Himages, Hd. case_decide.
    + eexists. split; [reflexivity|]. now apply fully_initialized_set_next.
    + eauto.
  - intros j h' a' target' k' Hj.
    destruct (insert_lookup_cases ts i j _ _ Hlt Hj) as [[_ Heq]|[Hne Hj']];
      [discriminate|].
    destruct (Hfill j h' a' target' k' Hj') as (H1 & H2 & H3 & H4).
    split_and!; try assumption.
    rewrite Himages, decide_False; [exact H2|].
    intros Heq. destruct (ptr_at_cases pub n ltac:(lia)) as [H0|(b & Hb & Hb')].
    * congruence.
    * rewrite Hb' in Heq. injection Heq as ->. contradiction.
  - intros j j' h1 a1 tg1 k1 h2 tg2 k2 Hj Hj'.
    destruct (insert_lookup_cases ts i j _ _ Hlt Hj) as [[_ Heq]|[_ Hj1]];
      [discriminate|].
    destruct (insert_lookup_cases ts i j' _ _ Hlt Hj') as [[_ Heq]|[_ Hj2]];
      [discriminate|].
    eapply Hown; eassumption.
  - intros j h' a' old Hj.
    destruct (insert_lookup_cases ts i j _ _ Hlt Hj) as [[_ Heq]|[_ Hj']];
      [discriminate|].
    eapply Hlinker. exact Hj'.
  - intros j thr Hj.
    destruct (insert_lookup_cases ts i j _ _ Hlt Hj) as [[_ ->]|[_ Hj']];
      [exact I|].
    eapply Hread. exact Hj'.
Qed.

Lemma conc_inv_start E ts :
  Forall at_entry ts -> conc_inv E (mkConfig initial_state [] ts).
Proof.
  intros Hts.
  assert (Hentry : forall (t : nat) thr, ts !! t = Some thr -> at_entry thr).
  { intros t thr Ht. rewrite Forall_forall in Hts. apply Hts.
    eapply list_elem_of_lookup_2. exact Ht. }
  constructor; simpl.
  - reflexivity.
  - apply NoDup_nil_2.
  - reflexivity.
  - intros i a Hi. discriminate.
  - exists zero_image. split; reflexivity.
  - intros a Ha. inversion Ha.
  - intros t h a target k Ht. apply Hentry in Ht. contradiction.
  - intros t t' h a target k h' target' k' Ht. apply Hentry in Ht. contradiction.
  - intros t h a old Ht. apply Hentry in Ht. contradiction.
  - intros t thr Ht. apply Hentry in Ht. destruct thr; try contradiction; exact I.
Qed.

Lemma conc_inv_step E c i c' :
  conc_inv E c -> step E c i c' -> conc_inv E c'.
Proof.
  intros Hinv Hstep.
  destruct Hstep as [st pub ts i t st' pub' t' Hi Hstep].
  pose proof Hinv as [Hg Hnd Htail Hlink Hlast Hcomp Hfill Hown Hlinker Hread].
  simpl in *.
  destruct Hstep as [st pub h s|st pub h s a Hfresh Hrefused
                    |st pub h s a target errs Hfresh Hparse
                    |st pub h a target k Hk|st pub h a target
                    |st pub h a oldTail|st pub|st pub seen
                    |st pub img d seen Himg Hd|st pub img d seen Hd].
  - eapply conc_inv_thread_only; eauto; try discriminate. exact I.
  - eapply conc_inv_thread_only; eauto; try discriminate. exact I.
  - (* calloc, and the parser accepts the header *)
    change zero_image with (partial_image 0 target).
    eapply conc_inv_store_unpublished; eauto; try discriminate.
    + intros Hin. destruct (Hcomp a Hin) as (d & Hd & _). simpl in *. congruence.
    + intros j h' a' target' k' _ Hj ->.
      destruct (Hfill j h' a target' k' Hj) as (_ & H2 & _). congruence.
    + unfold field_writes. lia.
    + rewrite Hg in Hparse. eauto.
  - (* one store of the parser *)
    destruct (Hfill i h a target k Hi) as (Ha & _ & _ & Hp).
    eapply conc_inv_store_unpublished; eauto; try discriminate.
    intros j h' a' target' k' Hne Hj ->. apply Hne.
    eapply Hown; eassumption.
  - eapply conc_inv_exchange; eassumption.
  - eapply conc_inv_link; eassumption.
  - (* a traversal loads the head *)
    eapply conc_inv_thread_only; eauto; try discriminate.
    simpl. exists O. split_and!; [reflexivity|lia| |constructor].
    unfold ksdl_get_images. destruct (pub !! O) as [a|] eqn:Ha.
    + destruct (Hlink O a Ha) as (d & Hd & Hcase). simpl in Hd.
      injection Hd as <-.
      destruct Hcase as [Hn|[Hn _]]; [right; eauto|now left].
    + apply lookup_ge_None in Ha. destruct pub; [|simpl in Ha; lia].
      destruct Hlast as (d & Hd & Hn). simpl in Hd. injection Hd as <-.
      now left.
  - (* a traversal finds the null pointer *)
    pose proof (Hread i _ Hi) as (n & Hseen & Hn & _ & Hall).
    eapply conc_inv_thread_only; eauto; try discriminate.
    simpl. eauto.
  - (* a traversal reads a descriptor *)
    pose proof (Hread i _ Hi) as (n & Hseen & Hn & Hcase & Hall).
    destruct Hcase as [->|(a & Ha & ->)]; [contradiction|].
    eapply conc_inv_thread_only; eauto; try discriminate.
    simpl. exists n, a. split_and!; try reflexivity; try assumption.
    + rewrite fmap_app, Hseen. simpl.
      erewrite take_S_r by exact Ha. now rewrite fmap_app.
    + apply Forall_app. split; [exact Hall|]. constructor; [|constructor].
      simpl. destruct (Hcomp a) as (d' & Hd' & Hfi).
      * eapply list_elem_of_lookup_2. exact Ha.
      * simpl in Hd. congruence.
  - (* a traversal loads a link *)
    pose proof (Hread i _ Hi) as (n & a & Ha & -> & Hseen & Hall).
    assert (Hnl : (n < length pub)%nat) by (eapply lookup_lt_Some; exact Ha).
    eapply conc_inv_thread_only; eauto; try discriminate.
    simpl. exists (S n). split_and!; try assumption; try lia.
    assert (Hprev : ptr_at pub (S n) = Alloc a) by (simpl; now rewrite Ha).
    destruct (pub !! S n) as [b|] eqn:Hb.
    + destruct (Hlink (S n) b Hb) as (d' & Hd' & Hcase).
      rewrite Hprev in Hd'. rewrite Hd in Hd'. injection Hd' as <-.
      destruct Hcase as [Hn|[Hn _]]; [right; eauto|now left].
    + apply lookup_ge_None in Hb. assert (S n = length pub) by lia.
      destruct Hlast as (d' & Hd' & Hn).
      rewrite last_ptr_ptr_at in Hd'. rewrite <- H, Hprev in Hd'.
      rewrite Hd in Hd'. injection Hd' as <-. now left.
Qed.

Lemma conc_reachable_inv E c : conc_reachable E c -> conc_inv E c.
Proof.
  induction 1 as [ts Hts|c i c' _ IH Hstep].
  - now apply conc_inv_start.
  - eapply conc_inv_step; eassumption.
Qed.

(** ** Concurrent insertions and traversals: consequences *)

Lemma sum_list_with_insert (f : thread -> nat) ts (i : nat) t t' :
  ts !! i = Some t ->
  (sum_list_with f (<[i := t']> ts) + f t = sum_list_with f ts + f t')%nat.
Proof.
  revert i. induction ts as [|x ts IH]; intros i Hi; [discriminate|].
  destruct i as [|i]; simpl in *.
  - injection Hi as ->. lia.
  - specialize (IH i Hi). lia.
Qed.

Lemma sum_list_with_le_length (f : thread -> nat) ts :
  (forall t, f t <= 1)%nat -> (sum_list_with f ts <= length ts)%nat.
Proof.
  intros Hf. induction ts as [|x ts IH]; simpl; [lia|].
  specialize (Hf x). lia.
Qed.

(** Every published block has a thread that is past its exchange. *)
Lemma conc_published_bound E c :
  conc_reachable E c ->
  (length (published c) <= sum_list_with published_count (threads c))%nat.
Proof.
  induction 1 as [ts Hts|c i c' _ IH Hstep]; [simpl; lia|].
  destruct Hstep as [st pub ts i t st' pub' t' Hi Hstep]. simpl in *.
  pose proof (sum_list_with_insert published_count ts i t t' Hi) as Hsum.
  destruct Hstep; simpl in *; rewrite ?length_app; simpl; lia.
Qed.

(** The list, read in one go: it is a prefix of the published blocks and
    ends in a null link. *)
Lemma conc_inv_chain E c :
  conc_inv E c ->
  exists n : nat,
    linked (images (world c)) (next (g_head_dummy (world c)))
      (take n (published c)).
Proof.
  intros [Hg Hnd Htail Hlink Hlast Hcomp Hfill Hown Hlinker Hread].
  destruct c as [st pub ts]. simpl in *.
  assert (Hfrom : forall (k j : nat), (j + k = length pub)%nat ->
            exists d (m : nat), deref st (ptr_at pub j) = Some d /\
              linked (images st) (next d) (take m (drop j pub))).
  { induction k as [|k IH]; intros j Hj.
    - destruct Hlast as (d & Hd & Hn). rewrite last_ptr_ptr_at in Hd.
      replace j with (length pub) by lia.
      exists d, O. split; [exact Hd|]. simpl. exact Hn.
    - destruct (lookup_lt_is_Some_2 pub j ltac:(lia)) as [a Ha].
      destruct (Hlink j a Ha) as (d & Hd & Hcase).
      destruct Hcase as [Hn|[Hn _]].
      + destruct (IH (S j) ltac:(lia)) as (d' & m & Hd' & Hl').
        simpl in Hd'. rewrite Ha in Hd'. simpl in Hd'.
        exists d, (S m). split; [exact Hd|].
        rewrite (drop_S _ _ _ Ha). simpl. rewrite Hn.
        split; [reflexivity|]. exists d'. split; [exact Hd'|exact Hl'].
      + exists d, O. split; [exact Hd|]. simpl. exact Hn. }
  destruct (Hfrom (length pub) O ltac:(lia)) as (d & m & Hd & Hl).
  simpl in Hd. injection Hd as <-. exists m. exact Hl.
Qed.

Lemma reader_inv_seen E pub thr :
  reader_inv E pub thr ->
  (seen_by thr).*1 `prefix_of` (Alloc <$> pub) /\
  Forall (fun o : observation => fully_initialized E o.2) (seen_by thr) /\
  (reader_steps thr <= 2 * length pub + 2)%nat.
Proof.
  assert (Hpre : forall n : nat,
            (Alloc <$> take n pub) `prefix_of` (Alloc <$> pub)).
  { intros n. exists (Alloc <$> drop n pub).
    now rewrite <- fmap_app, take_drop. }
  assert (Hlen : forall (n : nat) (seen : list observation),
            seen.*1 = (Alloc <$> take n pub) ->
            length seen = length (take n pub)).
  { intros n seen Heq. apply (f_equal length) in Heq.
    now rewrite !length_fmap in Heq. }
  destruct thr as [| | | | |img seen|img seen|seen]; simpl;
    try (intros _; split_and!; [apply prefix_nil|constructor|lia]).
  - intros (n & Hseen & Hn & _ & Hall). rewrite Hseen.
    split_and!; [apply Hpre|exact Hall|].
    rewrite (Hlen n seen Hseen), length_take. lia.
  - intros (n & a & Ha & _ & Hseen & Hall). rewrite Hseen.
    split_and!; [apply Hpre|exact Hall|].
    apply lookup_lt_Some in Ha.
    rewrite (Hlen (S n) seen Hseen), length_take. lia.
  - intros (n & Hseen & Hn & Hall). rewrite Hseen.
    split_and!; [apply Hpre|exact Hall|].
    rewrite (Hlen n seen Hseen), length_take. lia.
Qed.

(** A traversal that has not finished can take its next step: the
    pointer it holds can be followed. *)
Lemma conc_reader_progress E c (t : nat) thr :
  conc_inv E c -> threads c !! t = Some thr -> is_reader thr = true ->
  (forall seen, thr <> ReadDone seen) ->
  exists c', step E c t c'.
Proof.
  intros [Hg Hnd Htail Hlink Hlast Hcomp Hfill Hown Hlinker Hread].
  destruct c as [st pub ts]. simpl in *. intros Ht Hr Hnot.
  pose proof (Hread t thr Ht) as Hinv.
  destruct thr as [| | | | |img seen|img seen|seen]; try discriminate.
  - eexists. eapply step_thread; [exact Ht|]. apply step_read_head.
  - destruct Hinv as (n & _ & _ & [->|(a & Ha & ->)] & _).
    + eexists. eapply step_thread; [exact Ht|]. apply step_read_end.
    + destruct (Hcomp a) as (d & Hd & _);
        [eapply list_elem_of_lookup_2; exact Ha|].
      eexists. eapply step_thread; [exact Ht|].
      apply (step_read_visit E st pub (Alloc a) d); [discriminate|exact Hd].
  - destruct Hinv as (n & a & Ha & -> & _).
    destruct (Hcomp a) as (d & Hd & _);
      [eapply list_elem_of_lookup_2; exact Ha|].
    eexists. eapply step_thread; [exact Ht|].
    apply (step_read_next E st pub (Alloc a) d). exact Hd.
  - exfalso. eapply Hnot. reflexivity.
Qed.

(** Each step of a traversal advances its step count by one; a step of
    another thread leaves it where it is. *)
Lemma conc_reader_counts E c (t u : nat) thr c' :
  threads c !! t = Some thr -> is_reader thr = true -> step E c u c' ->
  length (threads c') = length (threads c) /\
  if decide (u = t)
  then exists thr', threads c' !! t = Some thr' /\ is_reader thr' = true /\
         reader_steps thr' = S (reader_steps thr)
  else threads c' !! t = Some thr.
Proof.
  intros Ht Hr Hstep.
  destruct Hstep as [st pub ts u t0 st' pub' t' Hu Hstep]. simpl in *.
  split; [apply length_insert|].
  assert (Hlt : (u < length ts)%nat) by (eapply lookup_lt_Some; exact Hu).
  destruct (decide (u = t)) as [->|Hne].
  - rewrite Ht in Hu. injection Hu as <-.
    rewrite list_lookup_insert_eq by exact Hlt.
    destruct Hstep; try discriminate; simpl;
      (eexists; split_and!; [reflexivity|reflexivity|]); simpl;
      rewrite ?length_app; simpl; lia.
  - rewrite list_lookup_insert_ne by exact Hne. exact Ht.
Qed.

(** A published descriptor changes in its link at most. *)
Lemma conc_published_stable E c (i : nat) c' a d :
  conc_inv E c -> step E c i c' ->
  a ∈ published c -> images (world c) !! a = Some d ->
  exists d', images (world c') !! a = Some d' /\ same_but_next d' d.
Proof.
  intros [Hg Hnd Htail Hlink Hlast Hcomp Hfill Hown Hlinker Hread] Hstep.
  destruct Hstep as [st pub ts i t st' pub' t' Hi Hstep]. simpl in *.
  intros Ha Hd.
  destruct Hstep as [st pub h s|st pub h s b Hfresh Hrefused
                    |st pub h s b target errs Hfresh Hparse
                    |st pub h b target k Hk|st pub h b target
                    |st pub h b oldTail|st pub|st pub seen
                    |st pub img d0 seen Himg Hd0|st pub img d0 seen Hd0];
    simpl; try (exists d; split; [exact Hd|reflexivity]).
  - exists d. split; [|reflexivity].
    rewrite lookup_insert_ne; [exact Hd|]. congruence.
  - destruct (Hfill i h b target k Hi) as (Hb & _).
    exists d. split; [|reflexivity].
    rewrite lookup_insert_ne; [exact Hd|]. intros ->. contradiction.
  - assert (Him : images (if h =? dso_handle E
                          then with_self_image (Alloc b)
                                 (update st oldTail (set_next (Alloc b)))
                          else update st oldTail (set_next (Alloc b))) !! a
                  = deref (update st oldTail (set_next (Alloc b))) (Alloc a))
      by (destruct (h =? dso_handle E); reflexivity).
    rewrite Him, deref_update. simpl. rewrite Hd.
    case_decide; eexists; (split; [reflexivity|reflexivity]).
Qed.

(** C1.  In every configuration that insertions and traversals can reach
    under any interleaving of their steps: what a traversal has seen is
    a prefix of the published descriptors in publication order (the
    order of the exchanges on the tail pointer); every descriptor it read
    was fully initialized, all its fields but the link being those the
    parser produced; the list itself is duplicate-free and, read in one
    go, is such a prefix ending in a null link; a published descriptor
    is fully initialized and no later step changes it but in its link.
    A traversal terminates:
    while it is not done it can always take its next step, each of its
    steps is counted by [reader_steps], and that count never exceeds
    twice the number of published descriptors plus two, which the number
    of threads bounds. *)
Theorem traversal_sees_published_prefix E c :
  conc_reachable E c ->
  (forall (t : nat) thr,
     threads c !! t = Some thr ->
     (seen_by thr).*1 `prefix_of` (Alloc <$> published c) /\
     Forall (fun o : observation => fully_initialized E o.2) (seen_by thr) /\
     (reader_steps thr <= 2 * length (published c) + 2)%nat) /\
  (length (published c) <= length (threads c))%nat /\
  NoDup (published c) /\
  (exists n : nat,
     traverse (S (length (published c))) (world c)
       = Some (Alloc <$> take n (published c))) /\
  (forall a,
     a ∈ published c ->
     exists d, images (world c) !! a = Some d /\ fully_initialized E d /\
       forall (u : nat) c',
         step E c u c' ->
         exists d', images (world c') !! a = Some d' /\ same_but_next d' d) /\
  (forall (t : nat) thr,
     threads c !! t = Some thr -> is_reader thr = true ->
     (forall seen, thr <> ReadDone seen) ->
     exists c', step E c t c') /\
  (forall (t u : nat) thr c',
     threads c !! t = Some thr -> is_reader thr = true -> step E c u c' ->
     length (threads c') = length (threads c) /\
     if decide (u = t)
     then exists thr', threads c' !! t = Some thr' /\ is_reader thr' = true /\
            reader_steps thr' = S (reader_steps thr)
     else threads c' !! t = Some thr).
Proof.
  intros Hreach. pose proof (conc_reachable_inv E c Hreach) as Hinv.
  split_and!.
  - intros t thr Ht. apply reader_inv_seen. eapply inv_reader; eassumption.
  - etransitivity; [eapply conc_published_bound; exact Hreach|].
    apply sum_list_with_le_length. intros []; simpl; lia.
  - eapply inv_nodup. exact Hinv.
  - destruct (conc_inv_chain E c Hinv) as [n Hl]. exists n.
    unfold traverse, ksdl_get_images.
    apply traverse_from_linked; [exact Hl|].
    rewrite length_take. lia.
  - intros a Ha. destruct (inv_complete E c Hinv a Ha) as (d & Hd & Hfi).
    exists d. split_and!; [exact Hd|exact Hfi|].
    intros u c' Hstep. eapply conc_published_stable; eassumption.
  - intros t thr Ht Hr Hnot. eapply conc_reader_progress; eassumption.
  - intros t u thr c' Ht Hr Hstep. eapply conc_reader_counts; eassumption.
Qed.

(** ** A run of the sample *)

Lemma conc_run_reachable E c sched c' :
  conc_reachable E c -> conc_run E c sched c' -> conc_reachable E c'.
Proof.
  intros Hreach Hrun. induction Hrun as [c|c i c' sched c'' Hstep _ IH].
  - exact Hreach.
  - apply IH. eapply conc_next; eassumption.
Qed.

Lemma conc_run_subst E c c2 sched c' :
  c = c2 -> conc_run E c2 sched c' -> conc_run E c sched c'.
Proof. intros ->. tauto. Qed.

(** One step of a thread of the sample; [calloc] hands out block 100,
    or block 200 when 100 is in use. *)
Ltac sample_thread_step :=
  first
    [ eapply (step_parsed _ _ _ _ _ 100);
        [vm_compute; reflexivity | vm_compute; reflexivity]
    | eapply (step_parsed _ _ _ _ _ 200);
        [vm_compute; reflexivity | vm_compute; reflexivity]
    | eapply step_fill; unfold field_writes; lia
    | eapply step_exchange
    | eapply step_link
    | eapply step_read_head
    | eapply step_read_end
    | eapply step_read_visit; [discriminate | vm_compute; reflexivity]
    | eapply step_read_next; vm_compute; reflexivity ].

Ltac sample_run_step :=
  eapply conc_run_cons;
  [eapply step_thread; [reflexivity | sample_thread_step]
  |eapply conc_run_subst; [vm_compute; reflexivity|]].

(** On the sample run: the first traversal, which ran while the first
    descriptor was published but not yet linked, saw nothing; the second
    saw both descriptors in publication order. *)
Lemma traversal_sees_published_prefix_witness :
  exists c d1 d2,
    conc_run sample_env (mkConfig initial_state [] sample_pool)
      sample_schedule c /\
    published c = [100; 200] /\
    threads c = [AddDone; AddDone; ReadDone [];
                 ReadDone [(Alloc 100, d1); (Alloc 200, d2)]] /\
    fully_initialized sample_env d1 /\ fully_initialized sample_env d2 /\
    traverse 3 (world c) = Some [Alloc 100; Alloc 200].
Proof.
  eexists. eexists. eexists.
  match goal with |- ?run /\ _ => assert (Hrun : run) end.
  { unfold sample_schedule, sample_pool. simpl replicate. simpl app.
    do 48 sample_run_step. apply conc_run_nil. }
  split; [exact Hrun|].
  split; [reflexivity|]. split; [reflexivity|].
  pose proof (conc_run_reachable sample_env _ _ _
                (conc_start sample_env sample_pool
                   ltac:(repeat constructor)) Hrun) as Hreach.
  destruct (traversal_sees_published_prefix sample_env _ Hreach)
    as (Hseen & _).
  destruct (Hseen 3%nat _ eq_refl) as (_ & Hall & _).
  simpl in Hall. inversion Hall as [|x l H1 Hall']. subst.
  inversion Hall' as [|y l' H2 _]. subst.
  split_and!; [exact H1|exact H2|vm_compute; reflexivity].
Defined.
(** ** The parser: the TEXT segment and the uuid *)

Lemma load64_range m a : 0 <= load64 m a < 2 ^ 64.
Proof.
  unfold load64. pose proof (load32_range m a). pose proof (load32_range m (a + 4)).
  lia.
Qed.

Lemma walk_step_segment E w :
  imageVmAddr (walk_step E w)
  = (if is_text_segment E (cmdPtr w) then segment_vmaddr E (cmdPtr w)
     else imageVmAddr w) /\
  imageSize (walk_step E w)
  = (if is_text_segment E (cmdPtr w) then segment_vmsize E (cmdPtr w)
     else imageSize w) /\
  uuid_ptr (walk_step E w)
  = (if is_uuid_cmd E (cmdPtr w) then cmdPtr w + off_uuid else uuid_ptr w).
Proof.
  unfold walk_step, is_text_segment, segment_vmaddr, segment_vmsize, is_uuid_cmd.
  destruct (load32 (mem E) (cmdPtr w + off_cmd) =? LC_SEGMENT) eqn:H1.
  { apply Z.eqb_eq in H1. rewrite H1.
    destruct (strcmp_mem_eq _ _ _); split_and!; reflexivity. }
  destruct (load32 (mem E) (cmdPtr w + off_cmd) =? LC_SEGMENT_64) eqn:H2.
  { apply Z.eqb_eq in H2. rewrite H2.
    destruct (strcmp_mem_eq _ _ _); split_and!; reflexivity. }
  destruct (load32 (mem E) (cmdPtr w + off_cmd) =? LC_UUID) eqn:H3;
    [split_and!; reflexivity|].
  destruct (load32 (mem E) (cmdPtr w + off_cmd) =? LC_ID_DYLIB);
    split_and!; reflexivity.
Qed.

(** The walk leaves the address and size of the last TEXT segment it met
    and the uuid of the last uuid command. *)
Lemma walk_cmds_segment E n :
  forall w,
    let texts := filter (fun p => is_text_segment E p = true)
                   (cmd_ptrs E n (cmdPtr w)) in
    let uuids := filter (fun p => is_uuid_cmd E p = true)
                   (cmd_ptrs E n (cmdPtr w)) in
    imageVmAddr (walk_cmds E n w)
    = match last texts with
      | Some p => segment_vmaddr E p
      | None => imageVmAddr w
      end /\
    imageSize (walk_cmds E n w)
    = match last texts with
      | Some p => segment_vmsize E p
      | None => imageSize w
      end /\
    uuid_ptr (walk_cmds E n w)
    = match last uuids with
      | Some p => p + off_uuid
      | None => uuid_ptr w
      end.
Proof.
  induction n as [|n IH]; intros w; [split_and!; reflexivity|].
  cbn zeta in *. cbn [walk_cmds cmd_ptrs].
  destruct (IH (walk_step E w)) as (IH1 & IH2 & IH3).
  rewrite walk_step_cmdPtr in IH1, IH2, IH3.
  destruct (walk_step_segment E w) as (S1 & S2 & S3).
  rewrite S1 in IH1. rewrite S2 in IH2. rewrite S3 in IH3.
  rewrite IH1, IH2, IH3, !filter_cons. clear.
  destruct (decide (is_text_segment E (cmdPtr w) = true)) as [Ht|Ht];
    [|apply not_true_is_false in Ht];
    (destruct (decide (is_uuid_cmd E (cmdPtr w) = true)) as [Hu|Hu];
     [|apply not_true_is_false in Hu]);
    rewrite ?Ht, ?Hu, ?last_cons;
    repeat match goal with
           | |- context [last ?l] => destruct (last l)
           end;
    split_and!; reflexivity.
Qed.

(** X1.  A descriptor the parser fills carries the [vmaddr] and [vmsize]
    of the last TEXT segment command among the [ncmds] commands of the
    image, each read with the layout the command's kind selects; both are
    zero when the image has no TEXT segment. *)
Theorem parser_takes_last_text_segment E g h s buf d errs :
  ksdl_getBinaryImageForHeader E g h s buf = (true, d, errs) ->
  match last (text_segment_cmds E h) with
  | Some p => vmAddress d = segment_vmaddr E p /\ size d = segment_vmsize E p
  | None => vmAddress d = 0 /\ size d = 0
  end.
Proof.
  intros Hp. destruct (parse_ok_fields E g h s buf d errs Hp)
    as (_ & Hvm & Hsz & _).
  rewrite Hvm, Hsz. unfold parsed_walk, text_segment_cmds.
  destruct (walk_cmds_segment E (header_ncmds E h)
              (mkWalk (ksdl_first_cmd_after_header E h) 0 0 0 0))
    as (H1 & H2 & _).
  cbn [cmdPtr imageVmAddr imageSize] in H1, H2. rewrite H1, H2.
  destruct (last _); split; reflexivity.
Qed.

Lemma parser_takes_last_text_segment_witness :
  last (text_segment_cmds sample_env 0x1000) = Some 0x1020 /\
  vmAddress (ksdl_getBinaryImageForHeader sample_env None 0x1000 0
               zero_image).1.2 = 0x1000 /\
  size (ksdl_getBinaryImageForHeader sample_env None 0x1000 0
          zero_image).1.2 = 0x400.
Proof.
  split; [vm_compute; reflexivity|].
  exact (parser_takes_last_text_segment sample_env None 0x1000 0 zero_image
           _ (ksdl_getBinaryImageForHeader sample_env None 0x1000 0
                zero_image).2 ltac:(vm_compute; reflexivity)).
Defined.

(** X2.  The [uuid] field of a descriptor the parser fills points at the
    16 bytes of the last uuid command among the [ncmds] commands of the
    image, and is null when the image has none. *)
Theorem parser_takes_last_uuid E g h s buf d errs :
  ksdl_getBinaryImageForHeader E g h s buf = (true, d, errs) ->
  uuid d = match last (uuid_cmds E h) with
           | Some p => p + off_uuid
           | None => 0
           end.
Proof.
  intros Hp. destruct (parse_ok_fields E g h s buf d errs Hp)
    as (_ & _ & _ & _ & Hu & _).
  rewrite Hu. unfold parsed_walk, uuid_cmds.
  destruct (walk_cmds_segment E (header_ncmds E h)
              (mkWalk (ksdl_first_cmd_after_header E h) 0 0 0 0))
    as (_ & _ & H3).
  exact H3.
Qed.

Lemma parser_takes_last_uuid_witness :
  uuid_cmds sample_env 0x1000 = [0x1068] /\
  uuid_cmds sample_env 0x2000 = [] /\
  uuid (ksdl_getBinaryImageForHeader sample_env None 0x1000 0
          zero_image).1.2 = 0x1070 /\
  uuid (ksdl_getBinaryImageForHeader sample_env None 0x2000 0
          zero_image).1.2 = 0.
Proof.
  split; [vm_compute; reflexivity|]. split; [vm_compute; reflexivity|].
  split.
  - exact (parser_takes_last_uuid sample_env None 0x1000 0 zero_image
             _ (ksdl_getBinaryImageForHeader sample_env None 0x1000 0
                  zero_image).2 ltac:(vm_compute; reflexivity)).
  - exact (parser_takes_last_uuid sample_env None 0x2000 0 zero_image
             _ (ksdl_getBinaryImageForHeader sample_env None 0x2000 0
                  zero_image).2 ltac:(vm_compute; reflexivity)).
Defined.

(** ** [compute_slide] *)

Lemma find_head_filter (f : Z -> bool) (l : list Z) :
  List.find f l = head (filter (fun p => f p = true) l).
Proof.
  induction l as [|a l IH]; [reflexivity|].
  cbn [List.find]. rewrite filter_cons.
  destruct (decide (f a = true)) as [Ha|Ha].
  - rewrite Ha. reflexivity.
  - apply not_true_is_false in Ha. rewrite Ha. exact IH.
Qed.

Lemma compute_slide_loop_spec E h n :
  forall p,
    compute_slide_loop E n h p
    = match head (filter (fun q => is_text_segment E q = true)
                    (cmd_ptrs E n p)) with
      | Some q => sint64 (wrap64 (h - segment_vmaddr E q))
      | None => 0
      end.
Proof.
  induction n as [|n IH]; intros p; [reflexivity|].
  cbn [compute_slide_loop cmd_ptrs]. cbv zeta. rewrite filter_cons.
  destruct (decide (is_text_segment E p = true)) as [Ht|Ht].
  - cbn [head]. unfold is_text_segment in Ht. unfold segment_vmaddr.
    apply andb_true_iff in Ht as [Hc Hs]. rewrite Hs, Hc, !andb_true_r.
    destruct (load32 (mem E) (p + off_cmd) =? LC_SEGMENT); reflexivity.
  - rewrite <- IH. apply not_true_is_false in Ht. unfold is_text_segment in Ht.
    destruct (load32 (mem E) (p + off_cmd) =? LC_SEGMENT),
      (load32 (mem E) (p + off_cmd) =? LC_SEGMENT_64),
      (strcmp_mem_eq (mem E) (p + off_segname) SEG_TEXT);
      cbn [andb orb] in *; try discriminate; reflexivity.
Qed.

Lemma sint64_wrap64 x : wrap64 (sint64 (wrap64 x)) = wrap64 x.
Proof.
  unfold sint64, wrap64.
  pose proof (Z.mod_pos_bound x (2 ^ 64) ltac:(lia)).
  destruct (x mod 2 ^ 64 <? 2 ^ 63).
  - apply Z.mod_small. lia.
  - replace (x mod 2 ^ 64 - 2 ^ 64) with (x mod 2 ^ 64 + (-1) * 2 ^ 64) by lia.
    rewrite Z.mod_add by lia. apply Z.mod_small. lia.
Qed.

Lemma slide_round_trip h v :
  0 <= h < 2 ^ 64 ->
  wrap64 (wrap64 v + wrap64 (sint64 (wrap64 (h - v)))) = h.
Proof.
  intros Hh. rewrite sint64_wrap64. unfold wrap64.
  rewrite <- Z.add_mod by lia.
  replace (v + (h - v)) with h by lia. apply Z.mod_small. lia.
Qed.

(** X3.  [compute_slide] is zero for a null header, for a header whose
    magic is not recognized and for an image without TEXT segment;
    otherwise it is the header address minus the [vmaddr] of the first
    TEXT segment command, as a signed 64-bit number, so that adding it to
    that [vmaddr] gives the header address back. *)
Theorem compute_slide_first_text_segment E h :
  - 2 ^ 63 <= compute_slide E h < 2 ^ 63 /\
  (ksdl_first_cmd_after_header E h = 0 -> compute_slide E h = 0) /\
  (ksdl_first_cmd_after_header E h <> 0 ->
   match head (text_segment_cmds E h) with
   | Some q =>
       compute_slide E h = sint64 (wrap64 (h - segment_vmaddr E q)) /\
       (0 <= h < 2 ^ 64 ->
        wrap64 (wrap64 (segment_vmaddr E q) + wrap64 (compute_slide E h)) = h)
   | None => compute_slide E h = 0
   end).
Proof.
  unfold compute_slide, text_segment_cmds.
  rewrite compute_slide_loop_spec.
  split; [|split].
  - destruct (_ =? 0); [lia|].
    destruct (head _); [|lia].
    unfold sint64, wrap64.
    match goal with
    | |- context [?x mod 2 ^ 64] =>
        pose proof (Z.mod_pos_bound x (2 ^ 64) ltac:(lia));
        destruct (x mod 2 ^ 64 <? 2 ^ 63) eqn:Hlt
    end; lia.
  - intros ->. reflexivity.
  - intros Hne. apply Z.eqb_neq in Hne. rewrite Hne.
    destruct (head _) as [q|]; [|reflexivity].
    split; [reflexivity|]. intros Hh. now apply slide_round_trip.
Qed.

Lemma compute_slide_first_text_segment_witness :
  head (text_segment_cmds sample_env 0x1000) = Some 0x1020 /\
  compute_slide sample_env 0x1000
  = sint64 (wrap64 (0x1000 - segment_vmaddr sample_env 0x1020)) /\
  wrap64 (wrap64 (segment_vmaddr sample_env 0x1020)
          + wrap64 (compute_slide sample_env 0x1000)) = 0x1000.
Proof.
  split; [vm_compute; reflexivity|].
  destruct (compute_slide_first_text_segment sample_env 0x1000)
    as (_ & _ & H).
  specialize (H ltac:(vm_compute; discriminate)).
  replace (head (text_segment_cmds sample_env 0x1000)) with (Some 0x1020) in H
    by (vm_compute; reflexivity).
  destruct H as [H1 H2]. split; [exact H1|]. apply H2. lia.
Defined.

Lemma segment_vmaddr_range E p : 0 <= segment_vmaddr E p < 2 ^ 64.
Proof.
  unfold segment_vmaddr. destruct (_ =? _).
  - pose proof (load32_range (mem E) (p + off_seg_vmaddr)). lia.
  - apply load64_range.
Qed.

(** The errors of a successful parse: the mismatch of the sanity check,
    or none. *)
Lemma parse_ok_errs E g h s buf d errs :
  ksdl_getBinaryImageForHeader E g h s buf = (true, d, errs) ->
  exists n, name d = Some n /\
    errs = if wrap64 (wrap64 (vmAddress d) + wrap64 s) =? h
           then [] else [ErrHeaderMismatch n].
Proof.
  intros Hp. pose proof (parse_ok_fields E g h s buf d errs Hp)
    as (_ & Hvm & _ & Hn & _).
  rewrite parse_result in Hp.
  destruct (ksdl_first_cmd_after_header E h =? 0); [discriminate|].
  destruct (get_path E g h) as [n|]; [|discriminate].
  cbv zeta in Hp. injection Hp as _ <-.
  exists n. split; [exact Hn|]. rewrite Hvm. reflexivity.
Qed.

Lemma parse_ok_last_text E g h s buf d errs :
  ksdl_getBinaryImageForHeader E g h s buf = (true, d, errs) ->
  vmAddress d = match last (text_segment_cmds E h) with
                | Some p => segment_vmaddr E p
                | None => 0
                end.
Proof.
  intros Hp. destruct (parse_ok_fields E g h s buf d errs Hp) as (_ & Hvm & _).
  rewrite Hvm. unfold parsed_walk, text_segment_cmds.
  destruct (walk_cmds_segment E (header_ncmds E h)
              (mkWalk (ksdl_first_cmd_after_header E h) 0 0 0 0)) as (H1 & _).
  exact H1.
Qed.

Lemma compute_slide_head_text E h :
  ksdl_first_cmd_after_header E h <> 0 ->
  compute_slide E h = match head (text_segment_cmds E h) with
                      | Some q => sint64 (wrap64 (h - segment_vmaddr E q))
                      | None => 0
                      end.
Proof.
  intros Hc. unfold compute_slide, text_segment_cmds.
  apply Z.eqb_neq in Hc. rewrite Hc. apply compute_slide_loop_spec.
Qed.

(** X4.  When the parser is given the slide [compute_slide] finds for the
    same header, as [register_dyld_images] does, its sanity check
    compares the first TEXT segment with the last: nothing is logged
    exactly when the image has a TEXT segment and the first and the last
    one declare the same address.  An image without TEXT segment is
    always reported. *)
Theorem slide_check_compares_first_and_last_text E g h buf d errs :
  0 <= h < 2 ^ 64 ->
  ksdl_getBinaryImageForHeader E g h (compute_slide E h) buf
    = (true, d, errs) ->
  (errs = [] <->
   exists q q', head (text_segment_cmds E h) = Some q /\
     last (text_segment_cmds E h) = Some q' /\
     segment_vmaddr E q = segment_vmaddr E q') /\
  (errs <> [] -> exists n, name d = Some n /\ errs = [ErrHeaderMismatch n]).
Proof.
  intros Hh Hp.
  destruct (parse_ok_errs E g h _ buf d errs Hp) as (n & Hn & Herrs).
  split; [|intros Hne; exists n; split; [exact Hn|];
           rewrite Herrs in Hne |- *; destruct (_ =? h); congruence].
  pose proof (parse_ok_last_text E g h _ buf d errs Hp) as Hvm.
  destruct (parse_ok_fields E g h _ buf d errs Hp)
    as (_ & _ & _ & _ & _ & _ & _ & _ & _ & _ & Hc).
  pose proof (compute_slide_head_text E h Hc) as Hs.
  assert (h <> 0) as Hh0.
  { intros ->. apply Hc. reflexivity. }
  destruct (head (text_segment_cmds E h)) as [q|] eqn:Hhead.
  - destruct (last (text_segment_cmds E h)) as [q'|] eqn:Hl.
    2:{ apply last_None in Hl. rewrite Hl in Hhead. discriminate. }
    pose proof (segment_vmaddr_range E q) as Rq.
    pose proof (segment_vmaddr_range E q') as Rq'.
    assert (Hsum : wrap64 (wrap64 (vmAddress d) + wrap64 (compute_slide E h))
                   = wrap64 (h + (segment_vmaddr E q' - segment_vmaddr E q))).
    { rewrite Hs, Hvm, sint64_wrap64. unfold wrap64.
      rewrite <- Z.add_mod by lia. f_equal. lia. }
    rewrite Hsum in Herrs. rewrite Herrs.
    assert (wrap64 (h + (segment_vmaddr E q' - segment_vmaddr E q)) = h
            <-> segment_vmaddr E q = segment_vmaddr E q') as Hiff.
    { unfold wrap64. split.
      - intros Hm.
        destruct (Z_lt_le_dec (h + (segment_vmaddr E q' - segment_vmaddr E q)) 0).
        + replace (h + (segment_vmaddr E q' - segment_vmaddr E q))
            with (h + (segment_vmaddr E q' - segment_vmaddr E q) + 2 ^ 64
                  + (-1) * 2 ^ 64) in Hm by lia.
          rewrite Z.mod_add, Z.mod_small in Hm by lia. lia.
        + destruct (Z_lt_le_dec
                      (h + (segment_vmaddr E q' - segment_vmaddr E q)) (2 ^ 64)).
          * rewrite Z.mod_small in Hm by lia. lia.
          * replace (h + (segment_vmaddr E q' - segment_vmaddr E q))
              with (h + (segment_vmaddr E q' - segment_vmaddr E q) - 2 ^ 64
                    + 1 * 2 ^ 64) in Hm by lia.
            rewrite Z.mod_add, Z.mod_small in Hm by lia. lia.
      - intros ->. rewrite Z.sub_diag, Z.add_0_r. apply Z.mod_small. lia. }
    split.
    + intros He. exists q, q'. split_and!; [reflexivity..|].
      apply Hiff. destruct (_ =? h) eqn:Heq; [|discriminate].
      now apply Z.eqb_eq in Heq.
    + intros (q1 & q2 & [= <-] & [= <-] & Heq).
      apply Hiff in Heq. apply Z.eqb_eq in Heq. rewrite Heq. reflexivity.
  - destruct (last (text_segment_cmds E h)) as [q'|] eqn:Hl.
    { apply head_None in Hhead. rewrite Hhead in Hl. discriminate. }
    rewrite Hvm, Hs in Herrs.
    replace (wrap64 (wrap64 0 + wrap64 0)) with 0 in Herrs by reflexivity.
    destruct (0 =? h) eqn:H0; [apply Z.eqb_eq in H0; lia|].
    split; [rewrite Herrs; discriminate|].
    intros (q1 & _ & [=] & _).
Qed.

Lemma slide_check_compares_first_and_last_text_witness :
  (ksdl_getBinaryImageForHeader sample_env None 0x2000
     (compute_slide sample_env 0x2000) zero_image).2 = [] <->
  exists q q', head (text_segment_cmds sample_env 0x2000) = Some q /\
    last (text_segment_cmds sample_env 0x2000) = Some q' /\
    segment_vmaddr sample_env q = segment_vmaddr sample_env q'.
Proof.
  apply (slide_check_compares_first_and_last_text sample_env None 0x2000
           zero_image
           (ksdl_getBinaryImageForHeader sample_env None 0x2000
              (compute_slide sample_env 0x2000) zero_image).1.2).
  - lia.
  - vm_compute. reflexivity.
Defined.

(** ** Calls as sequences of primitive changes *)

Lemma prim_step_registry E st st' l :
  registry_list st l -> prim_step E st st' ->
  exists l', registry_list st' l' /\ l `prefix_of` l'.
Proof.
  intros Hreg Hstep. destruct Hstep as [newImage h s st Hf|vm st|st st' H1 H2 H3 _].
  - destruct (add_image_registry E newImage h s st l Hreg Hf) as (l' & Hreg' & Hl').
    exists l'. split; [exact Hreg'|].
    destruct Hl' as [->|(a & _ & ->)]; [reflexivity|now apply prefix_app_r].
  - exists l. split; [|reflexivity].
    apply fmap_registry_list; [|exact Hreg]. apply mark_unloaded_next.
  - exists l. split; [|reflexivity]. now apply (registry_list_frame st).
Qed.

Lemma run_call_prims E c st st' l :
  registry_list st l -> call_allowed E st c -> run_call E c st = Some st' ->
  rtc (prim_step E) st st'.
Proof.
  intros Hreg Hok Hrun. destruct c as [newImage h s|h s|new1 new2];
    cbn [run_call] in Hrun.
  - injection Hrun as <-. apply rtc_once. now constructor.
  - rewrite (remove_image_spec E _ h s st l Hreg) in Hrun
      by (rewrite (registry_size st l Hreg); lia).
    injection Hrun as <-.
    destruct (ksdl_getBinaryImageForHeader _ _ _ _ _) as [[[] buf] errs];
      [apply rtc_once; constructor|apply rtc_refl].
  - injection Hrun as <-. destruct Hok as [Hf1 Hf2].
    unfold ksdl_binary_images_initialize.
    destruct (is_image_list_initialized st); [apply rtc_refl|].
    unfold register_for_changes, register_dyld_images.
    destruct (task_dyld_info E) as [infos|] eqn:Hinfo.
    + specialize (Hf2 infos eq_refl).
      set (st1 := with_all_image_infos (Some infos)
                    (record_dyld_call TaskInfoDyld (with_initialized true st)))
        in *.
      assert (H01 : prim_step E st st1) by (now apply prim_frame).
      assert (H12 : prim_step E st1
                      (add_image E new1 (dyldImageLoadAddress infos)
                         (compute_slide E (dyldImageLoadAddress infos)) st1))
        by (now apply prim_add).
      set (st2 := add_image E new1 _ _ st1) in *.
      assert (Hend : forall st3, rtc (prim_step E) st st3 ->
                rtc (prim_step E) st
                  (record_dyld_call RegisterFuncForRemoveImage
                     (record_dyld_call RegisterFuncForAddImage st3))).
      { intros st3 H3. eapply rtc_r; [exact H3|]. now apply prim_frame. }
      assert (H02 : rtc (prim_step E) st st2)
        by (eapply rtc_l; [exact H01|]; now apply rtc_once).
      destruct (TARGET_OS_SIMULATOR E); [|now apply Hend].
      destruct (infoArray infos) as [[simHeader filePath]|]; [|now apply Hend].
      destruct (strstr filePath _); [|now apply Hend].
      apply Hend. eapply rtc_r; [exact H02|]. now apply prim_add.
    + apply rtc_once. now apply prim_frame.
Qed.

(** An invariant of the primitive changes on well-formed registries
    holds in every reachable state. *)
Lemma reachable_prims_ind E (P : state -> Prop) :
  P initial_state ->
  (forall st st' l, registry_list st l -> P st -> prim_step E st st' -> P st') ->
  forall st, reachable E st -> P st.
Proof.
  intros Hinit Hstep st Hreach.
  induction Hreach as [|st c st' Hreach IH Hok Hrun]; [exact Hinit|].
  destruct (reachable_registry E st Hreach) as [l Hreg].
  pose proof (run_call_prims E c st st' l Hreg Hok Hrun) as Hrtc.
  clear Hok Hrun Hreach. revert l Hreg IH.
  induction Hrtc as [st|st st1 st2 H1 _ IH2]; intros l Hreg IH; [exact IH|].
  destruct (prim_step_registry E st st1 l Hreg H1) as (l1 & Hreg1 & _).
  apply (IH2 l1 Hreg1). now apply (Hstep st st1 l).
Qed.

Lemma linked_unique h p l1 :
  forall l2, linked h p l1 -> linked h p l2 -> l1 = l2.
Proof.
  revert p. induction l1 as [|a l1 IH]; intros p [|b l2]; cbn [linked].
  - reflexivity.
  - intros -> [? _]. discriminate.
  - intros [-> _] ?. discriminate.
  - intros [-> (d & Hd & Hl)] [[= <-] (d' & Hd' & Hl')].
    rewrite Hd in Hd'. injection Hd' as <-. f_equal. eapply IH; eassumption.
Qed.

Lemma registry_list_unique st l1 l2 :
  registry_list st l1 -> registry_list st l2 -> l1 = l2.
Proof. intros (_ & H1 & _) (_ & H2 & _). eapply linked_unique; eassumption. Qed.

(** ** What every registered descriptor is *)

Lemma add_image_descriptors E newImage h s st l b d' :
  registry_list st l -> calloc_fresh st newImage ->
  images (add_image E newImage h s st) !! b = Some d' ->
  (exists d, images st !! b = Some d /\ same_but_next d' d) \/
  (newImage = Some b /\ images st !! b = None /\
   exists errs,
     ksdl_getBinaryImageForHeader E (g_all_image_infos st) h s zero_image
       = (true, d', errs)).
Proof.
  intros Hreg Hfresh Hd'.
  destruct (images st !! b) as [d|] eqn:Hb.
  - left. exists d. split; [reflexivity|].
    destruct (add_image_keeps_descriptors E newImage h s st l b d Hreg Hfresh Hb)
      as (d'' & Hd'' & Hs). congruence.
  - right. destruct newImage as [a|]; [|cbn [add_image] in Hd'; congruence].
    destruct (ksdl_getBinaryImageForHeader E (g_all_image_infos st) h s
                zero_image) as [[ok buf] errs] eqn:Hparse.
    destruct ok.
    + destruct (add_image_success E a h s st l buf errs Hreg Hfresh Hparse)
        as (Hreg' & Ha & _).
      assert (b ∈ l ++ [a]) as Hin.
      { destruct Hreg' as (_ & _ & _ & Hdom). apply Hdom. eauto. }
      apply elem_of_app in Hin as [Hin|Hin].
      * destruct Hreg as (_ & _ & _ & Hdom). apply Hdom in Hin as [? ?].
        congruence.
      * apply list_elem_of_singleton in Hin. subst b.
        rewrite Ha in Hd'. injection Hd' as <-. eauto.
    + rewrite add_image_no_effect in Hd';
        [congruence|exact Hfresh|right; now rewrite Hparse].
Qed.

Lemma parsed_from_header_evolves E d d' :
  parsed_from_header E d -> evolves d d' -> parsed_from_header E d'.
Proof.
  intros (g & s & buf & errs & Hp & Hev) Hev'.
  destruct (evolves_fields d d' Hev') as (Hh & _).
  exists g, s, buf, errs. rewrite Hh. split; [exact Hp|].
  eapply evolves_trans; eassumption.
Qed.

Lemma reachable_parsed E st a d :
  reachable E st -> images st !! a = Some d -> parsed_from_header E d.
Proof.
  intros Hreach. revert a d. pattern st. revert st Hreach.
  apply reachable_prims_ind.
  - intros a d Hd. cbn [images initial_state] in Hd.
    rewrite lookup_empty in Hd. discriminate.
  - intros st st' l Hreg IH Hstep a d Hd.
    destruct Hstep as [newImage h s st Hf|vm st|st st' H1 _ _ _].
    + destruct (add_image_descriptors E newImage h s st l a d Hreg Hf Hd)
        as [(d0 & Hd0 & Hs)|(_ & _ & errs & Hparse)].
      * eapply parsed_from_header_evolves; [exact (IH a d0 Hd0)|].
        now apply same_but_next_evolves.
      * destruct (parse_ok_fields _ _ _ _ _ _ _ Hparse) as (Hh & _).
        exists (g_all_image_infos st), s, d, errs. rewrite Hh.
        split; [exact Hparse|apply evolves_refl].
    + cbn [images with_images] in Hd. rewrite lookup_fmap in Hd.
      destruct (images st !! a) as [d0|] eqn:Hd0; [|discriminate].
      injection Hd as <-.
      eapply parsed_from_header_evolves; [exact (IH a d0 Hd0)|].
      apply mark_unloaded_evolves.
    + rewrite H1 in Hd. exact (IH a d Hd).
Qed.

Lemma parsed_from_header_fields E d :
  parsed_from_header E d ->
  is_Some (name d) /\ header d <> 0 /\
  ksdl_first_cmd_after_header E (header d) <> 0 /\
  vmAddress d = imageVmAddr (parsed_walk E (header d)) /\
  size d = imageSize (parsed_walk E (header d)) /\
  uuid d = uuid_ptr (parsed_walk E (header d)).
Proof.
  intros (g & s & buf & errs & Hparse & Hev).
  destruct (parse_ok_fields _ _ _ _ _ _ _ Hparse)
    as (Hh & Hvm & Hsz & Hn & Hu & _ & _ & _ & _ & Hsome & Hc).
  destruct (evolves_fields buf d Hev) as (Eh & Evm & Esz & En).
  assert (Eu : uuid d = uuid buf).
  { destruct Hev as [Hev _]. apply (f_equal uuid) in Hev. exact Hev. }
  rewrite En, Evm, Esz, Eu, Hn, Hvm, Hsz, Hu.
  split_and!; try assumption; try reflexivity.
  intros H0. apply Hc. rewrite H0. reflexivity.
Qed.

Lemma sample_reachable : reachable sample_env sample_state.
Proof.
  eapply reachable_call with (c := CallAddImage (Some 200) 0x2000 0);
    [eapply reachable_call with (c := CallAddImage (Some 100) 0x1000 0);
       [apply reachable_initial|vm_compute; reflexivity|reflexivity]
    |vm_compute; reflexivity|reflexivity].
Qed.

(** X5.  In every reachable state each descriptor of the registry is what
    the parser made of its own header, up to the link and the unloaded
    flag: it has a name, its header is not null and has a recognized
    magic, and its address, size and uuid are those of the header's last
    TEXT segment and last uuid command. *)
Theorem registered_descriptors_are_parsed E st a d :
  reachable E st -> images st !! a = Some d ->
  is_Some (name d) /\ header d <> 0 /\
  ksdl_first_cmd_after_header E (header d) <> 0 /\
  match last (text_segment_cmds E (header d)) with
  | Some p => vmAddress d = segment_vmaddr E p /\ size d = segment_vmsize E p
  | None => vmAddress d = 0 /\ size d = 0
  end /\
  uuid d = match last (uuid_cmds E (header d)) with
           | Some p => p + off_uuid
           | None => 0
           end.
Proof.
  intros Hreach Hd.
  destruct (parsed_from_header_fields E d (reachable_parsed E st a d Hreach Hd))
    as (Hn & Hh & Hc & Hvm & Hsz & Hu).
  destruct (walk_cmds_segment E (header_ncmds E (header d))
              (mkWalk (ksdl_first_cmd_after_header E (header d)) 0 0 0 0))
    as (H1 & H2 & H3).
  cbn [cmdPtr imageVmAddr imageSize uuid_ptr] in H1, H2, H3.
  unfold parsed_walk in Hvm, Hsz, Hu. unfold text_segment_cmds, uuid_cmds.
  rewrite Hvm, Hsz, Hu, H1, H2, H3.
  split_and!; try assumption; [|reflexivity].
  destruct (last _); split; reflexivity.
Qed.

Lemma registered_descriptors_are_parsed_witness :
  exists d, images sample_state !! 100 = Some d /\
    is_Some (name d) /\ header d <> 0 /\
    ksdl_first_cmd_after_header sample_env (header d) <> 0 /\
    match last (text_segment_cmds sample_env (header d)) with
    | Some p => vmAddress d = segment_vmaddr sample_env p /\
                size d = segment_vmsize sample_env p
    | None => vmAddress d = 0 /\ size d = 0
    end /\
    uuid d = match last (uuid_cmds sample_env (header d)) with
             | Some p => p + off_uuid
             | None => 0
             end.
Proof.
  eexists. split; [vm_compute; reflexivity|].
  apply (registered_descriptors_are_parsed sample_env sample_state 100);
    [apply sample_reachable|vm_compute; reflexivity].
Defined.

(** ** The self image *)

Lemma add_image_self E a h s st buf errs :
  ksdl_getBinaryImageForHeader E (g_all_image_infos st) h s zero_image
    = (true, buf, errs) ->
  g_self_image (add_image E (Some a) h s st)
  = if h =? dso_handle E then Alloc a else g_self_image st.
Proof.
  intros Hparse. unfold add_image.
  change (g_all_image_infos (with_images _ st)) with (g_all_image_infos st).
  rewrite Hparse. cbn [negb]. cbv zeta.
  destruct (h =? dso_handle E);
    destruct (g_images_tail _) as [| |b]; reflexivity.
Qed.

Lemma list_filter_ext_in (P Q : Z -> Prop) `{forall x, Decision (P x)}
    `{forall x, Decision (Q x)} (l : list Z) :
  (forall x, x ∈ l -> P x <-> Q x) -> filter P l = filter Q l.
Proof.
  induction l as [|a l IH]; intros Hpq; [reflexivity|].
  rewrite !filter_cons.
  rewrite IH by (intros x Hx; apply Hpq; now right).
  destruct (decide (P a)) as [Hp|Hp], (decide (Q a)) as [Hq|Hq];
    try reflexivity; exfalso.
  - apply Hq, (Hpq a); [left|exact Hp].
  - apply Hp, (Hpq a); [left|exact Hq].
Qed.

Lemma last_with_header_ext st st' l h :
  (forall b, b ∈ l -> header <$> images st' !! b = header <$> images st !! b) ->
  last_with_header st' l h = last_with_header st l h.
Proof.
  intros Hext. unfold last_with_header.
  rewrite (list_filter_ext_in (fun a => header <$> images st' !! a = Some h)
             (fun a => header <$> images st !! a = Some h) l); [reflexivity|].
  intros b Hb. rewrite (Hext b Hb). reflexivity.
Qed.

Lemma self_image_inv E st :
  reachable E st ->
  forall l, registry_list st l ->
    g_self_image st = last_with_header st l (dso_handle E).
Proof.
  intros Hreach. pattern st. revert st Hreach. apply reachable_prims_ind.
  - intros l Hl. rewrite (registry_list_unique _ _ _ Hl initial_registry).
    reflexivity.
  - intros st st' l Hreg IH Hstep l' Hreg'.
    specialize (IH l Hreg).
    destruct Hstep as [newImage h s st Hf|vm st|st st' H1 H2 H3 H4].
    + destruct newImage as [a|];
        [|rewrite (registry_list_unique _ _ _ Hreg' Hreg); exact IH].
      destruct (ksdl_getBinaryImageForHeader E (g_all_image_infos st) h s
                  zero_image) as [[ok buf] errs] eqn:Hparse.
      destruct ok.
      * destruct (add_image_success E a h s st l buf errs Hreg Hf Hparse)
          as (Hreg2 & Ha & Hold & _).
        rewrite (registry_list_unique _ _ _ Hreg' Hreg2).
        rewrite (add_image_self E a h s st buf errs Hparse).
        destruct (parse_ok_fields _ _ _ _ _ _ _ Hparse) as (Hh & _).
        assert (Hext : last_with_header (add_image E (Some a) h s st) l
                         (dso_handle E)
                       = last_with_header st l (dso_handle E)).
        { apply last_with_header_ext. intros b Hb.
          destruct Hreg as (_ & _ & _ & Hdom).
          apply Hdom in Hb as [d Hd].
          destruct (Hold b d Hd) as (d' & Hd' & Heq).
          rewrite Hd', Hd. cbn [fmap option_fmap option_map]. f_equal.
          rewrite Heq. case_decide; reflexivity. }
        unfold last_with_header in *. rewrite filter_app, filter_cons, filter_nil.
        rewrite Ha. cbn [fmap option_fmap option_map]. rewrite Hh.
        destruct (h =? dso_handle E) eqn:Hdso.
        -- apply Z.eqb_eq in Hdso. rewrite decide_True by congruence.
           rewrite last_snoc. reflexivity.
        -- apply Z.eqb_neq in Hdso. rewrite decide_False by congruence.
           rewrite app_nil_r. rewrite Hext. exact IH.
      * rewrite add_image_no_effect in Hreg' |- *;
          try (exact Hf); try (right; now rewrite Hparse).
        rewrite (registry_list_unique _ _ _ Hreg' Hreg). exact IH.
    + pose proof (fmap_registry_list st l (mark_unloaded vm)
                    (mark_unloaded_next vm) Hreg) as Hreg2.
      rewrite (registry_list_unique _ _ _ Hreg' Hreg2).
      change (g_self_image (with_images _ st)) with (g_self_image st).
      rewrite IH. symmetry. apply last_with_header_ext. intros b _.
      cbn [images with_images]. rewrite lookup_fmap.
      destruct (images st !! b) as [d|]; [|reflexivity].
      cbn [fmap option_fmap option_map]. f_equal.
      unfold mark_unloaded. destruct (_ =? _); reflexivity.
    + assert (Hreg2 : registry_list st' l)
        by (now apply (registry_list_frame st)).
      rewrite (registry_list_unique _ _ _ Hreg' Hreg2), H4, IH.
      symmetry. apply last_with_header_ext. intros b _. now rewrite H1.
Qed.

(** X6.  In every reachable state [ksdl_get_self_image] returns the
    descriptor added last among those whose header is [&__dso_handle],
    and null when no such descriptor has been added; so what it returns
    is null or a descriptor of the registry with that header. *)
Theorem self_image_is_last_with_dso_header E st l :
  reachable E st -> registry_list st l ->
  ksdl_get_self_image st = last_with_header st l (dso_handle E) /\
  (ksdl_get_self_image st = NullImage \/
   exists a d, ksdl_get_self_image st = Alloc a /\ a ∈ l /\
     images st !! a = Some d /\ header d = dso_handle E).
Proof.
  intros Hreach Hreg. unfold ksdl_get_self_image.
  pose proof (self_image_inv E st Hreach l Hreg) as Hself.
  split; [exact Hself|]. rewrite Hself. unfold last_with_header.
  destruct (last _) as [a|] eqn:Hlast; [right|left; reflexivity].
  apply last_Some_elem_of in Hlast.
  apply list_elem_of_filter in Hlast as [Hh Hin].
  destruct (images st !! a) as [d|] eqn:Hd; [|discriminate].
  exists a, d. split_and!; [reflexivity|exact Hin|exact Hd|].
  now injection Hh.
Qed.

Lemma self_image_is_last_with_dso_header_witness :
  ksdl_get_self_image sample_state
    = last_with_header sample_state [100; 200] (dso_handle sample_env) /\
  (ksdl_get_self_image sample_state = NullImage \/
   exists a d, ksdl_get_self_image sample_state = Alloc a /\ a ∈ [100; 200] /\
     images sample_state !! a = Some d /\ header d = dso_handle sample_env).
Proof.
  apply (self_image_is_last_with_dso_header sample_env sample_state [100; 200]).
  - apply sample_reachable.
  - apply sample_registry.
Defined.

(** ** The main image *)

Lemma main_image_loop_linked E st ks :
  forall p fuel,
    linked (images st) p ks -> (length ks < fuel)%nat ->
    main_image_loop E fuel st p = Some (first_match st ks (is_executable E)).
Proof.
  induction ks as [|a ks IH]; intros p fuel Hl Hfuel;
    (destruct fuel as [|k]; [simpl in Hfuel; lia|]).
  - simpl in Hl. subst p. reflexivity.
  - destruct Hl as [-> (d & Hd & Hl)].
    cbn [main_image_loop deref]. rewrite Hd.
    unfold first_match. cbn [List.find]. rewrite Hd.
    unfold is_executable at 1.
    destruct (load32 (mem E) (header d + off_filetype) =? MH_EXECUTE);
      [reflexivity|].
    rewrite (IH (next d) k Hl) by (simpl in Hfuel; lia). reflexivity.
Qed.

Lemma first_match_fmap st l f test :
  first_match (with_images (f <$> images st) st) l test
  = first_match st l (fun d => test (f d)).
Proof.
  unfold first_match. cbn [images with_images].
  replace (List.find (fun a => match (f <$> images st) !! a with
                               | Some d => test d
                               | None => false
                               end) l)
    with (List.find (fun a => match images st !! a with
                              | Some d => test (f d)
                              | None => false
                              end) l); [reflexivity|].
  induction l as [|a l IH]; [reflexivity|].
  cbn [List.find]. rewrite lookup_fmap, IH.
  destruct (images st !! a); reflexivity.
Qed.

(** X7.  On a well-formed registry [ksdl_get_main_image] returns the
    first descriptor in insertion order whose header has file type
    [MH_EXECUTE], null when there is none.  The unloaded flag plays no
    part: what [remove_image] does never changes the answer. *)
Theorem main_image_first_executable E st l fuel :
  registry_list st l -> (length l < fuel)%nat ->
  ksdl_get_main_image E fuel st = Some (first_match st l (is_executable E)) /\
  forall h s, exists st',
    remove_image E fuel h s st = Some st' /\
    ksdl_get_main_image E fuel st' = ksdl_get_main_image E fuel st.
Proof.
  intros Hreg Hfuel.
  assert (Hmain : forall st0, registry_list st0 l ->
            ksdl_get_main_image E fuel st0
            = Some (first_match st0 l (is_executable E))).
  { intros st0 (_ & Hl & _). unfold ksdl_get_main_image, ksdl_get_images.
    now apply main_image_loop_linked. }
  split; [now apply Hmain|]. intros h s.
  rewrite (remove_image_spec E fuel h s st l Hreg Hfuel).
  eexists. split; [reflexivity|].
  destruct (ksdl_getBinaryImageForHeader _ _ _ _ _) as [[[] buf] errs];
    [|reflexivity].
  rewrite Hmain by (apply fmap_registry_list;
                    [apply mark_unloaded_next|exact Hreg]).
  rewrite (Hmain st Hreg), first_match_fmap. f_equal.
  apply first_match_ext. intros a d _ _. unfold is_executable, mark_unloaded.
  destruct (_ =? vmAddress buf); reflexivity.
Qed.

Lemma main_image_first_executable_witness :
  ksdl_get_main_image sample_env 3 sample_state
    = Some (first_match sample_state [100; 200] (is_executable sample_env)) /\
  first_match sample_state [100; 200] (is_executable sample_env) = Alloc 200 /\
  exists st' d,
    remove_image sample_env 3 0x2000 0 sample_state = Some st' /\
    images st' !! 200 = Some d /\ unloaded d = true /\
    ksdl_get_main_image sample_env 3 st'
      = ksdl_get_main_image sample_env 3 sample_state.
Proof.
  destruct (main_image_first_executable sample_env sample_state [100; 200] 3
              sample_registry ltac:(simpl; lia)) as [H1 H2].
  split; [exact H1|]. split; [vm_compute; reflexivity|].
  destruct (H2 0x2000 0) as (st' & Hrm & Hsame).
  exists st'. eexists. split; [exact Hrm|].
  assert (Hst' : Some st' = remove_image sample_env 3 0x2000 0 sample_state)
    by (symmetry; exact Hrm).
  vm_compute in Hst'. injection Hst' as ->.
  split_and!; [vm_compute; reflexivity|reflexivity|exact Hsame].
Defined.

(** ** The uuid of a named image *)

Lemma imageUUID_loop_spec E n :
  forall p,
    imageUUID_loop E n p
    = match head (filter (fun q => is_uuid_cmd E q = true)
                    (cmd_ptrs E n p)) with
      | Some q => q + off_uuid
      | None => 0
      end.
Proof.
  induction n as [|n IH]; intros p; [reflexivity|].
  cbn [imageUUID_loop cmd_ptrs]. rewrite filter_cons.
  destruct (decide (is_uuid_cmd E p = true)) as [Hu|Hu].
  - unfold is_uuid_cmd in Hu. rewrite Hu. reflexivity.
  - apply not_true_is_false in Hu. unfold is_uuid_cmd in Hu. rewrite Hu.
    apply IH.
Qed.

(** X8.  In a reachable state [ksdl_imageUUID] answers null for a null
    name and for a name [ksdl_imageNamed] does not find; for the
    descriptor found it returns the uuid of the first uuid command of the
    image, null when the image has none.  The descriptor's own [uuid]
    field is that of the last uuid command, so the two agree whenever
    the first and the last uuid command are the same. *)
Theorem imageUUID_first_uuid_command E st fuel n exactMatch :
  reachable E st -> (base.size (images st) < fuel)%nat ->
  ksdl_imageUUID E fuel st None exactMatch = Some 0 /\
  exists img,
    ksdl_imageNamed fuel st (Some n) exactMatch = Some img /\
    match img with
    | Alloc a =>
        exists d, images st !! a = Some d /\
          ksdl_imageUUID E fuel st (Some n) exactMatch
          = Some (match head (uuid_cmds E (header d)) with
                  | Some q => q + off_uuid
                  | None => 0
                  end) /\
          (head (uuid_cmds E (header d)) = last (uuid_cmds E (header d)) ->
           ksdl_imageUUID E fuel st (Some n) exactMatch = Some (uuid d))
    | _ => img = NullImage /\
           ksdl_imageUUID E fuel st (Some n) exactMatch = Some 0
    end.
Proof.
  intros Hreach Hfuel. split; [reflexivity|].
  destruct (reachable_registry E st Hreach) as [l Hreg].
  rewrite (registry_size st l Hreg) in Hfuel.
  assert (Hnamed : ksdl_imageNamed fuel st (Some n) exactMatch
                   = Some (first_match st l (name_matches n exactMatch))).
  { unfold ksdl_imageNamed, ksdl_get_images. destruct Hreg as (_ & Hl & _).
    now apply imageNamed_loop_linked. }
  eexists. split; [exact Hnamed|].
  unfold ksdl_imageUUID. rewrite Hnamed.
  destruct (first_match_spec st l (name_matches n exactMatch))
    as [[-> _]|(i & a & d & _ & -> & Hd & _)]; [split; reflexivity|].
  exists d. split; [exact Hd|]. cbn [deref]. rewrite Hd.
  destruct (parsed_from_header_fields E d (reachable_parsed E st a d Hreach Hd))
    as (_ & Hh & Hc & _ & _ & Hu).
  apply Z.eqb_neq in Hh, Hc. rewrite Hh. cbv zeta. rewrite Hc.
  rewrite imageUUID_loop_spec. fold (uuid_cmds E (header d)).
  split; [reflexivity|]. intros ->. f_equal. rewrite Hu.
  destruct (walk_cmds_segment E (header_ncmds E (header d))
              (mkWalk (ksdl_first_cmd_after_header E (header d)) 0 0 0 0))
    as (_ & _ & H3).
  symmetry. exact H3.
Qed.

Lemma imageUUID_first_uuid_command_witness :
  exists img,
    ksdl_imageNamed 3 sample_state (Some "libfoo"%string) false = Some img /\
    match img with
    | Alloc a =>
        exists d, images sample_state !! a = Some d /\
          ksdl_imageUUID sample_env 3 sample_state (Some "libfoo"%string) false
          = Some (match head (uuid_cmds sample_env (header d)) with
                  | Some q => q + off_uuid
                  | None => 0
                  end) /\
          (head (uuid_cmds sample_env (header d))
           = last (uuid_cmds sample_env (header d)) ->
           ksdl_imageUUID sample_env 3 sample_state (Some "libfoo"%string)
             false = Some (uuid d))
    | _ => img = NullImage /\
           ksdl_imageUUID sample_env 3 sample_state (Some "libfoo"%string)
             false = Some 0
    end.
Proof.
  apply (imageUUID_first_uuid_command sample_env sample_state 3
           "libfoo"%string false).
  - apply sample_reachable.
  - vm_compute. lia.
Defined.

(** ** The reset hook *)

Lemma reset_free_loop_spec ks :
  forall st p fuel,
    linked (images st) p ks -> NoDup ks -> (length ks < fuel)%nat ->
    exists st',
      reset_free_loop fuel p st = Some st' /\
      (forall a, images st' !! a =
         if decide (a ∈ ks) then None else images st !! a) /\
      g_head_dummy st' = g_head_dummy st /\
      g_all_image_infos st' = g_all_image_infos st /\
      dyld_calls st' = dyld_calls st.
Proof.
  induction ks as [|a ks IH]; intros st p fuel Hl Hnd Hfuel;
    (destruct fuel as [|k]; [simpl in Hfuel; lia|]).
  - simpl in Hl. subst p. exists st. split_and!; reflexivity.
  - destruct Hl as [-> (d & Hd & Hl)]. apply NoDup_cons in Hnd as [Ha Hnd].
    cbn [reset_free_loop]. rewrite Hd.
    destruct (IH (with_images (delete a (images st)) st) (next d) k)
      as (st' & Hrun & Him & H1 & H2 & H3).
    + cbn [images with_images]. eapply linked_ext; [|exact Hl].
      intros b Hb. rewrite lookup_delete_ne; [reflexivity|].
      intros ->. contradiction.
    + exact Hnd.
    + simpl in Hfuel. lia.
    + exists st'. split_and!; try assumption.
      intros b. rewrite Him. cbn [images with_images].
      destruct (decide (b ∈ ks)) as [Hin|Hin],
        (decide (b ∈ a :: ks)) as [Hin'|Hin']; try reflexivity.
      * exfalso. apply Hin'. now right.
      * apply elem_of_cons in Hin' as [->|?];
          [apply lookup_delete_eq|contradiction].
      * rewrite lookup_delete_ne; [reflexivity|]. intros ->. apply Hin'. left.
Qed.

(** X9.  On a well-formed registry the reset hook returns; it frees every
    descriptor and leaves the empty registry of program start with the
    initialisation flag down, so that the next call of
    [ksdl_binary_images_initialize] runs discovery and registration
    again.  It does not clear [g_all_image_infos]. *)
Theorem reset_restores_empty_registry st l fuel :
  registry_list st l -> (length l < fuel)%nat ->
  ksdl_test_support_mach_headers_reset fuel st = Some (reset_state st) /\
  registry_list (reset_state st) [] /\
  traverse 1 (reset_state st) = Some [] /\
  ksdl_get_self_image (reset_state st) = NullImage /\
  g_all_image_infos (reset_state st) = g_all_image_infos st /\
  forall E new1 new2,
    is_image_list_initialized
      (ksdl_binary_images_initialize E new1 new2 (reset_state st)) = true /\
    dyld_calls (ksdl_binary_images_initialize E new1 new2 (reset_state st))
    = dyld_calls st
      ++ [TaskInfoDyld; RegisterFuncForAddImage; RegisterFuncForRemoveImage].
Proof.
  intros (Hnd & Hl & Htail & Hdom) Hfuel.
  split; [|split; [|split; [|split; [|split]]]].
  - unfold ksdl_test_support_mach_headers_reset, ksdl_get_images.
    destruct (reset_free_loop_spec l st _ fuel Hl Hnd Hfuel)
      as (st' & -> & Him & H1 & H2 & H3).
    assert (Hempty : images st' = ∅).
    { apply map_eq. intros a. rewrite Him, lookup_empty.
      case_decide as Hin; [reflexivity|].
      destruct (images st !! a) eqn:Ha; [|reflexivity].
      exfalso. apply Hin, Hdom. eauto. }
    destruct st' as [im hd tl sf ini gi dc]. simpl in *. subst.
    reflexivity.
  - unfold registry_list, reset_state. cbn. split_and!;
      [constructor|reflexivity|reflexivity|].
    intros a. rewrite lookup_empty. split; [intros [? ?]; discriminate|].
    intros Hin. now apply not_elem_of_nil in Hin.
  - reflexivity.
  - reflexivity.
  - reflexivity.
  - intros E new1 new2.
    apply (initialize_first_call E new1 new2 (reset_state st)). reflexivity.
Qed.

Lemma reset_restores_empty_registry_witness :
  ksdl_test_support_mach_headers_reset 3 sample_state
    = Some (reset_state sample_state) /\
  reset_state sample_state = initial_state.
Proof.
  split; [|vm_compute; reflexivity].
  apply (reset_restores_empty_registry sample_state [100; 200] 3).
  - apply sample_registry.
  - simpl. lia.
Defined.

(** ** [remove_image]: what is marked *)

Lemma parse_slide_irrelevant E g h s s' buf :
  (ksdl_getBinaryImageForHeader E g h s buf).1.1
  = (ksdl_getBinaryImageForHeader E g h s' buf).1.1 /\
  vmAddress (ksdl_getBinaryImageForHeader E g h s buf).1.2
  = vmAddress (ksdl_getBinaryImageForHeader E g h s' buf).1.2.
Proof.
  assert (Hone : forall s1 s2 d errs,
            ksdl_getBinaryImageForHeader E g h s1 buf = (true, d, errs) ->
            (ksdl_getBinaryImageForHeader E g h s2 buf).1.1 = true /\
            vmAddress (ksdl_getBinaryImageForHeader E g h s2 buf).1.2
            = vmAddress d).
  { intros s1 s2 d errs Hp.
    destruct (parse_mono E g g h s1 s2 buf d errs (or_intror eq_refl) Hp)
      as (d' & errs' & -> & Hvm).
    split; [reflexivity|exact Hvm]. }
  destruct (ksdl_getBinaryImageForHeader E g h s buf)
    as [[[] d] errs] eqn:Hp.
  - destruct (Hone s s' d errs Hp) as [-> ->]. split; reflexivity.
  - destruct (ksdl_getBinaryImageForHeader E g h s' buf)
      as [[[] d'] errs'] eqn:Hp'.
    + destruct (Hone s' s d' errs' Hp') as [H1 _]. rewrite Hp in H1.
      discriminate.
    + split; [reflexivity|]. cbn [fst snd].
      rewrite parse_result in Hp, Hp'.
      destruct (ksdl_first_cmd_after_header E h =? 0);
        [congruence|].
      destruct (get_path E g h); [discriminate|congruence].
Qed.

(** X10.  On a well-formed registry [remove_image] returns and keeps the
    list as it is.  When the parser refuses the header nothing changes;
    otherwise every descriptor whose [vmAddress] equals the re-parsed one
    is marked unloaded, whatever its header, and nothing else about any
    descriptor changes.  The slide passed plays no part, and removing the
    same header again changes nothing more. *)
Theorem remove_image_marks_by_vmAddress E st l fuel h s :
  registry_list st l -> (length l < fuel)%nat ->
  exists st',
    remove_image E fuel h s st = Some st' /\
    registry_list st' l /\
    (forall a d, images st !! a = Some d ->
       exists d', images st' !! a = Some d' /\
         set_unloaded true d' = set_unloaded true d /\
         unloaded d'
         = unloaded d
           || ((ksdl_getBinaryImageForHeader E (g_all_image_infos st) h s
                  zero_image).1.1
               && (vmAddress d
                   =? vmAddress
                        (ksdl_getBinaryImageForHeader E (g_all_image_infos st)
                           h s zero_image).1.2))) /\
    ((ksdl_getBinaryImageForHeader E (g_all_image_infos st) h s
        zero_image).1.1 = false -> st' = st) /\
    (forall s', remove_image E fuel h s' st = Some st') /\
    remove_image E fuel h s st' = Some st'.
Proof.
  intros Hreg Hfuel.
  assert (Hmark : forall vm d, set_unloaded true (mark_unloaded vm d)
                               = set_unloaded true d /\
                    unloaded (mark_unloaded vm d)
                    = unloaded d || (vmAddress d =? vm)).
  { intros vm d. unfold mark_unloaded.
    destruct (vmAddress d =? vm), d as [? ? ? ? ? ? []]; split; reflexivity. }
  pose proof (fun s' => remove_image_spec E fuel h s' st l Hreg Hfuel) as Hspec.
  pose proof (fun s' => parse_slide_irrelevant E (g_all_image_infos st) h s s'
                          zero_image) as Hirr.
  destruct (ksdl_getBinaryImageForHeader E (g_all_image_infos st) h s
              zero_image) as [[ok ex] errs] eqn:Hp.
  cbn [fst snd] in *. destruct ok.
  - exists (with_images (mark_unloaded (vmAddress ex) <$> images st) st).
    assert (Hreg' : registry_list
              (with_images (mark_unloaded (vmAddress ex) <$> images st) st) l)
      by (apply fmap_registry_list; [apply mark_unloaded_next|exact Hreg]).
    split; [rewrite Hspec, Hp; reflexivity|].
    split; [exact Hreg'|].
    split; [|split; [discriminate|split]].
    + intros a d Hd. exists (mark_unloaded (vmAddress ex) d).
      cbn [images with_images]. rewrite lookup_fmap, Hd.
      split; [reflexivity|]. apply Hmark.
    + intros s'. rewrite Hspec. destruct (Hirr s') as [Hok Hvm].
      destruct (ksdl_getBinaryImageForHeader E (g_all_image_infos st) h s'
                  zero_image) as [[ok' ex'] errs'].
      cbn [fst snd] in Hok, Hvm. subst ok'. rewrite Hvm. reflexivity.
    + rewrite (remove_image_spec E fuel h s _ l Hreg' Hfuel).
      change (g_all_image_infos (with_images _ st)) with (g_all_image_infos st).
      rewrite Hp. f_equal. unfold with_images. cbn. f_equal.
      apply map_eq. intros a. rewrite !lookup_fmap.
      destruct (images st !! a); [|reflexivity]. cbn.
      now rewrite mark_unloaded_idem.
  - exists st. split; [rewrite Hspec, Hp; reflexivity|].
    split; [exact Hreg|].
    split; [|split; [reflexivity|split]].
    + intros a d Hd. exists d. split; [exact Hd|].
      split; [reflexivity|]. now rewrite orb_false_r.
    + intros s'. rewrite Hspec. destruct (Hirr s') as [Hok _].
      destruct (ksdl_getBinaryImageForHeader E (g_all_image_infos st) h s'
                  zero_image) as [[ok' ex'] errs'].
      cbn [fst snd] in Hok. subst ok'. reflexivity.
    + rewrite Hspec, Hp. reflexivity.
Qed.

Lemma remove_image_marks_by_vmAddress_witness :
  exists st',
    remove_image sample_env 3 0x1000 0 sample_state = Some st' /\
    registry_list st' [100; 200] /\
    (forall a d, images sample_state !! a = Some d ->
       exists d', images st' !! a = Some d' /\
         set_unloaded true d' = set_unloaded true d /\
         unloaded d'
         = unloaded d
           || ((ksdl_getBinaryImageForHeader sample_env
                  (g_all_image_infos sample_state) 0x1000 0 zero_image).1.1
               && (vmAddress d
                   =? vmAddress
                        (ksdl_getBinaryImageForHeader sample_env
                           (g_all_image_infos sample_state) 0x1000 0
                           zero_image).1.2))) /\
    ((ksdl_getBinaryImageForHeader sample_env
        (g_all_image_infos sample_state) 0x1000 0 zero_image).1.1 = false ->
     st' = sample_state) /\
    (forall s', remove_image sample_env 3 0x1000 s' sample_state = Some st') /\
    remove_image sample_env 3 0x1000 0 st' = Some st'.
Proof.
  apply (remove_image_marks_by_vmAddress sample_env sample_state [100; 200] 3
           0x1000 0).
  - apply sample_registry.
  - simpl. lia.
Defined.

(** ** Descriptors over a run of calls *)

Lemma run_calls_link_stable E cs :
  forall st st' l p d,
    registry_list st l -> calls_allowed E cs st ->
    run_calls E cs st = Some st' ->
    deref st p = Some d -> next d <> NullImage ->
    exists d', deref st' p = Some d' /\ next d' = next d.
Proof.
  induction cs as [|c cs IH]; intros st st' l p d Hreg Hok Hrun Hd Hn.
  - injection Hrun as <-. eauto.
  - cbn [run_calls calls_allowed] in Hrun, Hok. destruct Hok as [Hc Hok].
    destruct (run_call_registry E c st l Hreg Hc) as (st1 & l1 & Hr1 & Hreg1 & _).
    rewrite Hr1 in Hrun, Hok.
    destruct (run_call_link_stable E c st st1 l p d Hreg Hc Hr1 Hd Hn)
      as (d1 & Hd1 & Hn1).
    destruct (IH st1 st' l1 p d1 Hreg1 Hok Hrun Hd1 ltac:(congruence))
      as (d' & Hd' & Hn').
    exists d'. split; [exact Hd'|congruence].
Qed.

(** X11.  A descriptor of a reachable registry is still there after any
    further run of calls, at the same address and with every field as it
    was, except that [unloaded] may have gone from false to true and a
    null link may have been set; a link that is set never changes. *)
Theorem descriptors_persist_and_only_evolve E st cs st' a d :
  reachable E st -> calls_allowed E cs st ->
  run_calls E cs st = Some st' -> images st !! a = Some d ->
  exists d', images st' !! a = Some d' /\
    header d' = header d /\ vmAddress d' = vmAddress d /\
    size d' = size d /\ name d' = name d /\ uuid d' = uuid d /\
    slide d' = slide d /\ inCrashReport d' = inCrashReport d /\
    cpuType d' = cpuType d /\ cpuSubType d' = cpuSubType d /\
    majorVersion d' = majorVersion d /\ minorVersion d' = minorVersion d /\
    revisionVersion d' = revisionVersion d /\
    crashInfoMessage d' = crashInfoMessage d /\
    crashInfoMessage2 d' = crashInfoMessage2 d /\
    crashInfoBacktrace d' = crashInfoBacktrace d /\
    crashInfoSignature d' = crashInfoSignature d /\
    (unloaded d = true -> unloaded d' = true) /\
    (next d <> NullImage -> next d' = next d).
Proof.
  intros Hreach Hok Hrun Hd.
  destruct (reachable_registry E st Hreach) as [l Hreg].
  destruct (run_calls_effects E cs st st' l Hreg
              (reachable_infos_guarded E st Hreach) Hok Hrun)
    as (_ & _ & _ & Hev).
  destruct (Hev a d Hd) as (d' & Hd' & Heq & Hun).
  exists d'. split; [exact Hd'|].
  split; [exact (f_equal header Heq)|].
  split; [exact (f_equal vmAddress Heq)|].
  split; [exact (f_equal size Heq)|].
  split; [exact (f_equal name Heq)|].
  split; [exact (f_equal uuid Heq)|].
  split; [exact (f_equal slide Heq)|].
  split; [exact (f_equal inCrashReport Heq)|].
  split; [exact (f_equal cpuType Heq)|].
  split; [exact (f_equal cpuSubType Heq)|].
  split; [exact (f_equal majorVersion Heq)|].
  split; [exact (f_equal minorVersion Heq)|].
  split; [exact (f_equal revisionVersion Heq)|].
  split; [exact (f_equal crashInfoMessage Heq)|].
  split; [exact (f_equal crashInfoMessage2 Heq)|].
  split; [exact (f_equal crashInfoBacktrace Heq)|].
  split; [exact (f_equal crashInfoSignature Heq)|].
  split; [exact Hun|].
  intros Hn.
  destruct (run_calls_link_stable E cs st st' l (Alloc a) d Hreg Hok Hrun Hd Hn)
    as (d'' & Hd'' & Hn'').
  cbn [deref] in Hd''. congruence.
Qed.

Lemma descriptors_persist_and_only_evolve_witness :
  exists st' d,
    run_calls sample_env
      [CallRemoveImage 0x1000 0; CallAddImage (Some 300) 0x2000 0]
      sample_state = Some st' /\
    images sample_state !! 100 = Some d /\
    exists d', images st' !! 100 = Some d' /\
      header d' = header d /\ vmAddress d' = vmAddress d /\
      size d' = size d /\ name d' = name d /\ uuid d' = uuid d /\
      slide d' = slide d /\ inCrashReport d' = inCrashReport d /\
      cpuType d' = cpuType d /\ cpuSubType d' = cpuSubType d /\
      majorVersion d' = majorVersion d /\ minorVersion d' = minorVersion d /\
      revisionVersion d' = revisionVersion d /\
      crashInfoMessage d' = crashInfoMessage d /\
      crashInfoMessage2 d' = crashInfoMessage2 d /\
      crashInfoBacktrace d' = crashInfoBacktrace d /\
      crashInfoSignature d' = crashInfoSignature d /\
      (unloaded d = true -> unloaded d' = true) /\
      (next d <> NullImage -> next d' = next d).
Proof.
  eexists. eexists.
  split; [vm_compute; reflexivity|]. split; [vm_compute; reflexivity|].
  apply (descriptors_persist_and_only_evolve sample_env sample_state
           [CallRemoveImage 0x1000 0; CallAddImage (Some 300) 0x2000 0] _ 100).
  - apply sample_reachable.
  - vm_compute. repeat constructor.
  - vm_compute. reflexivity.
  - vm_compute. reflexivity.
Defined.

(** ** The registry in every reachable state *)

(** X12.  In every reachable state the registry is well formed: a
    traversal from the sentinel ends after as many steps as there are
    allocated descriptors and visits each of them once, the tail pointer
    is at the last one visited (at the sentinel when there is none) and
    the link of the object it points to is null.  Every call allowed
    there returns, in a state that is reachable again. *)
Theorem reachable_registry_well_formed E st :
  reachable E st ->
  exists l,
    traverse (S (base.size (images st))) st = Some (Alloc <$> l) /\
    NoDup l /\ length l = base.size (images st) /\
    (forall a, is_Some (images st !! a) <-> a ∈ l) /\
    g_images_tail st = last_ptr l /\
    (exists t, deref st (g_images_tail st) = Some t /\ next t = NullImage) /\
    forall c, call_allowed E st c ->
      exists st', run_call E c st = Some st' /\ reachable E st'.
Proof.
  intros Hreach. destruct (reachable_registry E st Hreach) as [l Hreg].
  pose proof (registry_size st l Hreg) as Hsize.
  pose proof Hreg as (Hnd & Hl & Htail & Hdom).
  exists l. split; [|split; [exact Hnd|split; [now symmetry|split;
                     [exact Hdom|split; [exact Htail|split]]]]].
  - unfold traverse, ksdl_get_images. apply traverse_from_linked; [exact Hl|].
    lia.
  - rewrite Htail. unfold last_ptr.
    destruct (last l) as [a|] eqn:Hlast.
    + destruct (linked_last_null _ _ _ _ Hl Hlast) as (d & Hd & Hn).
      exists d. split; [exact Hd|exact Hn].
    + apply last_None in Hlast. subst l. cbn [linked] in Hl.
      exists (g_head_dummy st). split; [reflexivity|exact Hl].
  - intros c Hc.
    destruct (run_call_registry E c st l Hreg Hc) as (st' & l' & Hrun & _).
    exists st'. split; [exact Hrun|].
    eapply reachable_call; eassumption.
Qed.

Lemma reachable_registry_well_formed_witness :
  exists l,
    traverse (S (base.size (images sample_state))) sample_state
      = Some (Alloc <$> l) /\
    NoDup l /\ length l = base.size (images sample_state) /\
    (forall a, is_Some (images sample_state !! a) <-> a ∈ l) /\
    g_images_tail sample_state = last_ptr l /\
    (exists t, deref sample_state (g_images_tail sample_state) = Some t /\
               next t = NullImage) /\
    forall c, call_allowed sample_env sample_state c ->
      exists st', run_call sample_env c sample_state = Some st' /\
                  reachable sample_env st'.
Proof.
  apply (reachable_registry_well_formed sample_env sample_state).
  apply sample_reachable.
Defined.

(** ** [add_image]: the failure paths *)

Lemma parse_flag E g h s buf :
  (ksdl_getBinaryImageForHeader E g h s buf).1.1 = false <->
  ksdl_first_cmd_after_header E h = 0 \/ get_path E g h = None.
Proof.
  rewrite parse_result.
  destruct (ksdl_first_cmd_after_header E h =? 0) eqn:Hc.
  - apply Z.eqb_eq in Hc. cbn [fst]. tauto.
  - apply Z.eqb_neq in Hc.
    destruct (get_path E g h) as [n|]; cbn [fst]; split; try tauto.
    + discriminate.
    + intros [?|?]; [contradiction|discriminate].
Qed.

(** X13.  [add_image] leaves the whole state as it was, the block it
    allocated freed again, when [calloc] returns null, when the header
    has no first command (null or unrecognized magic) or when no path is
    found for it; and on a well-formed registry these are the only cases
    in which it does. *)
Theorem add_image_fails_without_trace E newImage h s st l :
  registry_list st l -> calloc_fresh st newImage ->
  add_image E newImage h s st = st <->
  newImage = None \/ ksdl_first_cmd_after_header E h = 0 \/
  get_path E (g_all_image_infos st) h = None.
Proof.
  intros Hreg Hfresh. split.
  - intros Hsame. destruct newImage as [a|]; [right|now left].
    apply (parse_flag E (g_all_image_infos st) h s zero_image).
    destruct (ksdl_getBinaryImageForHeader E (g_all_image_infos st) h s
                zero_image) as [[[] buf] errs] eqn:Hparse; [|reflexivity].
    exfalso.
    destruct (add_image_success E a h s st l buf errs Hreg Hfresh Hparse)
      as (_ & Ha & _).
    rewrite Hsame in Ha. cbn [calloc_fresh] in Hfresh. congruence.
  - intros Hcase. apply add_image_no_effect; [exact Hfresh|].
    destruct Hcase as [->|Hcase]; [now left|right].
    now apply parse_flag.
Qed.

Lemma add_image_fails_without_trace_witness :
  add_image sample_env (Some 300) 0x3000 0 sample_state = sample_state <->
  Some 300 = None \/ ksdl_first_cmd_after_header sample_env 0x3000 = 0 \/
  get_path sample_env (g_all_image_infos sample_state) 0x3000 = None.
Proof.
  apply (add_image_fails_without_trace sample_env (Some 300) 0x3000 0
           sample_state [100; 200]).
  - apply sample_registry.
  - vm_compute. reflexivity.
Defined.

(** ** Discovery of the dynamic loader *)

Lemma parse_succeeds E g h s buf :
  ksdl_first_cmd_after_header E h <> 0 -> is_Some (get_path E g h) ->
  exists d errs, ksdl_getBinaryImageForHeader E g h s buf = (true, d, errs).
Proof.
  intros Hc [n Hn].
  destruct (ksdl_getBinaryImageForHeader E g h s buf) as [[[] d] errs] eqn:Hp;
    [eauto|exfalso].
  pose proof (proj1 (parse_flag E g h s buf)) as Hf. rewrite Hp in Hf.
  destruct (Hf eq_refl) as [?|?]; [contradiction|congruence].
Qed.

Lemma add_image_record E newImage h s c st :
  add_image E newImage h s (record_dyld_call c st)
  = record_dyld_call c (add_image E newImage h s st).
Proof.
  unfold add_image. destruct newImage as [a|]; [|reflexivity].
  change (g_all_image_infos
            (with_images (<[a:=zero_image]> (images (record_dyld_call c st)))
               (record_dyld_call c st)))
    with (g_all_image_infos (with_images (<[a:=zero_image]> (images st)) st)).
  destruct (ksdl_getBinaryImageForHeader _ _ _ _ _) as [[ok buf] errs].
  destruct ok; cbn [negb]; [|reflexivity]. cbv zeta.
  change (g_images_tail
            (with_images _ (with_images _ (record_dyld_call c st))))
    with (g_images_tail st).
  change (g_images_tail (with_images _ (with_images _ st)))
    with (g_images_tail st).
  destruct (h =? dso_handle E);
    destruct (g_images_tail st) as [| |b]; reflexivity.
Qed.

Lemma dyld_add_callbacks_record E loaded :
  forall c st,
    dyld_add_callbacks E loaded (record_dyld_call c st)
    = record_dyld_call c (dyld_add_callbacks E loaded st).
Proof.
  unfold dyld_add_callbacks.
  induction loaded as [|[[newImage h] sl] loaded IH]; intros c st;
    [reflexivity|].
  cbn [foldl]. rewrite add_image_record. apply IH.
Qed.

Lemma dyld_add_callbacks_run E loaded :
  forall st,
    run_calls E (callback_calls loaded) st
    = Some (dyld_add_callbacks E loaded st).
Proof.
  unfold dyld_add_callbacks, callback_calls.
  induction loaded as [|[[newImage h] sl] loaded IH]; intros st;
    [reflexivity|].
  cbn [map run_calls run_call foldl]. apply IH.
Qed.

(** The call with the loader's callbacks in place is the call followed
    by the callbacks as calls of [add_image]. *)
Lemma initialize_with_dyld_callbacks_run E new1 new2 loaded st :
  is_image_list_initialized st = false ->
  run_calls E (callback_calls loaded)
    (ksdl_binary_images_initialize E new1 new2 st)
  = Some (initialize_with_dyld_callbacks E new1 new2 loaded st).
Proof.
  intros Hflag. rewrite dyld_add_callbacks_run. f_equal.
  unfold initialize_with_dyld_callbacks, ksdl_binary_images_initialize.
  rewrite Hflag.
  unfold register_for_changes_with_callbacks, register_for_changes.
  now rewrite dyld_add_callbacks_record.
Qed.

(** What [register_dyld_images] has registered is still there, at the
    front of what was added, when the call and the loader's callbacks
    are through. *)
Lemma initialize_with_dyld_callbacks_keeps E new1 new2 loaded st l l1 :
  registry_list st l -> is_image_list_initialized st = false ->
  registry_list (register_dyld_images E new1 new2 (with_initialized true st))
    l1 ->
  calls_allowed E (callback_calls loaded)
    (ksdl_binary_images_initialize E new1 new2 st) ->
  let st1 := register_dyld_images E new1 new2 (with_initialized true st) in
  let st2 := initialize_with_dyld_callbacks E new1 new2 loaded st in
  (exists l2, registry_list st2 (l1 ++ l2)) /\
  forall b d, images st1 !! b = Some d ->
    exists d', images st2 !! b = Some d' /\ evolves d d'.
Proof.
  intros Hreg Hflag Hreg1 Hok st1 st2.
  pose proof (initialize_with_dyld_callbacks_run E new1 new2 loaded st Hflag)
    as Hrun. fold st2 in Hrun.
  assert (Hinit : ksdl_binary_images_initialize E new1 new2 st
                  = register_for_changes st1).
  { unfold ksdl_binary_images_initialize. now rewrite Hflag. }
  assert (Hreg' : registry_list
                    (ksdl_binary_images_initialize E new1 new2 st) l1).
  { rewrite Hinit. eapply registry_list_frame; [..|exact Hreg1]; reflexivity. }
  assert (Hg : infos_guarded (ksdl_binary_images_initialize E new1 new2 st)).
  { right. now apply initialize_first_call. }
  destruct (run_calls_effects E _ _ _ l1 Hreg' Hg Hok Hrun)
    as ((l' & Hreg2 & [l2 ->]) & _ & _ & Hev).
  split; [eauto|]. intros b d Hd. apply Hev. rewrite Hinit. exact Hd.
Qed.

(** X14.  [register_dyld_images] stores the loader bookkeeping before it
    adds the loader's own image, so that an image [dladdr] cannot name is
    registered under the path of the bookkeeping, with the slide
    [compute_slide] finds; when the bookkeeping cannot be had, it adds
    nothing and stores nothing.  After the first call of
    [ksdl_binary_images_initialize], with whatever images the loader
    reports while the callback is registered, that descriptor stands in
    the list before every image reported. *)
Theorem loader_image_registered_first E a new2 st l :
  registry_list st l -> images st !! a = None ->
  TARGET_OS_SIMULATOR E = false ->
  match task_dyld_info E with
  | Some infos =>
      g_all_image_infos (register_dyld_images E (Some a) new2 st)
        = Some infos /\
      (ksdl_first_cmd_after_header E (dyldImageLoadAddress infos) <> 0 ->
       dladdr_fname E (dyldImageLoadAddress infos) = None ->
       is_Some (dyldPath infos) ->
       (registry_list (register_dyld_images E (Some a) new2 st) (l ++ [a]) /\
        exists d,
          images (register_dyld_images E (Some a) new2 st) !! a = Some d /\
          header d = dyldImageLoadAddress infos /\
          name d = dyldPath infos /\
          slide d = compute_slide E (dyldImageLoadAddress infos)) /\
       (is_image_list_initialized st = false ->
        forall loaded,
          calls_allowed E (callback_calls loaded)
            (ksdl_binary_images_initialize E (Some a) new2 st) ->
          exists l2 d,
            registry_list
              (initialize_with_dyld_callbacks E (Some a) new2 loaded st)
              (l ++ [a] ++ l2) /\
            images (initialize_with_dyld_callbacks E (Some a) new2 loaded st)
              !! a = Some d /\
            header d = dyldImageLoadAddress infos /\
            name d = dyldPath infos /\
            slide d = compute_slide E (dyldImageLoadAddress infos)))
  | None =>
      images (register_dyld_images E (Some a) new2 st) = images st /\
      registry_list (register_dyld_images E (Some a) new2 st) l /\
      g_all_image_infos (register_dyld_images E (Some a) new2 st)
        = g_all_image_infos st
  end.
Proof.
  intros Hreg Hfresh Hsim.
  destruct (task_dyld_info E) as [infos|] eqn:Hinfo.
  - assert (Hg : forall st0,
              g_all_image_infos (register_dyld_images E (Some a) new2 st0)
              = Some infos).
    { intros st0. unfold register_dyld_images. rewrite Hinfo, Hsim.
      destruct (add_image_globals E (Some a) (dyldImageLoadAddress infos)
                  (compute_slide E (dyldImageLoadAddress infos))
                  (with_all_image_infos (Some infos)
                     (record_dyld_call TaskInfoDyld st0))) as (-> & _).
      reflexivity. }
    split; [apply Hg|]. intros Hc Hdl [p Hp].
    assert (Hadd : forall st0, registry_list st0 l -> images st0 !! a = None ->
              registry_list (register_dyld_images E (Some a) new2 st0)
                (l ++ [a]) /\
              exists d,
                images (register_dyld_images E (Some a) new2 st0) !! a
                  = Some d /\
                header d = dyldImageLoadAddress infos /\
                name d = dyldPath infos /\
                slide d = compute_slide E (dyldImageLoadAddress infos)).
    { intros st0 Hreg0 Hfresh0. unfold register_dyld_images.
      rewrite Hinfo, Hsim.
      set (st1 := with_all_image_infos (Some infos)
                    (record_dyld_call TaskInfoDyld st0)).
      assert (Hreg1 : registry_list st1 l)
        by (eapply registry_list_frame; [..|exact Hreg0]; reflexivity).
      assert (Hpath : get_path E (g_all_image_infos st1)
                        (dyldImageLoadAddress infos) = Some p).
      { change (g_all_image_infos st1) with (Some infos).
        unfold get_path. rewrite Hdl, Z.eqb_refl. exact Hp. }
      destruct (parse_succeeds E (g_all_image_infos st1)
                  (dyldImageLoadAddress infos)
                  (compute_slide E (dyldImageLoadAddress infos)) zero_image
                  Hc ltac:(rewrite Hpath; eauto)) as (buf & errs & Hparse).
      destruct (add_image_success E a _ _ st1 l buf errs Hreg1 Hfresh0 Hparse)
        as (Hreg2 & Ha & _).
      destruct (parse_ok_fields _ _ _ _ _ _ _ Hparse)
        as (Hh & _ & _ & Hn & _ & Hs & _).
      split; [exact Hreg2|]. exists buf.
      split; [exact Ha|]. split; [exact Hh|]. split; [|exact Hs].
      rewrite Hn, Hp. exact Hpath. }
    split; [now apply Hadd|]. intros Hflag loaded Hok.
    destruct (Hadd (with_initialized true st))
      as (Hreg1 & d & Hd & Hh & Hn & Hs);
      [eapply registry_list_frame; [..|exact Hreg]; reflexivity|exact Hfresh|].
    destruct (initialize_with_dyld_callbacks_keeps E (Some a) new2 loaded st l
                (l ++ [a]) Hreg Hflag Hreg1 Hok) as ([l2 Hreg2] & Hkeep).
    destruct (Hkeep a d Hd) as (d' & Hd' & Hev).
    destruct (evolves_fields d d' Hev) as (Eh & _ & _ & En).
    exists l2, d'. rewrite <- app_assoc in Hreg2.
    split; [exact Hreg2|]. split; [exact Hd'|].
    split; [congruence|]. split; [congruence|].
    destruct Hev as [Heq _]. apply (f_equal slide) in Heq.
    cbn [slide set_unloaded set_next] in Heq. congruence.
  - unfold register_dyld_images. rewrite Hinfo.
    split; [reflexivity|]. split; [|reflexivity].
    eapply registry_list_frame; [..|exact Hreg]; reflexivity.
Qed.

Lemma sample_dyld_reachable : reachable sample_dyld_env sample_dyld_state.
Proof.
  eapply reachable_call with (c := CallInitialize (Some 100) None);
    [apply reachable_initial| |reflexivity].
  split; [vm_compute; reflexivity|]. intros infos _. exact I.
Qed.

Lemma loader_image_registered_first_witness :
  (registry_list
     (register_dyld_images sample_dyld_env (Some 100) None initial_state)
     ([] ++ [100]) /\
   exists d,
     images (register_dyld_images sample_dyld_env (Some 100) None
               initial_state) !! 100 = Some d /\
     header d = 0x5000 /\ name d = Some "/usr/lib/dyld"%string /\
     slide d = compute_slide sample_dyld_env 0x5000) /\
  exists l2 d,
    registry_list
      (initialize_with_dyld_callbacks sample_dyld_env (Some 100) None
         [(Some 200, 0x1000, 0); (Some 300, 0x5000, 0)] initial_state)
      ([] ++ [100] ++ l2) /\
    images
      (initialize_with_dyld_callbacks sample_dyld_env (Some 100) None
         [(Some 200, 0x1000, 0); (Some 300, 0x5000, 0)] initial_state)
      !! 100 = Some d /\
    header d = 0x5000 /\ name d = Some "/usr/lib/dyld"%string /\
    slide d = compute_slide sample_dyld_env 0x5000.
Proof.
  pose proof (loader_image_registered_first sample_dyld_env 100 None
                initial_state [] initial_registry eq_refl eq_refl) as H.
  cbn [task_dyld_info sample_dyld_env] in H. destruct H as [_ H].
  assert (Hc : ksdl_first_cmd_after_header sample_dyld_env
                 (dyldImageLoadAddress sample_dyld_infos) <> 0)
    by (vm_compute; discriminate).
  destruct (H Hc eq_refl ltac:(eexists; reflexivity)) as [HA HB].
  split; [exact HA|].
  assert (Hok : calls_allowed sample_dyld_env
                  (callback_calls
                     [(Some 200, 0x1000, 0); (Some 300, 0x5000, 0)])
                  (ksdl_binary_images_initialize sample_dyld_env (Some 100)
                     None initial_state))
    by (vm_compute; repeat constructor).
  exact (HB eq_refl _ Hok).
Defined.

(** ** Images no address finds *)

Lemma segment_vmsize_range E p : 0 <= segment_vmsize E p < 2 ^ 64.
Proof.
  unfold segment_vmsize. destruct (_ =? _).
  - pose proof (load32_range (mem E) (p + off_seg_vmsize)). lia.
  - apply load64_range.
Qed.

(** X15.  A registered image without TEXT segment has size zero, and no
    address is found in it; the same holds of an image whose range would
    run past the end of the address space, because the end of the range
    wraps around. *)
Theorem image_without_text_never_found E st a d :
  reachable E st -> images st !! a = Some d ->
  0 <= header d < 2 ^ 64 ->
  text_segment_cmds E (header d) = [] \/ 2 ^ 64 <= header d + size d ->
  (text_segment_cmds E (header d) = [] -> size d = 0) /\
  forall fuel address,
    contains_address d address = false /\
    ksdl_image_at_address fuel st address <> Some (Alloc a).
Proof.
  intros Hreach Hd Hh Hcase.
  destruct (parsed_from_header_fields E d (reachable_parsed E st a d Hreach Hd))
    as (_ & _ & _ & _ & Hsz & _).
  destruct (walk_cmds_segment E (header_ncmds E (header d))
              (mkWalk (ksdl_first_cmd_after_header E (header d)) 0 0 0 0))
    as (_ & H2 & _).
  cbn [cmdPtr imageSize] in H2. unfold parsed_walk in Hsz.
  rewrite H2 in Hsz. fold (text_segment_cmds E (header d)) in Hsz.
  assert (Hempty : text_segment_cmds E (header d) = [] -> size d = 0).
  { intros He. rewrite He in Hsz. exact Hsz. }
  assert (Hrange : 0 <= size d < 2 ^ 64).
  { rewrite Hsz. destruct (last _); [apply segment_vmsize_range|lia]. }
  assert (Hnot : forall address, contains_address d address = false).
  { intros address. unfold contains_address.
    destruct (unloaded d); [reflexivity|]. cbv zeta.
    apply andb_false_iff.
    destruct (Z_lt_le_dec address (header d)) as [Hlt|Hge];
      [left; rewrite Z.geb_leb; apply Z.leb_gt; lia|right].
    apply Z.ltb_ge. unfold wrap64.
    destruct Hcase as [He|Hw].
    - rewrite (Hempty He), Z.add_0_r, Z.mod_small by lia. lia.
    - replace (header d + size d)
        with (header d + size d - 2 ^ 64 + 1 * 2 ^ 64) by lia.
      rewrite Z.mod_add, Z.mod_small by lia. lia. }
  split; [exact Hempty|]. intros fuel address. split; [apply Hnot|].
  intros Hfound. unfold ksdl_image_at_address in Hfound.
  destruct (image_at_address_loop_sound fuel st _ address a Hfound)
    as (d' & Hd' & Hin).
  rewrite Hd in Hd'. injection Hd' as <-. rewrite Hnot in Hin. discriminate.
Qed.

Lemma image_without_text_never_found_witness :
  exists d, images sample_dyld_state !! 100 = Some d /\
    (text_segment_cmds sample_dyld_env (header d) = [] -> size d = 0) /\
    forall fuel address,
      contains_address d address = false /\
      ksdl_image_at_address fuel sample_dyld_state address
        <> Some (Alloc 100).
Proof.
  eexists. split; [vm_compute; reflexivity|].
  apply (image_without_text_never_found sample_dyld_env sample_dyld_state 100).
  - apply sample_dyld_reachable.
  - vm_compute. reflexivity.
  - vm_compute. split; [discriminate|reflexivity].
  - left. vm_compute. reflexivity.
Defined.

(** ** The parser and the caller's buffer *)

(** X16.  What [ksdl_getBinaryImageForHeader] returns depends on the
    buffer it is given only through [inCrashReport] and the four
    crash-info fields, which it may leave as they are; every other field
    of a filled buffer is written. *)
Theorem parser_reads_only_kept_fields E g h s buf1 buf2 :
  inCrashReport buf1 = inCrashReport buf2 ->
  crashInfoMessage buf1 = crashInfoMessage buf2 ->
  crashInfoMessage2 buf1 = crashInfoMessage2 buf2 ->
  crashInfoBacktrace buf1 = crashInfoBacktrace buf2 ->
  crashInfoSignature buf1 = crashInfoSignature buf2 ->
  (ksdl_getBinaryImageForHeader E g h s buf1).1.1
  = (ksdl_getBinaryImageForHeader E g h s buf2).1.1 /\
  (ksdl_getBinaryImageForHeader E g h s buf1).2
  = (ksdl_getBinaryImageForHeader E g h s buf2).2 /\
  ((ksdl_getBinaryImageForHeader E g h s buf1).1.1 = true ->
   (ksdl_getBinaryImageForHeader E g h s buf1).1.2
   = (ksdl_getBinaryImageForHeader E g h s buf2).1.2).
Proof.
  intros H1 H2 H3 H4 H5. rewrite !parse_result.
  destruct (ksdl_first_cmd_after_header E h =? 0);
    [cbn [fst snd]; split_and!; (reflexivity || discriminate)|].
  destruct (get_path E g h) as [n|];
    [|cbn [fst snd]; split_and!; (reflexivity || discriminate)].
  cbv zeta. cbn [fst snd]. rewrite H1, H2, H3, H4, H5.
  split_and!; try reflexivity.
  intros _.
  match goal with
  | |- set_next _ (getCrashInfo E ?b1) = set_next _ (getCrashInfo E ?b2) =>
      assert (Hnext : getCrashInfo E b1
                      = set_next (next buf1) (getCrashInfo E b2))
  end.
  { unfold getCrashInfo. cbn [header].
    destruct (getsectiondata E h SEG_DATA KSDL_SECT_CRASH_INFO) as [ci sz].
    repeat match goal with
           | |- context [if ?c then _ else _] => destruct c
           end; reflexivity. }
  rewrite Hnext. reflexivity.
Qed.

Lemma parser_reads_only_kept_fields_witness :
  (ksdl_getBinaryImageForHeader sample_env None 0x1000 0 zero_image).1.2
  = (ksdl_getBinaryImageForHeader sample_env None 0x1000 0
       (mkImage 7 7 7 None 7 7 true false 7 7 7 7 7 0 0 0 0 HeadDummy)).1.2.
Proof.
  apply (parser_reads_only_kept_fields sample_env None 0x1000 0 zero_image
           (mkImage 7 7 7 None 7 7 true false 7 7 7 7 7 0 0 0 0 HeadDummy));
    reflexivity || (vm_compute; reflexivity).
Defined.

(** ** Lookups and later insertions *)

Lemma first_match_app_found st st' l l2 test a :
  (forall b, b ∈ l -> is_Some (images st !! b)) ->
  (forall b d, b ∈ l -> images st !! b = Some d ->
     exists d', images st' !! b = Some d' /\ test d' = test d) ->
  first_match st l test = Alloc a ->
  first_match st' (l ++ l2) test = Alloc a.
Proof.
  unfold first_match. induction l as [|x l IH]; intros Hdom Hsame Hfound;
    [discriminate|].
  cbn [List.find app] in *.
  destruct (Hdom x ltac:(left)) as [dx Hx]. rewrite Hx in Hfound.
  destruct (Hsame x dx ltac:(left) Hx) as (dx' & Hx' & Ht).
  rewrite Hx', Ht. destruct (test dx); [exact Hfound|].
  apply IH; [| |exact Hfound].
  - intros b Hb. apply Hdom. now right.
  - intros b d Hb. apply Hsame. now right.
Qed.

(** X17.  Adding an image never changes the answer of a lookup that had
    found a descriptor: the new descriptor goes to the end of the list,
    behind the one found, and the descriptors before it keep the fields
    the tests read.  This holds for the lookup by address, by name and
    for the main image. *)
Theorem lookups_stable_under_add E newImage h s st l fuel :
  registry_list st l -> calloc_fresh st newImage -> (length l < fuel)%nat ->
  let st' := add_image E newImage h s st in
  (forall address a,
     ksdl_image_at_address fuel st address = Some (Alloc a) ->
     ksdl_image_at_address (S fuel) st' address = Some (Alloc a)) /\
  (forall n exactMatch a,
     ksdl_imageNamed fuel st (Some n) exactMatch = Some (Alloc a) ->
     ksdl_imageNamed (S fuel) st' (Some n) exactMatch = Some (Alloc a)) /\
  (forall a,
     ksdl_get_main_image E fuel st = Some (Alloc a) ->
     ksdl_get_main_image E (S fuel) st' = Some (Alloc a)).
Proof.
  intros Hreg Hfresh Hfuel st'.
  destruct (add_image_registry E newImage h s st l Hreg Hfresh)
    as (l' & Hreg' & Hl'). fold st' in Hreg'.
  assert (Happ : exists l2, l' = l ++ l2 /\ (length l' < S fuel)%nat).
  { destruct Hl' as [->|(a' & _ & ->)].
    - exists []. rewrite app_nil_r. split; [reflexivity|lia].
    - exists [a']. split; [reflexivity|]. rewrite length_app. simpl. lia. }
  destruct Happ as (l2 & -> & Hfuel').
  assert (Hkeep : forall test,
            (forall d d', same_but_next d' d -> test d' = test d) ->
            forall a, first_match st l test = Alloc a ->
                      first_match st' (l ++ l2) test = Alloc a).
  { intros test Htest a. apply first_match_app_found.
    - intros b Hb. destruct Hreg as (_ & _ & _ & Hdom). now apply Hdom.
    - intros b d _ Hd.
      destruct (add_image_keeps_descriptors E newImage h s st l b d
                  Hreg Hfresh Hd) as (d' & Hd' & Hs).
      exists d'. split; [exact Hd'|]. now apply Htest. }
  destruct Hreg as (_ & Hl & _). destruct Hreg' as (_ & Hlk' & _).
  split_and!.
  - intros address a. unfold ksdl_image_at_address, ksdl_get_images.
    rewrite (image_at_address_loop_linked st address l _ fuel Hl Hfuel).
    rewrite (image_at_address_loop_linked st' address _ _ (S fuel) Hlk' Hfuel').
    intros [= Hf]. f_equal. apply Hkeep; [|exact Hf].
    intros d d' Hs. unfold contains_address.
    destruct (same_but_next_fields d' d Hs) as (-> & _ & -> & _ & _ & ->).
    reflexivity.
  - intros n exactMatch a. unfold ksdl_imageNamed, ksdl_get_images.
    rewrite (imageNamed_loop_linked st n exactMatch l _ fuel Hl Hfuel).
    rewrite (imageNamed_loop_linked st' n exactMatch _ _ (S fuel) Hlk' Hfuel').
    intros [= Hf]. f_equal. apply Hkeep; [|exact Hf].
    intros d d' Hs. unfold name_matches.
    destruct (same_but_next_fields d' d Hs) as (_ & _ & _ & -> & _ & ->).
    reflexivity.
  - intros a. unfold ksdl_get_main_image, ksdl_get_images.
    rewrite (main_image_loop_linked E st l _ fuel Hl Hfuel).
    rewrite (main_image_loop_linked E st' _ _ (S fuel) Hlk' Hfuel').
    intros [= Hf]. f_equal. apply Hkeep; [|exact Hf].
    intros d d' Hs. unfold is_executable.
    destruct (same_but_next_fields d' d Hs) as (-> & _). reflexivity.
Qed.

Lemma lookups_stable_under_add_witness :
  ksdl_image_at_address 3 sample_state 0x2010 = Some (Alloc 200) /\
  ksdl_image_at_address 4
    (add_image sample_env (Some 300) 0x2000 0 sample_state) 0x2010
  = Some (Alloc 200).
Proof.
  split; [vm_compute; reflexivity|].
  destruct (lookups_stable_under_add sample_env (Some 300) 0x2000 0
              sample_state [100; 200] 3 sample_registry
              ltac:(vm_compute; reflexivity) ltac:(simpl; lia)) as (H & _).
  apply H. vm_compute. reflexivity.
Defined.

(** ** Concurrent insertions at rest *)

(** X18.  In the interleaving model of concurrent [add_image] calls and
    traversals: whenever no insertion stands between its exchange of the
    tail and the store of the link, the list from the sentinel holds
    every published descriptor, in publication order, and a traversal
    started then sees them all. *)
Theorem quiescent_list_is_complete E c :
  conc_reachable E c ->
  (forall (t : nat) h a old, threads c !! t <> Some (AddLink h a old)) ->
  linked (images (world c)) (next (g_head_dummy (world c))) (published c) /\
  traverse (S (length (published c))) (world c)
    = Some (Alloc <$> published c).
Proof.
  intros Hreach Hquiet.
  destruct (conc_reachable_inv E c Hreach)
    as [Hg Hnd Htail Hlink Hlast Hcomp Hfill Hown Hlinker Hread].
  destruct c as [st pub ts]. simpl in *.
  assert (Hfrom : forall (k j : nat), (j + k = length pub)%nat ->
            exists d, deref st (ptr_at pub j) = Some d /\
              linked (images st) (next d) (drop j pub)).
  { induction k as [|k IH]; intros j Hj.
    - destruct Hlast as (d & Hd & Hn). rewrite last_ptr_ptr_at in Hd.
      replace j with (length pub) by lia.
      exists d. split; [exact Hd|]. rewrite drop_all. exact Hn.
    - destruct (lookup_lt_is_Some_2 pub j ltac:(lia)) as [a Ha].
      destruct (Hlink j a Ha) as (d & Hd & Hcase).
      destruct Hcase as [Hn|[_ (t & h & Ht)]];
        [|exfalso; exact (Hquiet t h a _ Ht)].
      destruct (IH (S j) ltac:(lia)) as (d' & Hd' & Hl').
      simpl in Hd'. rewrite Ha in Hd'. simpl in Hd'.
      exists d. split; [exact Hd|].
      rewrite (drop_S _ _ _ Ha). simpl. rewrite Hn.
      split; [reflexivity|]. exists d'. split; [exact Hd'|exact Hl']. }
  destruct (Hfrom (length pub) O ltac:(lia)) as (d & Hd & Hl).
  simpl in Hd. injection Hd as <-. rewrite drop_0 in Hl.
  split; [exact Hl|].
  unfold traverse, ksdl_get_images. apply traverse_from_linked; [exact Hl|lia].
Qed.

Lemma quiescent_list_is_complete_witness :
  exists c,
    conc_run sample_env (mkConfig initial_state [] [AddEntry 0x1000 0])
      (replicate 20 0%nat) c /\
    threads c = [AddDone] /\ published c = [100] /\
    traverse 2 (world c) = Some [Alloc 100].
Proof.
  eexists.
  match goal with |- ?run /\ _ => assert (Hrun : run) end.
  { simpl replicate. do 20 sample_run_step. apply conc_run_nil. }
  split; [exact Hrun|]. split; [reflexivity|]. split; [reflexivity|].
  pose proof (conc_run_reachable sample_env _ _ _
                (conc_start sample_env [AddEntry 0x1000 0]
                   ltac:(repeat constructor)) Hrun) as Hreach.
  destruct (quiescent_list_is_complete sample_env _ Hreach) as [_ Htr].
  - intros [|t] h a old; [discriminate|]. simpl. discriminate.
  - exact Htr.
Defined.

(** ** Discovery on a simulator build *)

(** X19.  On a simulator build [register_dyld_images] registers the
    loader's image and then, when the path of the first entry of the
    loader's image array contains [/usr/lib/dyld_sim], the image of that
    entry, in this order; with any other path it registers the loader's
    image alone.  After the first call of
    [ksdl_binary_images_initialize], with whatever images the loader
    reports while the callback is registered, these descriptors stand in
    the list before every image reported. *)
Theorem simulator_loader_registered_second E a1 a2 st l infos
    simHeader filePath :
  registry_list st l ->
  images st !! a1 = None -> images st !! a2 = None -> a1 <> a2 ->
  TARGET_OS_SIMULATOR E = true -> task_dyld_info E = Some infos ->
  infoArray infos = Some (simHeader, filePath) ->
  ksdl_first_cmd_after_header E (dyldImageLoadAddress infos) <> 0 ->
  is_Some (get_path E (Some infos) (dyldImageLoadAddress infos)) ->
  ksdl_first_cmd_after_header E simHeader <> 0 ->
  is_Some (get_path E (Some infos) simHeader) ->
  (is_substring "/usr/lib/dyld_sim" filePath ->
   (registry_list (register_dyld_images E (Some a1) (Some a2) st)
      (l ++ [a1; a2]) /\
    exists d1 d2,
      images (register_dyld_images E (Some a1) (Some a2) st) !! a1
        = Some d1 /\
      header d1 = dyldImageLoadAddress infos /\
      images (register_dyld_images E (Some a1) (Some a2) st) !! a2
        = Some d2 /\
      header d2 = simHeader /\
      name d2 = get_path E (Some infos) simHeader /\
      slide d2 = compute_slide E simHeader) /\
   (is_image_list_initialized st = false ->
    forall loaded,
      calls_allowed E (callback_calls loaded)
        (ksdl_binary_images_initialize E (Some a1) (Some a2) st) ->
      exists l2 d1 d2,
        registry_list
          (initialize_with_dyld_callbacks E (Some a1) (Some a2) loaded st)
          (l ++ [a1; a2] ++ l2) /\
        images (initialize_with_dyld_callbacks E (Some a1) (Some a2) loaded st)
          !! a1 = Some d1 /\
        header d1 = dyldImageLoadAddress infos /\
        images (initialize_with_dyld_callbacks E (Some a1) (Some a2) loaded st)
          !! a2 = Some d2 /\
        header d2 = simHeader /\
        name d2 = get_path E (Some infos) simHeader)) /\
  (~ is_substring "/usr/lib/dyld_sim" filePath ->
   registry_list (register_dyld_images E (Some a1) (Some a2) st)
     (l ++ [a1]) /\
   (is_image_list_initialized st = false ->
    forall loaded,
      calls_allowed E (callback_calls loaded)
        (ksdl_binary_images_initialize E (Some a1) (Some a2) st) ->
      exists l2,
        registry_list
          (initialize_with_dyld_callbacks E (Some a1) (Some a2) loaded st)
          (l ++ [a1] ++ l2))).
Proof.
  intros Hreg Hf1 Hf2 Hne Hsim Hinfo Harr Hc1 Hn1 Hc2 Hn2.
  assert (Hcore : forall st0,
            registry_list st0 l ->
            images st0 !! a1 = None -> images st0 !! a2 = None ->
            (is_substring "/usr/lib/dyld_sim" filePath ->
             registry_list (register_dyld_images E (Some a1) (Some a2) st0)
               (l ++ [a1; a2]) /\
             exists d1 d2,
               images (register_dyld_images E (Some a1) (Some a2) st0) !! a1
                 = Some d1 /\
               header d1 = dyldImageLoadAddress infos /\
               images (register_dyld_images E (Some a1) (Some a2) st0) !! a2
                 = Some d2 /\
               header d2 = simHeader /\
               name d2 = get_path E (Some infos) simHeader /\
               slide d2 = compute_slide E simHeader) /\
            (~ is_substring "/usr/lib/dyld_sim" filePath ->
             registry_list (register_dyld_images E (Some a1) (Some a2) st0)
               (l ++ [a1]))).
  { intros st0 Hreg0 Hf10 Hf20. unfold register_dyld_images.
    rewrite Hinfo, Hsim, Harr.
    set (st1 := with_all_image_infos (Some infos)
                  (record_dyld_call TaskInfoDyld st0)).
    assert (Hreg1 : registry_list st1 l)
      by (eapply registry_list_frame; [..|exact Hreg0]; reflexivity).
    destruct (parse_succeeds E (g_all_image_infos st1)
                (dyldImageLoadAddress infos)
                (compute_slide E (dyldImageLoadAddress infos)) zero_image
                Hc1 Hn1) as (buf1 & errs1 & Hp1).
    destruct (add_image_success E a1 _ _ st1 l buf1 errs1 Hreg1 Hf10 Hp1)
      as (Hreg2 & Ha1 & _ & Hg2 & _).
    set (st2 := add_image E (Some a1) (dyldImageLoadAddress infos)
                  (compute_slide E (dyldImageLoadAddress infos)) st1) in *.
    destruct (parse_ok_fields _ _ _ _ _ _ _ Hp1) as (Hh1 & _).
    destruct (strstr filePath "/usr/lib/dyld_sim") as [k|] eqn:Hstr.
    - split; [intros _|intros Hno; exfalso; apply Hno, strstr_found; eauto].
      assert (Hf2' : images st2 !! a2 = None).
      { destruct (images st2 !! a2) eqn:Hl2; [exfalso|reflexivity].
        destruct Hreg2 as (_ & _ & _ & Hdom2).
        assert (a2 ∈ l ++ [a1]) as Hin by (apply Hdom2; eauto).
        apply elem_of_app in Hin as [Hin|Hin].
        - destruct Hreg0 as (_ & _ & _ & Hdom). apply Hdom in Hin as [? ?].
          congruence.
        - apply list_elem_of_singleton in Hin. congruence. }
      assert (Hn2' : is_Some (get_path E (g_all_image_infos st2) simHeader))
        by (rewrite Hg2; exact Hn2).
      destruct (parse_succeeds E (g_all_image_infos st2) simHeader
                  (compute_slide E simHeader) zero_image Hc2 Hn2')
        as (buf2 & errs2 & Hp2).
      destruct (add_image_success E a2 _ _ st2 (l ++ [a1]) buf2 errs2
                  Hreg2 Hf2' Hp2) as (Hreg3 & Ha2 & Hold & _).
      destruct (parse_ok_fields _ _ _ _ _ _ _ Hp2)
        as (Hh2 & _ & _ & Hnm2 & _ & Hs2 & _).
      split.
      + rewrite <- app_assoc in Hreg3. exact Hreg3.
      + destruct (Hold a1 buf1 Ha1) as (d1 & Hd1 & Heq).
        exists d1, buf2. split; [exact Hd1|].
        split; [rewrite Heq; case_decide; exact Hh1|].
        split; [exact Ha2|]. split; [exact Hh2|].
        split; [rewrite Hnm2, Hg2; reflexivity|exact Hs2].
    - split; [intros Hsub; exfalso|intros _; exact Hreg2].
      apply strstr_found in Hsub as [k Hk]. congruence. }
  assert (Hreg1 : registry_list (with_initialized true st) l)
    by (eapply registry_list_frame; [..|exact Hreg]; reflexivity).
  destruct (Hcore st Hreg Hf1 Hf2) as [Hyes Hno].
  destruct (Hcore (with_initialized true st) Hreg1 Hf1 Hf2) as [Hyes1 Hno1].
  split.
  - intros Hsub. split; [exact (Hyes Hsub)|]. intros Hflag loaded Hok.
    destruct (Hyes1 Hsub)
      as (Hr & d1 & d2 & Hd1 & Hh1 & Hd2 & Hh2 & Hnm2 & _).
    destruct (initialize_with_dyld_callbacks_keeps E (Some a1) (Some a2)
                loaded st l (l ++ [a1; a2]) Hreg Hflag Hr Hok)
      as ([l2 Hreg2] & Hkeep).
    destruct (Hkeep a1 d1 Hd1) as (d1' & Hd1' & Hev1).
    destruct (Hkeep a2 d2 Hd2) as (d2' & Hd2' & Hev2).
    destruct (evolves_fields d1 d1' Hev1) as (Eh1 & _).
    destruct (evolves_fields d2 d2' Hev2) as (Eh2 & _ & _ & En2).
    exists l2, d1', d2'. rewrite <- app_assoc in Hreg2.
    split; [exact Hreg2|]. split; [exact Hd1'|]. split; [congruence|].
    split; [exact Hd2'|]. split; congruence.
  - intros Hnsub. split; [exact (Hno Hnsub)|]. intros Hflag loaded Hok.
    destruct (initialize_with_dyld_callbacks_keeps E (Some a1) (Some a2)
                loaded st l (l ++ [a1]) Hreg Hflag (Hno1 Hnsub) Hok)
      as ([l2 Hreg2] & _).
    exists l2. rewrite <- app_assoc in Hreg2. exact Hreg2.
Qed.

Lemma simulator_loader_registered_second_witness :
  (registry_list
     (register_dyld_images sample_sim_env (Some 100) (Some 200) initial_state)
     ([] ++ [100; 200]) /\
   exists d1 d2,
     images (register_dyld_images sample_sim_env (Some 100) (Some 200)
               initial_state) !! 100 = Some d1 /\
     header d1 = 0x5000 /\
     images (register_dyld_images sample_sim_env (Some 100) (Some 200)
               initial_state) !! 200 = Some d2 /\
     header d2 = 0x1000 /\
     name d2 = get_path sample_sim_env (Some sample_sim_infos) 0x1000 /\
     slide d2 = compute_slide sample_sim_env 0x1000) /\
  exists l2 d1 d2,
    registry_list
      (initialize_with_dyld_callbacks sample_sim_env (Some 100) (Some 200)
         [(Some 300, 0x1000, 0)] initial_state)
      ([] ++ [100; 200] ++ l2) /\
    images (initialize_with_dyld_callbacks sample_sim_env (Some 100)
              (Some 200) [(Some 300, 0x1000, 0)] initial_state)
      !! 100 = Some d1 /\
    header d1 = 0x5000 /\
    images (initialize_with_dyld_callbacks sample_sim_env (Some 100)
              (Some 200) [(Some 300, 0x1000, 0)] initial_state)
      !! 200 = Some d2 /\
    header d2 = 0x1000 /\
    name d2 = get_path sample_sim_env (Some sample_sim_infos) 0x1000.
Proof.
  assert (Hc1 : ksdl_first_cmd_after_header sample_sim_env 0x5000 <> 0)
    by (vm_compute; discriminate).
  assert (Hc2 : ksdl_first_cmd_after_header sample_sim_env 0x1000 <> 0)
    by (vm_compute; discriminate).
  assert (Hn1 : is_Some (get_path sample_sim_env (Some sample_sim_infos)
                           0x5000))
    by (eexists; vm_compute; reflexivity).
  assert (Hn2 : is_Some (get_path sample_sim_env (Some sample_sim_infos)
                           0x1000))
    by (eexists; vm_compute; reflexivity).
  destruct (simulator_loader_registered_second sample_sim_env 100 200
              initial_state [] sample_sim_infos 0x1000
              "/Runtime/usr/lib/dyld_sim"%string initial_registry
              eq_refl eq_refl ltac:(lia) eq_refl eq_refl eq_refl
              Hc1 Hn1 Hc2 Hn2) as [Hyes _].
  destruct (Hyes ltac:(exists "/Runtime"%string, ""%string; reflexivity))
    as [HA HB].
  split; [exact HA|].
  assert (Hok : calls_allowed sample_sim_env
                  (callback_calls [(Some 300, 0x1000, 0)])
                  (ksdl_binary_images_initialize sample_sim_env (Some 100)
                     (Some 200) initial_state))
    by (vm_compute; repeat constructor).
  exact (HB eq_refl _ Hok).
Defined.

(** ** The list over a run of calls *)

(** X20.  Over any run of calls from a reachable state the list only
    grows at its end: what a traversal visited before the run is a
    prefix of what it visits afterwards, so no call removes or reorders
    descriptors. *)
Theorem traversal_only_grows E st cs st' :
  reachable E st -> calls_allowed E cs st -> run_calls E cs st = Some st' ->
  exists l l2,
    traverse (S (base.size (images st))) st = Some (Alloc <$> l) /\
    traverse (S (base.size (images st'))) st' = Some (Alloc <$> (l ++ l2)) /\
    base.size (images st') = (base.size (images st) + length l2)%nat.
Proof.
  intros Hreach Hok Hrun.
  destruct (reachable_registry E st Hreach) as [l Hreg].
  destruct (run_calls_effects E cs st st' l Hreg
              (reachable_infos_guarded E st Hreach) Hok Hrun)
    as ((l' & Hreg' & [l2 ->]) & _).
  exists l, l2.
  rewrite (registry_size st l Hreg), (registry_size st' _ Hreg').
  destruct Hreg as (_ & Hl & _). destruct Hreg' as (_ & Hl' & _).
  split_and!.
  - apply traverse_from_linked; [exact Hl|lia].
  - apply traverse_from_linked; [exact Hl'|lia].
  - apply length_app.
Qed.

Lemma traversal_only_grows_witness :
  exists st' l l2,
    run_calls sample_env
      [CallRemoveImage 0x1000 0; CallAddImage (Some 300) 0x2000 0]
      sample_state = Some st' /\
    traverse (S (base.size (images sample_state))) sample_state
      = Some (Alloc <$> l) /\
    traverse (S (base.size (images st'))) st' = Some (Alloc <$> (l ++ l2)) /\
    base.size (images st')
      = (base.size (images sample_state) + length l2)%nat.
Proof.
  assert (Hrun : exists st',
            run_calls sample_env
              [CallRemoveImage 0x1000 0; CallAddImage (Some 300) 0x2000 0]
              sample_state = Some st')
    by (eexists; vm_compute; reflexivity).
  destruct Hrun as [st' Hrun].
  assert (Hok : calls_allowed sample_env
                  [CallRemoveImage 0x1000 0; CallAddImage (Some 300) 0x2000 0]
                  sample_state)
    by (vm_compute; repeat constructor).
  destruct (traversal_only_grows sample_env sample_state _ st' sample_reachable
              Hok Hrun)
    as (l & l2 & H1 & H2 & H3).
  exists st', l, l2. split; [exact Hrun|]. split; [exact H1|].
  split; [exact H2|exact H3].
Defined.
